(** * The observed-execution CFG engine of tracker (src/trace.c)

    A shallow embedding of the instruction classifier, the instruction
    index (a chained hash table), the shadow call stack and the CFG
    insertion protocol, together with the properties the specification
    states about them.

    Conventions of the embedding:
    - C integers are [Z] with the wrap-around of their width written out
      ([uint16_t] counters wrap at 2^16, [uintptr_t]/[uint64_t] at 2^64);
    - a [cfg_t *] is an index into the heap (a [list cfg_t]); NULL is [None];
    - a NULL-terminated pointer array (a bucket) is a [list ptr];
    - the [successor] array is a [list (option ptr)] whose length is the
      number of elements requested from [calloc]/[realloc];
    - undefined behaviour (a dangling or NULL dereference, an access past the
      end of an array) is the outcome [Fault];
    - allocation is assumed to succeed;
    - [uintptr_t] and [size_t] are 64 bits wide (the x86-64 build), and a
      [uint64_t] is read from the opcode bytes in little-endian order. *)

From stdpp Require Import base option list gmap.
From Stdlib Require Import ZArith Lia.
From Stdlib Require Strings.String.

Open Scope Z_scope.

(** ** Instructions and the classifier *)

Inductive instr_type_t : Type := BASIC | BRANCH | CALL | JUMP | RET.

#[global] Instance instr_type_eq_dec : EqDecision instr_type_t.
Proof. solve_decision. Defined.

Record instr_t : Type := mk_instr {
  address : Z;            (* uintptr_t *)
  type : instr_type_t;
  size : Z;               (* uint8_t *)
  opcodes : list Z        (* the [size] bytes copied by memcpy *)
}.

(** [opcodes[i]] on the caller's buffer. *)
Definition byte_at (buf : list Z) (i : nat) : Z := nth i buf 0.

(** The cascade of instr_new that assigns the type (trace.c, lines 45-69).
    It reads the caller's buffer [opcodes], not the copy. *)
Definition instr_new_type (size : Z) (opcodes : list Z) : instr_type_t :=
  let o0 := byte_at opcodes 0 in
  let o1 := byte_at opcodes 1 in
  let o2 := byte_at opcodes 2 in
  if ((0x70 <=? o0) && (o0 <=? 0x7F))
     || ((o0 =? 0x0F) && (0x80 <=? o1) && (o1 <=? 0x8F))
  then BRANCH
  else if (o0 =? 0xE8)
       || (o0 =? 0x9A)
       || ((o0 =? 0xFF) && ((((size =? 2) && (0xD0 <=? o1) && (o1 <=? 0xDF))
                              || (size =? 3)) || (o1 =? 0x15)))
       || ((o0 =? 0x41) && (o1 =? 0xFF)
           && (((0xD0 <=? o2) && (o2 <=? 0xD7)) || (3 <? size)))
  then CALL
  else if ((0xE9 <=? o0) && (o0 <=? 0xEB))
       || ((o0 =? 0xFF) && ((((size =? 2) && (0xE0 <=? o1) && (o1 <=? 0xEF))
                              || (size =? 4) || (size =? 5)) || (o1 =? 0x25)))
       || ((0xE0 <=? o0) && (o0 <=? 0xE3))
       || ((o0 =? 0x41) && (o1 =? 0xFF) && (0xE0 <=? o2) && (o2 <=? 0xE7))
       || ((o0 =? 0xF3) && ((size =? 2) || (size =? 3)) && negb (o1 =? 0xC3))
  then JUMP
  else if (((o0 =? 0xC3) || (o0 =? 0xCB)) && (size =? 1))
       || (((o0 =? 0xC2) || (o0 =? 0xCA)) && (size =? 3))
       || ((o0 =? 0xF3) && (o1 =? 0xC3) && (size =? 2))
  then RET
  else BASIC.

(** instr_new: NULL when [size == 0]; otherwise the record with the first
    [size] bytes copied and the type assigned. *)
Definition instr_new (addr : Z) (size : Z) (opcodes : list Z) : option instr_t :=
  if size =? 0 then None
  else Some {| address := addr;
               type := instr_new_type size opcodes;
               size := size;
               opcodes := firstn (Z.to_nat size) opcodes |}.

Definition instr_get_addr (i : instr_t) : Z := address i.
Definition instr_get_size (i : instr_t) : Z := size i.
Definition instr_get_opcodes (i : instr_t) : list Z := opcodes i.

(** *** The rule table of the specification (section 4.1)

    A second definition that follows the words of the table, rule by rule,
    to be compared with the cascade of the source. *)
Module RuleTable.

Definition in_range (lo hi x : Z) : Prop := lo <= x <= hi.

Definition branch_rule (size : Z) (o : nat -> Z) : Prop :=
  in_range 0x70 0x7F (o 0%nat)
  \/ (o 0%nat = 0x0F /\ in_range 0x80 0x8F (o 1%nat)).

Definition call_rule (size : Z) (o : nat -> Z) : Prop :=
  o 0%nat = 0xE8
  \/ o 0%nat = 0x9A
  \/ (o 0%nat = 0xFF
      /\ ((size = 2 /\ in_range 0xD0 0xDF (o 1%nat))
          \/ o 1%nat = 0x15
          \/ size = 3))
  \/ (o 0%nat = 0x41 /\ o 1%nat = 0xFF
      /\ (in_range 0xD0 0xD7 (o 2%nat) \/ size > 3)).

Definition jump_rule (size : Z) (o : nat -> Z) : Prop :=
  in_range 0xE9 0xEB (o 0%nat)
  \/ (o 0%nat = 0xFF
      /\ ((size = 2 /\ in_range 0xE0 0xEF (o 1%nat))
          \/ o 1%nat = 0x25
          \/ size = 4 \/ size = 5))
  \/ in_range 0xE0 0xE3 (o 0%nat)
  \/ (o 0%nat = 0x41 /\ o 1%nat = 0xFF /\ in_range 0xE0 0xE7 (o 2%nat))
  \/ (o 0%nat = 0xF3 /\ (size = 2 \/ size = 3) /\ o 1%nat <> 0xC3).

Definition ret_rule (size : Z) (o : nat -> Z) : Prop :=
  ((o 0%nat = 0xC3 \/ o 0%nat = 0xCB) /\ size = 1)
  \/ ((o 0%nat = 0xC2 \/ o 0%nat = 0xCA) /\ size = 3)
  \/ (o 0%nat = 0xF3 /\ o 1%nat = 0xC3 /\ size = 2).

(** The rules in the order of the table. *)
Definition rules : list (instr_type_t * (Z -> (nat -> Z) -> Prop)) :=
  [ (BRANCH, branch_rule); (CALL, call_rule);
    (JUMP, jump_rule); (RET, ret_rule) ].

(** [first_match rs size o t]: [t] is the tag of the first rule of [rs]
    that matches, BASIC when none does. *)
Inductive first_match :
  list (instr_type_t * (Z -> (nat -> Z) -> Prop)) ->
  Z -> (nat -> Z) -> instr_type_t -> Prop :=
| fm_default size o : first_match [] size o BASIC
| fm_here t r rs size o : r size o -> first_match ((t, r) :: rs) size o t
| fm_later t r rs size o t' :
    ~ r size o -> first_match rs size o t' ->
    first_match ((t, r) :: rs) size o t'.

Definition classified (size : Z) (opcodes : list Z) (t : instr_type_t) : Prop :=
  first_match rules size (byte_at opcodes) t.

End RuleTable.

(** ** Outcomes

    [Ok v] is a normal return; [Fault] stands for undefined behaviour. *)
Inductive result (A : Type) : Type :=
| Ok (a : A)
| Fault.
Arguments Ok {A} a.
Arguments Fault {A}.

Definition bind {A B : Type} (r : result A) (k : A -> result B) : result B :=
  match r with
  | Ok a => k a
  | Fault => Fault
  end.

Notation "'do' x <- r ; k" := (bind r (fun x => k))
  (at level 10, x name, r at level 100, k at level 200).
Notation "'do' ' p <- r ; k" := (bind r (fun x => let 'p := x in k))
  (at level 10, p pattern, r at level 100, k at level 200).

(** ** Machine integers *)

Definition u16 (x : Z) : Z := x mod 2 ^ 16.
Definition u64 (x : Z) : Z := x mod 2 ^ 64.

(** ** The hash function (fasthash64) *)

(** The [mix] macro: [h ^= h >> 23; h *= 0x2127598bf4325c37; h ^= h >> 47]. *)
Definition mix (h : Z) : Z :=
  let h := Z.lxor h (Z.shiftr h 23) in
  let h := u64 (h * 0x2127598bf4325c37) in
  Z.lxor h (Z.shiftr h 47).

Definition fasthash_m : Z := 0x880355f21e6d1965.

(** [*pos] for a [uint64_t *pos] into the byte buffer (little endian). *)
Definition load64 (buf : list Z) : Z :=
  Z.lor (byte_at buf 0)
   (Z.lor (Z.shiftl (byte_at buf 1) 8)
   (Z.lor (Z.shiftl (byte_at buf 2) 16)
   (Z.lor (Z.shiftl (byte_at buf 3) 24)
   (Z.lor (Z.shiftl (byte_at buf 4) 32)
   (Z.lor (Z.shiftl (byte_at buf 5) 40)
   (Z.lor (Z.shiftl (byte_at buf 6) 48)
          (Z.shiftl (byte_at buf 7) 56))))))).

(** The [while (pos != end)] loop over [n] full words; returns [h] and the
    position reached. *)
Fixpoint fasthash64_words (n : nat) (pos : list Z) (h : Z) : Z * list Z :=
  match n with
  | O => (h, pos)
  | S n' =>
      let v := load64 pos in
      let h := Z.lxor h (mix v) in
      let h := u64 (h * fasthash_m) in
      fasthash64_words n' (skipn 8 pos) h
  end.

(** The [switch (len & 7)] with its fall-through cases. *)
Definition fasthash64_tail (r : Z) (pos2 : list Z) : Z :=
  let v := 0 in
  let v := if 7 <=? r then Z.lxor v (Z.shiftl (byte_at pos2 6) 48) else v in
  let v := if 6 <=? r then Z.lxor v (Z.shiftl (byte_at pos2 5) 40) else v in
  let v := if 5 <=? r then Z.lxor v (Z.shiftl (byte_at pos2 4) 32) else v in
  let v := if 4 <=? r then Z.lxor v (Z.shiftl (byte_at pos2 3) 24) else v in
  let v := if 3 <=? r then Z.lxor v (Z.shiftl (byte_at pos2 2) 16) else v in
  let v := if 2 <=? r then Z.lxor v (Z.shiftl (byte_at pos2 1) 8) else v in
  let v := if 1 <=? r then Z.lxor v (byte_at pos2 0) else v in
  v.

Definition fasthash64 (buf : list Z) (len : Z) (seed : Z) : Z :=
  let h := Z.lxor seed (u64 (len * fasthash_m)) in
  let '(h, pos2) := fasthash64_words (Z.to_nat (len / 8)) buf h in
  let r := Z.land len 7 in
  let h :=
    if 1 <=? r
    then u64 (Z.lxor h (mix (fasthash64_tail r pos2)) * fasthash_m)
    else h in
  mix h.

Definition hash_instr (i : instr_t) : Z :=
  fasthash64 (opcodes i) (size i) (address i).

(** ** CFG nodes and the heap *)

Abbreviation ptr := nat (only parsing).

Record cfg_t : Type := mk_cfg {
  instruction : instr_t;
  nb_in : Z;                       (* uint16_t *)
  nb_out : Z;                      (* uint16_t *)
  name : Z;                        (* uint16_t *)
  str_graph : String.string;
  successor : list (option ptr)
}.

Definition set_nb_in (v : Z) (c : cfg_t) : cfg_t :=
  mk_cfg (instruction c) v (nb_out c) (name c) (str_graph c) (successor c).
Definition set_nb_out (v : Z) (c : cfg_t) : cfg_t :=
  mk_cfg (instruction c) (nb_in c) v (name c) (str_graph c) (successor c).
Definition set_name (v : Z) (c : cfg_t) : cfg_t :=
  mk_cfg (instruction c) (nb_in c) (nb_out c) v (str_graph c) (successor c).
Definition set_successor (v : list (option ptr)) (c : cfg_t) : cfg_t :=
  mk_cfg (instruction c) (nb_in c) (nb_out c) (name c) (str_graph c) v.

Abbreviation heap_t := (list cfg_t) (only parsing).

(** [*p] *)
Definition deref (h : heap_t) (p : ptr) : result cfg_t :=
  match h !! p with
  | Some c => Ok c
  | None => Fault
  end.

(** [*p = f ( *p )] *)
Definition update (h : heap_t) (p : ptr) (f : cfg_t -> cfg_t) : result heap_t :=
  do c <- deref h p ; Ok (<[p := f c]> h).

(** ** The instruction index *)

Record hashtable_t : Type := mk_hashtable {
  ht_size : Z;
  collisions : Z;
  entries : Z;
  buckets : gmap Z (list ptr)      (* absent key: NULL bucket *)
}.

Definition DEFAULT_HASHTABLE_SIZE : Z := 65536.

Definition hashtable_new (size : Z) : option hashtable_t :=
  if size =? 0 then None
  else Some {| ht_size := size; collisions := 0; entries := 0; buckets := ∅ |}.

(** The scan of hashtable_insert: is there an entry with address [a]? *)
Fixpoint bucket_mem (h : heap_t) (b : list ptr) (a : Z) : result bool :=
  match b with
  | [] => Ok false
  | p :: b' =>
      do c <- deref h p ;
      if address (instruction c) =? a then Ok true else bucket_mem h b' a
  end.

(** The scan of hashtable_lookup: the first entry with address [a]. *)
Fixpoint bucket_find (h : heap_t) (b : list ptr) (a : Z) : result (option ptr) :=
  match b with
  | [] => Ok None
  | p :: b' =>
      do c <- deref h p ;
      if address (instruction c) =? a then Ok (Some p) else bucket_find h b' a
  end.

Definition bucket_index (ht : hashtable_t) (i : instr_t) : Z :=
  hash_instr i mod ht_size ht.

Definition hashtable_insert (h : heap_t) (ht : hashtable_t) (CFG : ptr)
  : result (bool * hashtable_t) :=
  do c <- deref h CFG ;
  let index := bucket_index ht (instruction c) in
  match buckets ht !! index with
  | None =>
      Ok (true, {| ht_size := ht_size ht;
                   collisions := collisions ht;
                   entries := u64 (entries ht + 1);
                   buckets := <[index := [CFG]]> (buckets ht) |})
  | Some b =>
      do found <- bucket_mem h b (address (instruction c)) ;
      if found then Ok (true, ht)
      else Ok (true, {| ht_size := ht_size ht;
                        collisions := u64 (collisions ht + 1);
                        entries := u64 (entries ht + 1);
                        buckets := <[index := b ++ [CFG]]> (buckets ht) |})
  end.

Definition hashtable_lookup (h : heap_t) (ht : hashtable_t) (instr : instr_t)
  : result (option ptr) :=
  let index := bucket_index ht instr in
  match buckets ht !! index with
  | None => Ok None
  | Some b => bucket_find h b (address instr)
  end.

Definition hashtable_entries (ht : hashtable_t) : Z := entries ht.
Definition hashtable_collisions (ht : hashtable_t) : Z := collisions ht.

(** ** Lists, the shadow stack and the function roster

    A [list_t *] is the list of the [data] fields from that cell on; NULL is
    the empty list. *)

Definition list_new (d : ptr) : list ptr := [d].

Definition list_insert_before (l : list ptr) (d : ptr) : list ptr :=
  match l with
  | [] => []
  | _ => d :: l
  end.

Definition stack_new (d : ptr) : list ptr := list_new d.

Definition stack_push (s : list ptr) (d : ptr) : list ptr :=
  match s with
  | [] => list_new d
  | _ => list_insert_before s d
  end.

Definition stack_pop (s : list ptr) : list ptr :=
  match s with
  | [] => []
  | _ :: tmp => tmp
  end.

Definition stack_get_top (s : list ptr) : option ptr :=
  match s with
  | [] => None
  | d :: _ => Some d
  end.

(** [tail_entries] points to the last cell of the roster; the roster is kept
    here as the whole list, and [list_insert_after] on its last cell appends.
    On a NULL cell it returns NULL. *)
Definition list_insert_after (roster : list ptr) (d : ptr) : list ptr :=
  match roster with
  | [] => []
  | _ => roster ++ [d]
  end.

Definition list_get_ith (l : list ptr) (i : nat) : option ptr := l !! i.
Definition list_get_size (l : list ptr) : nat := length l.

(** ** The CFG builder *)

Record state : Type := mk_state {
  heap : heap_t;
  ht : hashtable_t;
  stack : list ptr;                (* the shadow call stack, top first *)
  tail_entries : list ptr          (* the function roster *)
}.

Definition with_heap (h : heap_t) (s : state) : state :=
  mk_state h (ht s) (stack s) (tail_entries s).
Definition with_stack (k : list ptr) (s : state) : state :=
  mk_state (heap s) (ht s) k (tail_entries s).
Definition with_tail_entries (r : list ptr) (s : state) : state :=
  mk_state (heap s) (ht s) (stack s) r.

(** cfg_new: a zeroed node ([calloc], so [name] is 0 whether or not the
    roster is empty) with one successor element for BASIC and two otherwise,
    registered in the index; the result of hashtable_insert is ignored.  The
    source asks [calloc] for elements of [sizeof (cfg_t)], which is not
    smaller than a pointer: the real array is at least as long as here. *)
Definition cfg_new (s : state) (ins : instr_t) (str : String.string)
  : result (ptr * state) :=
  let CFG := length (heap s) in
  let node :=
    {| instruction := ins; nb_in := 0; nb_out := 0; name := 0;
       str_graph := str;
       successor := if decide (type ins = BASIC)
                    then replicate 1 None else replicate 2 None |} in
  let h := heap s ++ [node] in
  do r <- hashtable_insert h (ht s) CFG ;
  Ok (CFG, mk_state h (snd r) (stack s) (tail_entries s)).

(** is_power_2 on the binary representation: [n % 2 == 0] holds when [n] is
    [q~0], then [n == 2] is [q = 1] and [n / 2] is [q]. *)
Fixpoint is_power_2_loop (n : positive) : bool :=
  match n with
  | xO q =>
      match q with
      | xH => true
      | _ => is_power_2_loop q
      end
  | _ => false
  end.

Definition is_power_2 (n : Z) : bool :=
  match n with
  | Zpos p => is_power_2_loop p
  | _ => false
  end.

(** [realloc (a, n * sizeof (cfg_t * ))]: the first [n] slots are kept, the
    others are fresh (never read before they are written). *)
Definition realloc (a : list (option ptr)) (n : nat) : list (option ptr) :=
  resize n None a.

(** [!CFG->successor[i]] *)
Definition slot_free (h : heap_t) (CFG : ptr) (i : nat) : result bool :=
  do c <- deref h CFG ;
  match successor c !! i with
  | Some None => Ok true
  | Some (Some _) => Ok false
  | None => Fault
  end.

(** [CFG->successor[i] = new] *)
Definition store_successor (h : heap_t) (CFG : ptr) (i : nat) (new : ptr)
  : result heap_t :=
  do c <- deref h CFG ;
  if decide (i < length (successor c))%nat
  then Ok (<[CFG := set_successor (<[i := Some new]> (successor c)) c]> h)
  else Fault.

(** The four statements that install an edge at slot [i]:
    [CFG->successor[i] = new; CFG->nb_out++; new->nb_in++;
     new->name = CFG->name]. *)
Definition link (h : heap_t) (CFG : ptr) (i : nat) (new : ptr) : result heap_t :=
  do h <- store_successor h CFG i new ;
  do h <- update h CFG (fun c => set_nb_out (u16 (nb_out c + 1)) c) ;
  do h <- update h new (fun c => set_nb_in (u16 (nb_in c + 1)) c) ;
  do c <- deref h CFG ;
  update h new (set_name (name c)).

(** [if (is_power_2 (CFG->nb_out)) CFG->successor = realloc (...)] *)
Definition grow (h : heap_t) (CFG : ptr) : result heap_t :=
  do c <- deref h CFG ;
  if is_power_2 (nb_out c)
  then update h CFG
         (fun c => set_successor
                     (realloc (successor c) (Z.to_nat (2 * nb_out c))) c)
  else Ok h.

(** The append path shared by JUMP and RET: grow, then install the edge at
    slot [nb_out]. *)
Definition append (h : heap_t) (CFG : ptr) (new : ptr) : result heap_t :=
  do h <- grow h CFG ;
  do c <- deref h CFG ;
  link h CFG (Z.to_nat (nb_out c)) new.

(** The loop [for (i = 0; i < CFG->nb_out; i++)
               if (CFG->successor[i]->instruction->address == a) ...]
    over the first [n] slots. *)
Fixpoint successor_scan (h : heap_t) (a : list (option ptr)) (n : nat) (addr : Z)
  {struct n} : result bool :=
  match n with
  | O => Ok false
  | S n' =>
      match a with
      | Some q :: a' =>
          do c <- deref h q ;
          if address (instruction c) =? addr then Ok true
          else successor_scan h a' n' addr
      | _ => Fault
      end
  end.

Definition is_successor (h : heap_t) (CFG : ptr) (addr : Z) : result bool :=
  do c <- deref h CFG ;
  successor_scan h (successor c) (Z.to_nat (nb_out c)) addr.

(** The address a call site returns to: [address + size] on [uintptr_t]. *)
Definition return_address (i : instr_t) : Z := u64 (address i + size i).

Definition aux_cfg_insert (s : state) (CFG : ptr) (new : option ptr)
  : result (option ptr * state) :=
  match new with
  | None => Ok (None, s)
  | Some new =>
      do c <- deref (heap s) CFG ;
      do free0 <- (if decide (type (instruction c) = RET) then Ok false
                   else slot_free (heap s) CFG 0) ;
      if (free0 : bool) then
        do h <- link (heap s) CFG 0 new ;
        Ok (Some new, with_heap h s)
      else
        match type (instruction c) with
        | BASIC =>
            if 1 <=? nb_out c then Ok (None, s) else Ok (Some new, s)
        | BRANCH =>
            if 2 <=? nb_out c then Ok (None, s)
            else
              do h <- link (heap s) CFG 1 new ;
              Ok (Some new, with_heap h s)
        | JUMP =>
            do h <- append (heap s) CFG new ;
            Ok (Some new, with_heap h s)
        | CALL => Ok (Some new, s)
        | RET =>
            match stack s, stack_get_top (stack s) with
            | _ :: _, Some top =>
                do t <- deref (heap s) top ;
                do n <- deref (heap s) new ;
                if address (instruction n) =? return_address (instruction t)
                then
                  let s := with_stack (stack_pop (stack s)) s in
                  do flag <- is_successor (heap s) top (address (instruction n)) ;
                  if (flag : bool) then Ok (Some new, s)
                  else
                    do h <- append (heap s) top new ;
                    Ok (Some new, with_heap h s)
                else
                  do h <- append (heap s) CFG new ;
                  Ok (Some new, with_heap h s)
            | _, _ =>
                do h <- append (heap s) CFG new ;
                Ok (Some new, with_heap h s)
            end
        end
  end.

Definition cfg_insert (s : state) (CFG : option ptr) (ins : instr_t)
    (str : String.string) : result (option ptr * state) :=
  match CFG with
  | None => Ok (None, s)
  | Some P =>
      do found <- hashtable_lookup (heap s) (ht s) ins ;
      match found with
      | None =>
          (* first time seeing this instruction *)
          do r <- cfg_new s ins str ;
          let new := fst r in
          let s := snd r in
          do p <- deref (heap s) P ;
          let s :=
            if decide (type (instruction p) = CALL)
            then with_stack (stack_push (stack s) P)
                   (with_tail_entries
                      (list_insert_after (tail_entries s) new) s)
            else s in
          aux_cfg_insert s P (Some new)
      | Some new =>
          do p <- deref (heap s) P ;
          let s :=
            if decide (type (instruction p) = CALL)
            then with_stack (stack_push (stack s) P) s
            else s in
          do n <- deref (heap s) new ;
          do dup <- is_successor (heap s) P (address (instruction n)) ;
          if (dup : bool) then Ok (Some new, s)
          else aux_cfg_insert s P (Some new)
      end
  end.

Definition cfg_get_instr (c : cfg_t) : instr_t := instruction c.
Definition cfg_get_nb_out (c : cfg_t) : Z := nb_out c.
Definition cfg_get_nb_in (c : cfg_t) : Z := nb_in c.
Definition cfg_get_type (c : cfg_t) : instr_type_t := type (instruction c).
Definition cfg_get_name (c : cfg_t) : Z := name c.

(** ** The tracing loop (tracker.c)

    One observation is what the driver hands over for one executed
    instruction.  The loop keeps the last node in [cfg]; the first
    observation creates the entry node and the roster, every later one goes
    through cfg_insert.  A NULL result ends the run ([None]). *)

Record observation : Type := mk_observation {
  ip : Z;
  insn_size : Z;
  buf : list Z;
  name_node : String.string
}.

Record tracker : Type := mk_tracker {
  st : state;
  cfg : option ptr
}.

Definition tracker_init (ht0 : hashtable_t) : tracker :=
  {| st := mk_state [] ht0 [] []; cfg := None |}.

Definition observe (t : tracker) (o : observation) : result (option tracker) :=
  match instr_new (ip o) (insn_size o) (buf o) with
  | None => Ok None
  | Some instr =>
      match cfg t with
      | None =>
          do r <- cfg_new (st t) instr (name_node o) ;
          Ok (Some {| st := with_tail_entries (list_new (fst r)) (snd r);
                      cfg := Some (fst r) |})
      | Some P =>
          do r <- cfg_insert (st t) (Some P) instr (name_node o) ;
          match fst r with
          | None => Ok None
          | Some n => Ok (Some {| st := snd r; cfg := Some n |})
          end
      end
  end.

(** A run: every observation in turn, stopping at the first failure. *)
Fixpoint observe_all (t : tracker) (os : list observation)
  : result (option tracker) :=
  match os with
  | [] => Ok (Some t)
  | o :: os' =>
      do r <- observe t o ;
      match r with
      | None => Ok None
      | Some t' => observe_all t' os'
      end
  end.

Definition tracker_start : tracker :=
  tracker_init (mk_hashtable DEFAULT_HASHTABLE_SIZE 0 0 ∅).

(** ** More of trace.c *)

(** cfg_get_successor_i: [CFG->successor[i]], without a bounds check. *)
Definition cfg_get_successor_i (h : heap_t) (CFG : ptr) (i : Z)
  : result (option ptr) :=
  do c <- deref h CFG ;
  match successor c !! Z.to_nat i with
  | Some v => Ok v
  | None => Fault
  end.

(** cfg_get_type on a pointer: [CFG->instruction->type]; NULL faults. *)
Definition cfg_get_type_of (h : heap_t) (CFG : option ptr)
  : result instr_type_t :=
  match CFG with
  | None => Fault
  | Some p => do c <- deref h p ; Ok (cfg_get_type c)
  end.

(** ** The linked lists of trace.c, cell by cell

    A [list_t] is a cell [{data; next}] in a store of cells.  [malloc]
    returns a fresh address and is assumed to succeed; a freed cell stays
    in the store as [None], so that a read, a write or a second free
    through a dangling pointer is a fault.  A [void *] payload is NULL or an
    address.  Loops and non-tail recursion take fuel: [None] is "still
    running". *)

Definition u32 (x : Z) : Z := x mod 2 ^ 32.

Module Cells.

Record list_t : Type := mk_cell {
  data : option ptr;
  next : option ptr
}.

Abbreviation mem := (list (option list_t)) (only parsing).

Definition load (m : mem) (p : ptr) : result list_t :=
  match m !! p with
  | Some (Some c) => Ok c
  | _ => Fault
  end.

Definition store (m : mem) (p : ptr) (c : list_t) : result mem :=
  do _ <- load m p ; Ok (<[p := Some c]> m).

Definition malloc (m : mem) (c : list_t) : mem * ptr :=
  (m ++ [Some c], length m).

Definition free (m : mem) (p : ptr) : result mem :=
  do _ <- load m p ; Ok (<[p := None]> m).

Definition list_new (m : mem) (d : option ptr) : mem * option ptr :=
  let '(m, l) := malloc m (mk_cell d None) in
  (m, Some l).

Definition list_insert_before (m : mem) (l : option ptr) (d : option ptr)
  : mem * option ptr :=
  match l with
  | None => (m, None)
  | Some _ =>
      let '(m, new) := malloc m (mk_cell d l) in
      (m, Some new)
  end.

Definition list_insert_after (m : mem) (l : option ptr) (d : option ptr)
  : result (mem * option ptr) :=
  match l with
  | None => Ok (m, None)
  | Some a =>
      do c <- load m a ;
      let '(m, new) := malloc m (mk_cell d (next c)) in
      do m <- store m a (mk_cell (data c) (Some new)) ;
      Ok (m, Some new)
  end.

(** The loop of list_delete, entered with [tmp == l]. *)
Fixpoint list_delete_loop (fuel : nat) (m : mem) (l : ptr)
  : option (result mem) :=
  match fuel with
  | O => None
  | S fuel =>
      match load m l with
      | Fault => Some Fault
      | Ok c =>
          match next c with
          | None => Some (free m l)
          | Some tmp =>
              match free m l with
              | Fault => Some Fault
              | Ok m => list_delete_loop fuel m tmp
              end
          end
      end
  end.

Definition list_delete (fuel : nat) (m : mem) (l : option ptr)
  : option (result mem) :=
  match l with
  | None => Some (Ok m)
  | Some a => list_delete_loop fuel m a
  end.

Fixpoint list_get_ith (m : mem) (l : option ptr) (i : nat)
  : result (option ptr) :=
  match l with
  | None => Ok None
  | Some a =>
      do c <- load m a ;
      match i with
      | O => Ok (data c)
      | S i => list_get_ith m (next c) i
      end
  end.

Fixpoint list_get_size (fuel : nat) (m : mem) (l : option ptr)
  : option (result Z) :=
  match fuel with
  | O => None
  | S fuel =>
      match l with
      | None => Some (Ok 0)
      | Some a =>
          match load m a with
          | Fault => Some Fault
          | Ok c =>
              match next c with
              | None => Some (Ok 1)
              | Some _ =>
                  match list_get_size fuel m (next c) with
                  | Some (Ok n) => Some (Ok (u32 (1 + n)))
                  | other => other
                  end
              end
          end
      end
  end.

Definition stack_new (m : mem) (d : option ptr) : mem * option ptr :=
  list_new m d.

Definition stack_push (m : mem) (s : option ptr) (d : option ptr)
  : mem * option ptr :=
  match s with
  | None => list_new m d
  | Some _ => list_insert_before m s d
  end.

Definition stack_pop (m : mem) (s : option ptr) : result (mem * option ptr) :=
  match s with
  | None => Ok (m, None)
  | Some a =>
      do c <- load m a ;
      let tmp := next c in
      do m <- free m a ;
      Ok (m, tmp)
  end.

Definition stack_get_top (m : mem) (s : option ptr) : result (option ptr) :=
  match s with
  | None => Ok None
  | Some a => do c <- load m a ; Ok (data c)
  end.

Definition stack_delete (fuel : nat) (m : mem) (s : option ptr)
  : option (result mem) :=
  list_delete fuel m s.

Definition trace_new (m : mem) (ins : option ptr) : mem * option ptr :=
  list_new m ins.

Definition trace_insert (m : mem) (t : option ptr) (ins : option ptr)
  : result (mem * option ptr) :=
  list_insert_after m t ins.

(** [((instr_t * ) l->data)->address]: the payload of a trace cell points
    into the store [instrs] of instruction records. *)
Definition data_address (instrs : list instr_t) (m : mem) (l : option ptr)
  : result Z :=
  match l with
  | None => Fault
  | Some a =>
      do c <- load m a ;
      match data c with
      | None => Fault
      | Some i =>
          match instrs !! i with
          | Some ins => Ok (address ins)
          | None => Fault
          end
      end
  end.

Definition next_of (m : mem) (l : option ptr) : result (option ptr) :=
  match l with
  | None => Fault
  | Some a => do c <- load m a ; Ok (next c)
  end.

Fixpoint trace_compare (fuel : nat) (instrs : list instr_t) (m : mem)
    (tmp1 tmp2 : option ptr) : option (result (option ptr)) :=
  match fuel with
  | O => None
  | S fuel =>
      match data_address instrs m tmp1, data_address instrs m tmp2 with
      | Ok a1, Ok a2 =>
          if a1 =? a2 then
            match next_of m tmp1, next_of m tmp2 with
            | Ok tmp1, Ok tmp2 =>
                match tmp1, tmp2 with
                | None, _ => Some (Ok tmp2)
                | Some _, None => Some (Ok None)
                | Some _, Some _ => trace_compare fuel instrs m tmp1 tmp2
                end
            | _, _ => Some Fault
            end
          else Some (Ok tmp2)
      | _, _ => Some Fault
      end
  end.

End Cells.

(** hashtable_delete: the nodes handed to cfg_delete, in the order of the
    two loops: bucket by bucket, entry by entry, up to the NULL that ends a
    bucket. *)
Definition hashtable_delete (ht : hashtable_t) : list ptr :=
  k ← seqZ 0 (ht_size ht); default [] (buckets ht !! k).

(** ** Reachable trackers and their invariants *)

(** The trackers the tracing loop can be in. *)
Definition reachable (t : tracker) : Prop :=
  exists os : list observation, observe_all tracker_start os = Ok (Some t).

(** The successors of a node: the first [nb_out] slots of its array. *)
Definition out_edges (c : cfg_t) : list (option ptr) :=
  take (Z.to_nat (nb_out c)) (successor c).

Definition is_pow2 (n : nat) : Prop := exists k : nat, n = (2 ^ k)%nat.

(** The first [nb_out] slots hold valid pointers ([n] is the heap size). *)
Definition slots_ok (n : nat) (c : cfg_t) : Prop :=
  forall i, (i < Z.to_nat (nb_out c))%nat ->
    exists q, successor c !! i = Some (Some q) /\ (q < n)%nat.

(** What the array of a node looks like, by type. *)
Definition shape_ok (c : cfg_t) : Prop :=
  match type (instruction c) with
  | BASIC =>
      length (successor c) = 1%nat
      /\ ((nb_out c = 0 /\ successor c !! 0%nat = Some None) \/ nb_out c = 1)
  | BRANCH =>
      length (successor c) = 2%nat
      /\ ((nb_out c = 0 /\ successor c !! 0%nat = Some None)
          \/ nb_out c = 1 \/ nb_out c = 2)
  | _ => exists k : nat, length (successor c) = (2 ^ S k)%nat
  end.

Record node_ok (n : nat) (c : cfg_t) : Prop := mk_node_ok {
  ok_nb_out : 0 <= nb_out c < 2 ^ 16;
  ok_capacity : (Z.to_nat (nb_out c) <= length (successor c))%nat;
  ok_slots : slots_ok n c;
  ok_shape : shape_ok c
}.

(** The address of the instruction behind a pointer (0 when dangling). *)
Definition addr_of (h : heap_t) (p : ptr) : Z :=
  match h !! p with
  | Some c => address (instruction c)
  | None => 0
  end.

(** A bucket: entries are live nodes that hash to it, no address twice. *)
Record bucket_ok (h : heap_t) (t : hashtable_t) (index : Z) (b : list ptr)
  : Prop := mk_bucket_ok {
  ok_entries : forall p, p ∈ b ->
      exists c, h !! p = Some c /\ bucket_index t (instruction c) = index;
  ok_distinct : NoDup (addr_of h <$> b)
}.

Record state_ok (s : state) : Prop := mk_state_ok {
  ok_nodes : forall p c, heap s !! p = Some c -> node_ok (length (heap s)) c;
  ok_stack : forall p, p ∈ stack s ->
      exists c, heap s !! p = Some c /\ type (instruction c) = CALL;
  ok_buckets : forall index b, buckets (ht s) !! index = Some b ->
      bucket_ok (heap s) (ht s) index b
}.

Record tracker_ok (t : tracker) : Prop := mk_tracker_ok {
  ok_state : state_ok (st t);
  ok_cfg : forall P, cfg t = Some P -> (P < length (heap (st t)))%nat;
  ok_start : cfg t = None -> t = tracker_start
}.

(** *** In-degrees *)

(** [m] has an edge to [n]. *)
Definition points_to (n : ptr) (m : cfg_t) : Prop := Some n ∈ out_edges m.

#[global] Instance points_to_dec n m : Decision (points_to n m).
Proof. unfold points_to. apply _. Defined.

(** The number of distinct nodes with an edge to [n]. *)
Definition in_count (h : heap_t) (n : ptr) : nat :=
  length (filter (points_to n) h).

(** The addresses of the successors of a node. *)
Definition slot_addr (h : heap_t) (o : option ptr) : Z :=
  match o with
  | Some q => addr_of h q
  | None => 0
  end.

Definition successor_addresses (h : heap_t) (c : cfg_t) : list Z :=
  slot_addr h <$> out_edges c.

(** Nodes reachable from a function root along edges. *)
Inductive graph_reach (h : heap_t) (roots : list ptr) : ptr -> Prop :=
| reach_root r : r ∈ roots -> graph_reach h roots r
| reach_edge m c n :
    graph_reach h roots m -> h !! m = Some c -> points_to n c ->
    graph_reach h roots n.

(** The in-degree property of the specification (section 8, invariant 1). *)
Definition in_degree_property (s : state) : Prop :=
  (forall n c, graph_reach (heap s) (tail_entries s) n ->
     heap s !! n = Some c -> nb_in c = Z.of_nat (in_count (heap s) n))
  /\ (forall m c, heap s !! m = Some c ->
        NoDup (successor_addresses (heap s) c)).

(** The instruction record the driver builds from an observation. *)
Definition instr_of (o : observation) : option instr_t :=
  instr_new (ip o) (insn_size o) (buf o).

(** A trace of a program that does not modify itself: an address always
    carries the same bytes. *)
Definition consistent (os : list observation) : Prop :=
  forall o1 o2 i1 i2, o1 ∈ os -> o2 ∈ os ->
    instr_of o1 = Some i1 -> instr_of o2 = Some i2 ->
    address i1 = address i2 ->
    size i1 = size i2 /\ opcodes i1 = opcodes i2.

(** *** The effect of installing an edge

    The statements of [link], [grow] and [append] seen as functions on the
    nodes they touch. *)

Definition bump_nb_out (c : cfg_t) : cfg_t := set_nb_out (u16 (nb_out c + 1)) c.
Definition bump_nb_in (c : cfg_t) : cfg_t := set_nb_in (u16 (nb_in c + 1)) c.
Definition put_successor (i : nat) (new : ptr) (c : cfg_t) : cfg_t :=
  set_successor (<[i := Some new]> (successor c)) c.

(** The source of the edge after [link]. *)
Definition edge_src (i : nat) (new : ptr) (c : cfg_t) : cfg_t :=
  bump_nb_out (put_successor i new c).

(** The target of the edge after [link]. *)
Definition edge_dst (nm : Z) (c : cfg_t) : cfg_t :=
  set_name nm (bump_nb_in c).

Definition grow_node (c : cfg_t) : cfg_t :=
  if is_power_2 (nb_out c)
  then set_successor (realloc (successor c) (Z.to_nat (2 * nb_out c))) c
  else c.

(** The source of the edge after [append]. *)
Definition add_edge_node (new : ptr) (c : cfg_t) : cfg_t :=
  edge_src (Z.to_nat (nb_out c)) new (grow_node c).

(** The heap after an edge from [src] to [new] was appended. *)
Definition add_edge (h : heap_t) (src new : ptr) : heap_t :=
  match h !! src with
  | Some c => alter (edge_dst (name c)) new (alter (add_edge_node new) src h)
  | None => h
  end.

(** A node that may take one more successor. *)
Definition can_append (c : cfg_t) : Prop :=
  match type (instruction c) with
  | BASIC => nb_out c = 0
  | BRANCH => nb_out c = 0 \/ nb_out c = 1
  | _ => True
  end.

(** *** How the heap evolves *)

(** Nodes are never removed and keep their instruction. *)
Definition heap_ext (h h' : list cfg_t) : Prop :=
  (length h <= length h')%nat
  /\ forall p c, h !! p = Some c ->
       exists c', h' !! p = Some c' /\ instruction c' = instruction c.

Definition buckets_ok (h : list cfg_t) (t : hashtable_t) : Prop :=
  forall index b, buckets t !! index = Some b -> bucket_ok h t index b.

(** The node cfg_new allocates. *)
Definition new_node (ins : instr_t) (str : String.string) : cfg_t :=
  {| instruction := ins; nb_in := 0; nb_out := 0; name := 0;
     str_graph := str;
     successor := if decide (type ins = BASIC)
                  then replicate 1 None else replicate 2 None |}.

(** *** The outcomes of aux_cfg_insert *)

(** The call site on top of the shadow stack when [new] is the instruction
    it returns to. *)
Definition matching_call (s : state) (new : ptr) : option ptr :=
  match stack s with
  | top :: _ =>
      match heap s !! top, heap s !! new with
      | Some t, Some n =>
          if address (instruction n) =? return_address (instruction t)
          then Some top else None
      | _, _ => None
      end
  | [] => None
  end.

(** [new] is already among the successors of [c] (by address). *)
Definition among_successors (h : list cfg_t) (new : ptr) (c : cfg_t) : Prop :=
  addr_of h new ∈ successor_addresses h c.

#[global] Instance among_successors_dec h new c :
  Decision (among_successors h new c).
Proof. unfold among_successors. apply _. Defined.

Inductive aux_outcome (s : state) (P new : ptr) : option ptr -> state -> Prop :=
| aux_full c :
    heap s !! P = Some c ->
    (type (instruction c) = BASIC /\ 1 <= nb_out c)
    \/ (type (instruction c) = BRANCH /\ 2 <= nb_out c) ->
    aux_outcome s P new None s
| aux_first c :
    heap s !! P = Some c ->
    type (instruction c) <> RET -> nb_out c = 0 ->
    successor c !! 0%nat = Some None ->
    aux_outcome s P new (Some new) (with_heap (add_edge (heap s) P new) s)
| aux_second c :
    heap s !! P = Some c ->
    type (instruction c) = BRANCH -> nb_out c = 1 ->
    aux_outcome s P new (Some new) (with_heap (add_edge (heap s) P new) s)
| aux_jump c :
    heap s !! P = Some c ->
    type (instruction c) = JUMP ->
    successor c !! 0%nat <> Some None ->
    aux_outcome s P new (Some new) (with_heap (add_edge (heap s) P new) s)
| aux_call c :
    heap s !! P = Some c ->
    type (instruction c) = CALL ->
    successor c !! 0%nat <> Some None ->
    aux_outcome s P new (Some new) s
| aux_ret_unmatched c :
    heap s !! P = Some c ->
    type (instruction c) = RET ->
    matching_call s new = None ->
    aux_outcome s P new (Some new) (with_heap (add_edge (heap s) P new) s)
| aux_ret_known c top t :
    heap s !! P = Some c ->
    type (instruction c) = RET ->
    matching_call s new = Some top ->
    heap s !! top = Some t ->
    among_successors (heap s) new t ->
    aux_outcome s P new (Some new) (with_stack (stack_pop (stack s)) s)
| aux_ret_matched c top t :
    heap s !! P = Some c ->
    type (instruction c) = RET ->
    matching_call s new = Some top ->
    heap s !! top = Some t ->
    ~ among_successors (heap s) new t ->
    aux_outcome s P new (Some new)
      (with_heap (add_edge (heap s) top new)
         (with_stack (stack_pop (stack s)) s)).

(** *** The elementary steps of an observation

    Observing the instruction [ins] changes the state by a sequence of
    these steps. *)
Inductive state_step (ins : instr_t) (s : state) : state -> Prop :=
| step_alloc str r :
    hashtable_lookup (heap s) (ht s) ins = Ok None ->
    cfg_new s ins str = Ok r ->
    state_step ins s (snd r)
| step_edge src new c :
    heap s !! src = Some c -> (new < length (heap s))%nat ->
    can_append c -> ~ points_to new c ->
    state_step ins s (with_heap (add_edge (heap s) src new) s)
| step_push P c :
    heap s !! P = Some c -> type (instruction c) = CALL ->
    state_step ins s (with_stack (stack_push (stack s) P) s)
| step_pop :
    state_step ins s (with_stack (stack_pop (stack s)) s)
| step_roster r :
    state_step ins s (with_tail_entries r s).

(** *** Vocabulary of the statements *)

(** An edge from [src] to [new] was installed between [h] and [h']: it sits
    in the slot [nb_out] of [src], whose out-degree went up by one, and no
    other node got or lost a successor. *)
Definition edge_installed (h h' : list cfg_t) (src new : ptr) : Prop :=
  exists c c',
    h !! src = Some c /\ h' !! src = Some c'
    /\ successor c' !! Z.to_nat (nb_out c) = Some (Some new)
    /\ nb_out c' = u16 (nb_out c + 1)
    /\ forall p cp, p <> src -> h !! p = Some cp ->
         exists cp', h' !! p = Some cp'
                     /\ successor cp' = successor cp /\ nb_out cp' = nb_out cp.

(** A BASIC node with a successor, or a BRANCH node with two. *)
Definition full (c : cfg_t) : Prop :=
  (type (instruction c) = BASIC /\ 1 <= nb_out c)
  \/ (type (instruction c) = BRANCH /\ 2 <= nb_out c).

(** The growth rule as the specification words it: the guard of the
    reallocation holds exactly at the powers of two. *)
Definition grows_at_every_power_of_two : Prop :=
  forall n, 0 <= n < 2 ^ 16 ->
    (is_power_2 n = true <-> exists k : nat, n = 2 ^ Z.of_nat k).

(** *** Example traces *)

Definition obs (a : Z) (sz : Z) (bytes : list Z) : observation :=
  mk_observation a sz bytes String.EmptyString.

Definition run (os : list observation) : tracker :=
  match observe_all tracker_start os with
  | Ok (Some t) => t
  | _ => tracker_start
  end.

(** Scenario S1 of the specification: nop, nop, ret. *)
Definition trace_S1 : list observation :=
  [ obs 0x1000 1 [0x90]; obs 0x1001 1 [0x90]; obs 0x1002 1 [0xC3] ].

(** Scenario S2: a call, its callee (nop, ret), and the return site. *)
Definition trace_S2 : list observation :=
  [ obs 0x1000 5 [0xE8; 0; 0; 0; 0]; obs 0x2000 1 [0x90];
    obs 0x2001 1 [0xC3]; obs 0x1005 1 [0x90] ].

(** The call and its callee, stopped at the ret. *)
Definition trace_call_ret : list observation :=
  [ obs 0x1000 5 [0xE8; 0; 0; 0; 0]; obs 0x2000 1 [0x90];
    obs 0x2001 1 [0xC3] ].

(** A jump whose target is rewritten between two executions: the address
    0x2000 is observed with two different encodings. *)
Definition trace_rewritten : list observation :=
  [ obs 0x1000 2 [0xEB; 0x00]; obs 0x2000 2 [0xEB; 0x00];
    obs 0x1000 2 [0xEB; 0x00]; obs 0x2000 2 [0xEB; 0x01] ].

(** A nop that was already followed by 0x1001. *)
Definition trace_basic : list observation :=
  [ obs 0x1000 1 [0x90]; obs 0x1001 1 [0x90]; obs 0x1000 1 [0x90] ].

(** The call of S2 observed a second time, stopped at the ret: the stack
    holds the call site and the return site is already its successor. *)
Definition trace_S2_again : list observation :=
  trace_S2 ++ trace_call_ret.

(** A ret at 0x2000 that first returns to 0x1005 with nothing on the stack
    (the edge goes from the ret itself), and is then entered again through
    the call at 0x1000, whose return address is 0x1005. *)
Definition trace_second_return : list observation :=
  [ obs 0x0FF0 2 [0xFF; 0xE0]; obs 0x2000 1 [0xC3]; obs 0x1005 1 [0x90];
    obs 0x1006 2 [0xEB; 0xF8]; obs 0x1000 5 [0xE8; 0xFB; 0x0F; 0; 0];
    obs 0x2000 1 [0xC3] ].

(** The node behind a pointer of a tracker (a blank node when dangling). *)
Definition node_at (t : tracker) (p : ptr) : cfg_t :=
  default (new_node (mk_instr 0 BASIC 0 []) String.EmptyString)
          (heap (st t) !! p).

(** A jump observed with two different targets. *)
Definition trace_jump : list observation :=
  [ obs 0x1000 2 [0xEB; 0x00]; obs 0x2000 2 [0xEB; 0x00];
    obs 0x1000 2 [0xEB; 0x00] ].

(** *** Edge counts *)

(** In-degrees count the nodes that point to a node, and no node points
    twice to the same node. *)
Record edges_ok (h : list cfg_t) : Prop := mk_edges_ok {
  ok_in_degree : forall n c, h !! n = Some c ->
      nb_in c = Z.of_nat (in_count h n);
  ok_no_double : forall m c, h !! m = Some c -> NoDup (out_edges c)
}.

(** Every node is in the bucket of its instruction. *)
Definition indexed (s : state) : Prop :=
  forall p c, heap s !! p = Some c ->
    exists b, buckets (ht s) !! bucket_index (ht s) (instruction c) = Some b
              /\ p ∈ b.

(** No two nodes have the same address. *)
Definition unique_addresses (h : list cfg_t) : Prop :=
  forall p q cp cq, h !! p = Some cp -> h !! q = Some cq ->
    address (instruction cp) = address (instruction cq) -> p = q.

(** The instructions a trace brings. *)
Definition of_trace (os : list observation) (ins : instr_t) : Prop :=
  exists o, o ∈ os /\ instr_of o = Some ins.

(** What holds of the index and the graph along a trace of a program that
    does not modify itself. *)
Record addresses_ok (os : list observation) (s : state) : Prop :=
  mk_addresses_ok {
  ok_indexed : indexed s;
  ok_unique : unique_addresses (heap s);
  ok_of_trace : forall p c, heap s !! p = Some c ->
      of_trace os (instruction c);
  ok_successor_addresses : forall m c, heap s !! m = Some c ->
      NoDup (successor_addresses (heap s) c)
}.

(** *** Vocabulary of the further properties *)

(** The state cfg_insert hands to aux_cfg_insert for a known instruction:
    the predecessor [P] is pushed when it is a CALL. *)
Definition push_call (P : ptr) (p : cfg_t) (s : state) : state :=
  if decide (type (instruction p) = CALL)
  then with_stack (stack_push (stack s) P) s else s.

(** The same for a first-seen instruction [new]: it also joins the roster. *)
Definition enter_call (P : ptr) (p : cfg_t) (new : ptr) (s : state) : state :=
  if decide (type (instruction p) = CALL)
  then with_stack (stack_push (stack s) P)
         (with_tail_entries (list_insert_after (tail_entries s) new) s)
  else s.

(** What the tracing loop makes of the result of cfg_insert. *)
Definition next_tracker (r : option ptr) (s : state) : option tracker :=
  match r with
  | None => None
  | Some n => Some {| st := s; cfg := Some n |}
  end.

(** The call site on top of the shadow stack returns to the address [a]. *)
Definition returns_to (s : state) (a : Z) : bool :=
  match stack s with
  | top :: _ =>
      match heap s !! top with
      | Some t => a =? return_address (instruction t)
      | None => false
      end
  | [] => false
  end.

(** The observation [o] is found in the index. *)
Definition known (t : tracker) (o : observation) : Prop :=
  exists ins new,
    instr_of o = Some ins
    /\ hashtable_lookup (heap (st t)) (ht (st t)) ins = Ok (Some new).

(** The observation [o] is found in the index and is, by address, already a
    successor of [p]: cfg_insert returns before aux_cfg_insert. *)
Definition returns_early (t : tracker) (p : cfg_t) (o : observation) : Prop :=
  known t o /\ ip o ∈ successor_addresses (heap (st t)) p.

(** What one successful observation does to the tracker. *)
Inductive observed (t : tracker) (o : observation) : tracker -> Prop :=
| observed_first ins ht1 :
    t = tracker_start -> instr_of o = Some ins ->
    observed t o
      {| st := mk_state [new_node ins (name_node o)] ht1 [] [0%nat];
         cfg := Some 0%nat |}
| observed_early P p ins new :
    cfg t = Some P -> heap (st t) !! P = Some p ->
    instr_of o = Some ins ->
    hashtable_lookup (heap (st t)) (ht (st t)) ins = Ok (Some new) ->
    among_successors (heap (st t)) new p ->
    observed t o {| st := push_call P p (st t); cfg := Some new |}
| observed_known P p ins new s' :
    cfg t = Some P -> heap (st t) !! P = Some p ->
    instr_of o = Some ins ->
    hashtable_lookup (heap (st t)) (ht (st t)) ins = Ok (Some new) ->
    ~ among_successors (heap (st t)) new p ->
    aux_outcome (push_call P p (st t)) P new (Some new) s' ->
    observed t o {| st := s'; cfg := Some new |}
| observed_fresh P p ins ht1 s' :
    cfg t = Some P -> heap (st t) !! P = Some p ->
    instr_of o = Some ins ->
    hashtable_lookup (heap (st t)) (ht (st t)) ins = Ok None ->
    state_ok (mk_state (heap (st t) ++ [new_node ins (name_node o)]) ht1
                (stack (st t)) (tail_entries (st t))) ->
    aux_outcome
      (enter_call P p (length (heap (st t)))
         (mk_state (heap (st t) ++ [new_node ins (name_node o)]) ht1
            (stack (st t)) (tail_entries (st t))))
      P (length (heap (st t))) (Some (length (heap (st t)))) s' ->
    observed t o {| st := s'; cfg := Some (length (heap (st t))) |}.

(** An indirect call executed twice, with two different callees:
    call *%rax; ret; jmp back to the call; call *%rax again. *)
Definition trace_two_callees : list observation :=
  [ obs 0x1000 2 [0xFF; 0xD0]; obs 0x2000 1 [0xC3];
    obs 0x1002 2 [0xEB; 0xFC]; obs 0x1000 2 [0xFF; 0xD0] ].

(** *** Lists in the cell store *)

(** From [p], following [next], the store holds the cells [cs] (address and
    payload of each, in order) and then reaches [q]. *)
Fixpoint chain (m : Cells.mem) (p : option ptr)
    (cs : list (ptr * option ptr)) (q : option ptr) : Prop :=
  match cs with
  | [] => p = q
  | (a, d) :: cs' =>
      p = Some a
      /\ exists nx, m !! a = Some (Some (Cells.mk_cell d nx))
                    /\ chain m nx cs' q
  end.

(** The stack or roster [l] of node pointers, as the NULL-terminated list
    at [p]. *)
Definition represents (m : Cells.mem) (p : option ptr) (l : list ptr) : Prop :=
  exists cs, chain m p cs None /\ cs.*2 = Some <$> l.

(** The roster [l] with its first cell at [first] and its last at [tail]. *)
Definition roster_at (m : Cells.mem) (first tail : option ptr) (l : list ptr)
  : Prop :=
  exists cs a e,
    tail = Some a
    /\ chain m first cs tail
    /\ chain m tail [(a, Some e)] None
    /\ cs.*2 ++ [Some e] = Some <$> l.

(** The length of the longest common prefix. *)
Fixpoint common_prefix (l1 l2 : list Z) : nat :=
  match l1, l2 with
  | a1 :: l1, a2 :: l2 => if a1 =? a2 then S (common_prefix l1 l2) else O
  | _, _ => O
  end.

(** The payload of the trace cell [c] points to an instruction at [a]. *)
Definition points_at (instrs : list instr_t) (c : ptr * option ptr) (a : Z)
  : Prop :=
  exists i ins, c.2 = Some i /\ instrs !! i = Some ins /\ address ins = a.

(** *** Edges against the trace *)

(** The address [b] was observed right after the address [a]. *)
Definition consecutive (os : list observation) (a b : Z) : Prop :=
  exists i o1 o2,
    os !! i = Some o1 /\ os !! S i = Some o2 /\ ip o1 = a /\ ip o2 = b.

(** Why an edge from [c] to [cn] may exist: the step was observed, or [c]
    is a call site and [cn] the instruction it returns to. *)
Definition explained (os : list observation) (c cn : cfg_t) : Prop :=
  consecutive os (address (instruction c)) (address (instruction cn))
  \/ (type (instruction c) = CALL
      /\ address (instruction cn) = return_address (instruction c)).

(** *** Insertion after a return *)

(** The graph [h1] in which the successor policy runs for the observation
    [o], and the node [N] of [o] in it: the graph as it is when [o] is
    found in the index, and otherwise the graph with the node allocated for
    [o] at its end. *)
Definition entered (t : tracker) (o : observation) (N : ptr)
    (h1 : list cfg_t) : Prop :=
  (known t o /\ h1 = heap (st t))
  \/ (~ known t o /\ N = length (heap (st t))
      /\ exists ins, instr_of o = Some ins
           /\ h1 = heap (st t) ++ [new_node ins (name_node o)]).

(** * Properties *)

(** ** The classifier *)

Ltac bool_to_prop H :=
  repeat first
    [ rewrite orb_true_iff in H | rewrite orb_false_iff in H
    | rewrite andb_true_iff in H | rewrite andb_false_iff in H
    | rewrite negb_true_iff in H | rewrite negb_false_iff in H
    | rewrite Z.eqb_eq in H | rewrite Z.eqb_neq in H
    | rewrite Z.leb_le in H | rewrite Z.leb_gt in H
    | rewrite Z.ltb_lt in H | rewrite Z.ltb_ge in H ].

Section Classifier.

Import RuleTable.

Variable size : Z.
Variable opcodes : list Z.

Lemma instr_new_type_classified :
  classified size opcodes (instr_new_type size opcodes).
Proof.
  unfold classified, rules, instr_new_type. cbv zeta.
  match goal with |- context [if ?c then BRANCH else _] =>
    destruct c eqn:Hbranch end.
  { apply fm_here. clear - Hbranch. bool_to_prop Hbranch.
    unfold branch_rule, in_range. lia. }
  apply fm_later.
  { clear - Hbranch. bool_to_prop Hbranch. unfold branch_rule, in_range. lia. }
  match goal with |- context [if ?c then CALL else _] =>
    destruct c eqn:Hcall end.
  { apply fm_here. clear - Hcall. bool_to_prop Hcall.
    unfold call_rule, in_range. lia. }
  apply fm_later.
  { clear - Hcall. bool_to_prop Hcall. unfold call_rule, in_range. lia. }
  match goal with |- context [if ?c then JUMP else _] =>
    destruct c eqn:Hjump end.
  { apply fm_here. clear - Hjump. bool_to_prop Hjump.
    unfold jump_rule, in_range. lia. }
  apply fm_later.
  { clear - Hjump. bool_to_prop Hjump. unfold jump_rule, in_range. lia. }
  match goal with |- context [if ?c then RET else _] =>
    destruct c eqn:Hret end.
  { apply fm_here. clear - Hret. bool_to_prop Hret.
    unfold ret_rule, in_range. lia. }
  apply fm_later.
  { clear - Hret. bool_to_prop Hret. unfold ret_rule, in_range. lia. }
  apply fm_default.
Qed.

(** The first matching rule is unique: the table defines a function. *)
Lemma first_match_functional rs o t1 t2 :
  first_match rs size o t1 -> first_match rs size o t2 -> t1 = t2.
Proof.
  induction 1 as [ | t r rs' sz o Hr | t r rs' sz o t' Hn Hm IH ];
    inversion 1; subst; try reflexivity; try contradiction.
  now apply IH.
Qed.

Lemma classified_instr_new_type t :
  classified size opcodes t <-> instr_new_type size opcodes = t.
Proof.
  split.
  - intros Ht. symmetry.
    exact (first_match_functional _ _ _ _ Ht instr_new_type_classified).
  - intros <-. apply instr_new_type_classified.
Qed.

End Classifier.

(** C3. The classifier is the rule table of section 4.1 read in the order
    BRANCH, CALL, JUMP, RET with the first matching rule winning and BASIC as
    the default; and a first byte 0xFF with size 3 is a CALL, whatever the
    other bytes are. *)
Theorem classifier_follows_rule_table :
  (forall size opcodes t,
     RuleTable.classified size opcodes t <-> instr_new_type size opcodes = t)
  /\ (forall rest, instr_new_type 3 (0xFF :: rest) = CALL).
Proof.
  split.
  - apply classified_instr_new_type.
  - intros rest. reflexivity.
Qed.

(** C4. The tag is not a function of the first [size] bytes: the cascade
    reads [opcodes[1]] and [opcodes[2]] without looking at [size].  A one-byte
    instruction 0x41 is a CALL when the two bytes that follow it in the
    buffer are FF D0, and BASIC when they are 90 90. *)
Theorem classifier_reads_past_size :
  take 1 [0x41; 0xFF; 0xD0] = take 1 [0x41; 0x90; 0x90]
  /\ instr_new_type 1 [0x41; 0xFF; 0xD0] = CALL
  /\ instr_new_type 1 [0x41; 0x90; 0x90] = BASIC
  /\ opcodes <$> instr_new 0x1000 1 [0x41; 0xFF; 0xD0]
     = opcodes <$> instr_new 0x1000 1 [0x41; 0x90; 0x90]
  /\ type <$> instr_new 0x1000 1 [0x41; 0xFF; 0xD0]
     <> type <$> instr_new 0x1000 1 [0x41; 0x90; 0x90].
Proof. repeat split; try reflexivity. discriminate. Qed.

(** ** Heap operations *)

Section Heap.

Implicit Types (h : heap_t) (p q CFG new : ptr) (c : cfg_t).

Lemma deref_ok h p c : h !! p = Some c -> deref h p = Ok c.
Proof. unfold deref. now intros ->. Qed.

Lemma deref_inv h p c : deref h p = Ok c -> h !! p = Some c.
Proof. unfold deref. destruct (h !! p); now inversion 1. Qed.

Lemma deref_valid h p : (p < length h)%nat -> exists c, h !! p = Some c.
Proof. intros Hp. now apply lookup_lt_is_Some_2. Qed.

Lemma alter_insert h p c (f : cfg_t -> cfg_t) :
  h !! p = Some c -> <[p := f c]> h = alter f p h.
Proof.
  intros Hp. apply list_eq. intros j.
  destruct (decide (p = j)) as [<- | Hne].
  - rewrite list_lookup_alter_eq, Hp.
    apply list_lookup_insert_eq. eapply lookup_lt_Some, Hp.
  - now rewrite list_lookup_insert_ne, list_lookup_alter_ne.
Qed.

Lemma alter_same h p c (f : cfg_t -> cfg_t) :
  h !! p = Some c -> f c = c -> alter f p h = h.
Proof.
  intros Hp Hf. rewrite <- (alter_insert _ _ _ _ Hp), Hf.
  now apply list_insert_id.
Qed.

Lemma update_ok h p c f : h !! p = Some c -> update h p f = Ok (alter f p h).
Proof.
  intros Hp. unfold update. rewrite (deref_ok _ _ _ Hp). cbn [bind].
  now rewrite (alter_insert _ _ _ _ Hp).
Qed.

Lemma store_successor_ok h CFG i new c :
  h !! CFG = Some c -> (i < length (successor c))%nat ->
  store_successor h CFG i new = Ok (alter (put_successor i new) CFG h).
Proof.
  intros Hp Hi. unfold store_successor. rewrite (deref_ok _ _ _ Hp). cbn [bind].
  rewrite decide_True by assumption.
  now rewrite <- (alter_insert _ _ _ (put_successor i new) Hp).
Qed.

Lemma store_successor_fault h CFG i new c :
  h !! CFG = Some c -> (length (successor c) <= i)%nat ->
  store_successor h CFG i new = Fault.
Proof.
  intros Hp Hi. unfold store_successor. rewrite (deref_ok _ _ _ Hp). cbn [bind].
  rewrite decide_False by lia. reflexivity.
Qed.

Lemma link_ok h CFG i new c :
  h !! CFG = Some c -> (new < length h)%nat ->
  (i < length (successor c))%nat ->
  link h CFG i new
  = Ok (alter (edge_dst (name c)) new (alter (edge_src i new) CFG h)).
Proof.
  intros Hp Hnew Hi. unfold link.
  rewrite (store_successor_ok _ _ _ _ _ Hp Hi). cbn [bind].
  set (h1 := alter (put_successor i new) CFG h).
  assert (H1 : h1 !! CFG = Some (put_successor i new c)).
  { unfold h1. now rewrite list_lookup_alter_eq, Hp. }
  rewrite (update_ok _ _ _ _ H1). cbn [bind].
  unfold h1. rewrite list_alter_alter_eq.
  change (bump_nb_out ∘ put_successor i new) with (edge_src i new).
  set (h2 := alter (edge_src i new) CFG h).
  assert (Hlen : length h2 = length h) by apply length_alter.
  destruct (deref_valid h2 new) as [n Hn]; [ lia | ].
  rewrite (update_ok _ _ _ _ Hn). cbn [bind].
  assert (H3 : exists c3, alter bump_nb_in new h2 !! CFG = Some c3
                          /\ name c3 = name c) .
  { assert (H2 : h2 !! CFG = Some (edge_src i new c)).
    { unfold h2. now rewrite list_lookup_alter_eq, Hp. }
    destruct (decide (new = CFG)) as [-> | Hne].
    - rewrite list_lookup_alter_eq, H2. simpl. eauto.
    - rewrite list_lookup_alter_ne, H2 by assumption. eauto. }
  destruct H3 as (c3 & Hc3 & Hname).
  fold bump_nb_in.
  rewrite (deref_ok _ _ _ Hc3). cbn [bind].
  assert (H4 : exists n4, alter bump_nb_in new h2 !! new = Some n4).
  { apply deref_valid. rewrite length_alter. lia. }
  destruct H4 as [n4 Hn4].
  rewrite (update_ok _ _ _ _ Hn4). rewrite list_alter_alter_eq, Hname.
  reflexivity.
Qed.

Lemma grow_ok h CFG c :
  h !! CFG = Some c -> grow h CFG = Ok (alter grow_node CFG h).
Proof.
  intros Hp. unfold grow. rewrite (deref_ok _ _ _ Hp). cbn [bind].
  destruct (is_power_2 (nb_out c)) eqn:Hpow.
  - rewrite (update_ok _ _ _ _ Hp). f_equal.
    apply list_alter_ext; [ | reflexivity ].
    intros x Hx. assert (x = c) by congruence. subst x.
    unfold grow_node. now rewrite Hpow.
  - f_equal. symmetry. apply (alter_same _ _ _ _ Hp).
    unfold grow_node. now rewrite Hpow.
Qed.

Lemma append_ok h CFG new c :
  h !! CFG = Some c -> (new < length h)%nat ->
  (Z.to_nat (nb_out c) < length (successor (grow_node c)))%nat ->
  append h CFG new = Ok (add_edge h CFG new).
Proof.
  intros Hp Hnew Hroom. unfold append, add_edge.
  rewrite (grow_ok _ _ _ Hp), Hp. cbn [bind].
  assert (H1 : alter grow_node CFG h !! CFG = Some (grow_node c)).
  { now rewrite list_lookup_alter_eq, Hp. }
  rewrite (deref_ok _ _ _ H1). cbn [bind].
  assert (Hout : nb_out (grow_node c) = nb_out c).
  { unfold grow_node. now destruct (is_power_2 _). }
  assert (Hname : name (grow_node c) = name c).
  { unfold grow_node. now destruct (is_power_2 _). }
  rewrite (link_ok _ _ _ _ _ H1); rewrite ?length_alter, ?Hout; try assumption.
  rewrite list_alter_alter_eq, Hname. do 2 f_equal.
  apply list_alter_ext; [ | reflexivity ].
  intros x Hx. assert (x = c) by congruence. subst x. reflexivity.
Qed.

End Heap.

(** ** Powers of two *)

Lemma is_power_2_loop_spec p :
  is_power_2_loop p = true <-> exists k : nat, Zpos p = 2 ^ Z.of_nat (S k).
Proof.
  induction p as [ q IH | q IH | ]; simpl.
  - split; [ discriminate | ].
    intros [k Hk]. rewrite Nat2Z.inj_succ, Z.pow_succ_r in Hk by lia. lia.
  - destruct q as [ r | r | ].
    + split; [ intros H; apply IH in H; destruct H as [k Hk] | ].
      * exists (S k). rewrite (Nat2Z.inj_succ (S k)), Z.pow_succ_r by lia. lia.
      * intros [k Hk]. rewrite Nat2Z.inj_succ, Z.pow_succ_r in Hk by lia.
        destruct k as [ | k ]; [ simpl in Hk; lia | ].
        apply IH. exists k. lia.
    + split; [ intros H; apply IH in H; destruct H as [k Hk] | ].
      * exists (S k). rewrite (Nat2Z.inj_succ (S k)), Z.pow_succ_r by lia. lia.
      * intros [k Hk]. rewrite Nat2Z.inj_succ, Z.pow_succ_r in Hk by lia.
        destruct k as [ | k ]; [ simpl in Hk; lia | ].
        apply IH. exists k. lia.
    + split; [ intros _; now exists 0%nat | reflexivity ].
  - split; [ discriminate | ].
    intros [k Hk]. rewrite Nat2Z.inj_succ, Z.pow_succ_r in Hk by lia.
    assert (0 < 2 ^ Z.of_nat k) by (apply Z.pow_pos_nonneg; lia). lia.
Qed.

(** is_power_2 accepts the powers of two from 2 on; it rejects 1. *)
Lemma is_power_2_spec n :
  is_power_2 n = true <-> exists k : nat, n = 2 ^ Z.of_nat (S k).
Proof.
  destruct n as [ | p | p ]; simpl.
  - split; [ discriminate | ]. intros [k Hk].
    assert (0 < 2 ^ Z.of_nat (S k)) by (apply Z.pow_pos_nonneg; lia). lia.
  - apply is_power_2_loop_spec.
  - split; [ discriminate | ]. intros [k Hk].
    assert (0 < 2 ^ Z.of_nat (S k)) by (apply Z.pow_pos_nonneg; lia). lia.
Qed.

Lemma pow2_nat_Z (k : nat) : Z.of_nat (2 ^ k) = 2 ^ Z.of_nat k.
Proof. now rewrite Nat2Z.inj_pow. Qed.

Lemma pow2_nat_pos (k : nat) : (0 < 2 ^ k)%nat.
Proof. induction k; simpl; lia. Qed.

(** ** Nodes *)

Section Nodes.

Implicit Types (c : cfg_t) (n new : nat).

Lemma length_realloc a m : length (realloc a m) = m.
Proof. apply length_resize. Qed.

Lemma lookup_realloc a m i :
  (i < m)%nat -> (i < length a)%nat -> realloc a m !! i = a !! i.
Proof.
  intros Him Hia. unfold realloc. rewrite lookup_resize by assumption.
  reflexivity.
Qed.

Lemma grow_node_nb_out c : nb_out (grow_node c) = nb_out c.
Proof. unfold grow_node. now destruct (is_power_2 _). Qed.

Lemma grow_node_instruction c : instruction (grow_node c) = instruction c.
Proof. unfold grow_node. now destruct (is_power_2 _). Qed.

Lemma grow_node_name c : name (grow_node c) = name c.
Proof. unfold grow_node. now destruct (is_power_2 _). Qed.

Lemma grow_node_nb_in c : nb_in (grow_node c) = nb_in c.
Proof. unfold grow_node. now destruct (is_power_2 _). Qed.

(** Growing keeps the successors. *)
Lemma grow_node_lookup c i :
  (i < Z.to_nat (nb_out c))%nat ->
  (Z.to_nat (nb_out c) <= length (successor c))%nat ->
  successor (grow_node c) !! i = successor c !! i.
Proof.
  intros Hi Hcap. unfold grow_node.
  destruct (is_power_2 (nb_out c)); [ simpl | reflexivity ].
  apply lookup_realloc; lia.
Qed.

(** There is room for the append once the array was grown. *)
Lemma grow_node_room n c :
  node_ok n c -> can_append c ->
  (Z.to_nat (nb_out c) < length (successor (grow_node c)))%nat.
Proof.
  intros [Hrange Hcap Hslots Hshape] Hcan.
  unfold grow_node. destruct (is_power_2 (nb_out c)) eqn:Hpow.
  - simpl. rewrite length_realloc.
    apply is_power_2_spec in Hpow. destruct Hpow as [k Hk].
    assert (0 < 2 ^ Z.of_nat (S k)) by (apply Z.pow_pos_nonneg; lia). lia.
  - assert (Hne : Z.to_nat (nb_out c) <> length (successor c)
                  \/ length (successor c) = 1%nat /\ nb_out c = 0
                  \/ length (successor c) = 2%nat /\ nb_out c <= 1).
    { unfold shape_ok, can_append in *.
      destruct (type (instruction c)); try lia;
        destruct Hshape as [k Hk]; left; intros Heq;
        assert (is_power_2 (nb_out c) = true)
          by (apply is_power_2_spec; exists k;
              rewrite <- pow2_nat_Z, <- Hk, <- Heq; lia);
        congruence. }
    lia.
Qed.

Lemma edge_dst_ok n nm c : node_ok n c -> node_ok n (edge_dst nm c).
Proof. intros [? ? ? ?]. now split. Qed.

Lemma u16_succ_cases d :
  0 <= d < 2 ^ 16 -> u16 (d + 1) = d + 1 \/ (d = 2 ^ 16 - 1 /\ u16 (d + 1) = 0).
Proof.
  intros Hd. unfold u16.
  destruct (decide (d = 2 ^ 16 - 1)) as [-> | Hne].
  - right. split; reflexivity.
  - left. apply Z.mod_small. lia.
Qed.

Lemma add_edge_node_ok n new c :
  node_ok n c -> can_append c -> (new < n)%nat ->
  node_ok n (add_edge_node new c).
Proof.
  intros Hok Hcan Hnew.
  pose proof (grow_node_room _ _ Hok Hcan) as Hroom.
  destruct Hok as [Hrange Hcap Hslots Hshape].
  unfold add_edge_node, edge_src, bump_nb_out, put_successor.
  split; simpl; rewrite ?grow_node_nb_out, ?length_insert.
  - unfold u16. apply Z.mod_pos_bound. lia.
  - destruct (u16_succ_cases _ Hrange) as [-> | [_ ->]]; lia.
  - intros i Hi. simpl in Hi |- *.
    destruct (u16_succ_cases _ Hrange) as [Hs | [_ Hs]];
      rewrite Hs in Hi; [ | simpl in Hi; lia ].
    destruct (decide (i = Z.to_nat (nb_out c))) as [-> | Hne].
    + exists new. split; [ | assumption ].
      now apply list_lookup_insert_eq.
    + rewrite list_lookup_insert_ne by congruence.
      rewrite grow_node_lookup by lia. apply Hslots. lia.
  - unfold shape_ok, can_append in *. simpl.
    rewrite ?grow_node_instruction, ?grow_node_nb_out, ?length_insert.
    assert (Hlen : is_power_2 (nb_out c) = false ->
                   length (successor (grow_node c)) = length (successor c)).
    { intros Hp. unfold grow_node. now rewrite Hp. }
    assert (Hgrown : is_power_2 (nb_out c) = true ->
                     exists k : nat,
                       length (successor (grow_node c)) = (2 ^ S k)%nat).
    { intros Hp. unfold grow_node. rewrite Hp.
      unfold set_successor. cbn [successor].
      rewrite length_realloc. apply is_power_2_spec in Hp.
      destruct Hp as [k Hk]. exists (S k). rewrite Hk.
      apply Nat2Z.inj. rewrite pow2_nat_Z, Z2Nat.id.
      - rewrite (Nat2Z.inj_succ (S k)), Z.pow_succ_r; lia.
      - assert (0 < 2 ^ Z.of_nat (S k)) by (apply Z.pow_pos_nonneg; lia).
        lia. }
    destruct (type (instruction c)).
    + destruct Hshape as [Hl _]. rewrite Hcan. rewrite Hlen by now rewrite Hcan.
      split; [ assumption | right; reflexivity ].
    + destruct Hshape as [Hl _].
      destruct Hcan as [H0 | H0]; (rewrite Hlen by now rewrite H0);
        rewrite H0;
        (split; [ assumption | ]); [ right; left | right; right ]; reflexivity.
    + destruct (is_power_2 (nb_out c)) eqn:Hp; [ now apply Hgrown | ].
      rewrite Hlen by reflexivity. assumption.
    + destruct (is_power_2 (nb_out c)) eqn:Hp; [ now apply Hgrown | ].
      rewrite Hlen by reflexivity. assumption.
    + destruct (is_power_2 (nb_out c)) eqn:Hp; [ now apply Hgrown | ].
      rewrite Hlen by reflexivity. assumption.
Qed.

End Nodes.

(** ** The instruction index *)

Section Index.

Implicit Types (h : list cfg_t) (b : list nat) (t : hashtable_t).

Lemma addr_of_lookup h p c :
  h !! p = Some c -> addr_of h p = address (instruction c).
Proof. unfold addr_of. now intros ->. Qed.

Lemma bucket_mem_ok h b a :
  (forall p, p ∈ b -> (p < length h)%nat) ->
  bucket_mem h b a = Ok (bool_decide (a ∈ addr_of h <$> b)).
Proof.
  induction b as [ | p b IH ]; intros Hvalid; simpl.
  - reflexivity.
  - destruct (deref_valid h p) as [c Hc]; [ apply Hvalid; left | ].
    rewrite (deref_ok _ _ _ Hc). cbn [bind].
    rewrite (addr_of_lookup _ _ _ Hc).
    destruct (Z.eqb_spec (address (instruction c)) a) as [-> | Hne].
    + f_equal. symmetry. apply bool_decide_eq_true_2. left.
    + rewrite IH by (intros q Hq; apply Hvalid; now right).
      f_equal. apply bool_decide_ext. rewrite elem_of_cons. intuition congruence.
Qed.

Lemma bucket_find_total h b a :
  (forall p, p ∈ b -> (p < length h)%nat) ->
  exists r, bucket_find h b a = Ok r.
Proof.
  induction b as [ | p b IH ]; intros Hvalid; simpl; [ eauto | ].
  destruct (deref_valid h p) as [c Hc]; [ apply Hvalid; left | ].
  rewrite (deref_ok _ _ _ Hc). cbn [bind].
  destruct (address (instruction c) =? a); [ eauto | ].
  apply IH. intros q Hq. apply Hvalid. now right.
Qed.

Lemma bucket_find_Some_inv h b a p :
  bucket_find h b a = Ok (Some p) ->
  p ∈ b /\ exists c, h !! p = Some c /\ address (instruction c) = a.
Proof.
  induction b as [ | q b IH ]; simpl; [ discriminate | ].
  unfold deref. destruct (h !! q) as [c | ] eqn:Hq; [ | discriminate ].
  cbn [bind]. destruct (Z.eqb_spec (address (instruction c)) a) as [Ha | Hne].
  - intros [= <-]. split; [ left | eauto ].
  - intros H. apply IH in H. destruct H as [Hin Hc]. split; [ now right | exact Hc ].
Qed.

Lemma bucket_find_None_inv h b a :
  bucket_find h b a = Ok None -> a ∉ addr_of h <$> b.
Proof.
  induction b as [ | q b IH ]; simpl; [ intros _; apply not_elem_of_nil | ].
  unfold deref. destruct (h !! q) as [c | ] eqn:Hq; [ | discriminate ].
  cbn [bind]. destruct (Z.eqb_spec (address (instruction c)) a) as [Ha | Hne].
  - discriminate.
  - intros H. apply IH in H. rewrite not_elem_of_cons.
    split; [ | assumption ]. rewrite (addr_of_lookup _ _ _ Hq). congruence.
Qed.

(** In a bucket without repeated addresses the scan finds every entry. *)
Lemma bucket_find_entry h b p c :
  (forall q, q ∈ b -> (q < length h)%nat) ->
  NoDup (addr_of h <$> b) ->
  p ∈ b -> h !! p = Some c ->
  bucket_find h b (address (instruction c)) = Ok (Some p).
Proof.
  induction b as [ | q b IH ]; intros Hvalid Hnd Hin Hc.
  - now apply elem_of_nil in Hin.
  - simpl. rewrite fmap_cons in Hnd. apply NoDup_cons in Hnd.
    destruct Hnd as [Hq Hnd].
    destruct (deref_valid h q) as [cq Hcq]; [ apply Hvalid; left | ].
    rewrite (deref_ok _ _ _ Hcq). cbn [bind].
    apply elem_of_cons in Hin. destruct Hin as [-> | Hin].
    + assert (cq = c) by congruence. subst cq. now rewrite Z.eqb_refl.
    + destruct (Z.eqb_spec (address (instruction cq))
                  (address (instruction c))) as [Heq | Hne].
      * exfalso. apply Hq. rewrite (addr_of_lookup _ _ _ Hcq), Heq.
        rewrite <- (addr_of_lookup _ _ _ Hc). now apply list_elem_of_fmap_2.
      * apply IH; try assumption. intros r Hr. apply Hvalid. now right.
Qed.

Lemma bucket_ok_valid h t index b p :
  bucket_ok h t index b -> p ∈ b -> (p < length h)%nat.
Proof.
  intros [Hent _] Hp. destruct (Hent _ Hp) as (c & Hc & _).
  eapply lookup_lt_Some, Hc.
Qed.

(** The lookup finds every stored node. *)
Lemma hashtable_lookup_entry h t index b p c :
  buckets t !! index = Some b -> bucket_ok h t index b ->
  p ∈ b -> h !! p = Some c ->
  hashtable_lookup h t (instruction c) = Ok (Some p).
Proof.
  intros Hb Hok Hp Hc. unfold hashtable_lookup.
  destruct (ok_entries _ _ _ _ Hok _ Hp) as (c' & Hc' & Hidx).
  assert (c' = c) by congruence. subst c'. rewrite Hidx, Hb.
  apply bucket_find_entry; try assumption.
  - intros q Hq. eapply bucket_ok_valid; eassumption.
  - apply Hok.
Qed.

Lemma hashtable_lookup_total h t instr :
  (forall index b, buckets t !! index = Some b -> bucket_ok h t index b) ->
  exists r, hashtable_lookup h t instr = Ok r.
Proof.
  intros Hok. unfold hashtable_lookup.
  destruct (buckets t !! bucket_index t instr) as [b | ] eqn:Hb; [ | eauto ].
  apply bucket_find_total. intros p Hp.
  eapply bucket_ok_valid; [ eapply Hok, Hb | exact Hp ].
Qed.

Lemma hashtable_lookup_Some_inv h t instr p :
  hashtable_lookup h t instr = Ok (Some p) ->
  exists b c, buckets t !! bucket_index t instr = Some b /\ p ∈ b
              /\ h !! p = Some c
              /\ address (instruction c) = address instr.
Proof.
  unfold hashtable_lookup.
  destruct (buckets t !! bucket_index t instr) as [b | ] eqn:Hb;
    [ | discriminate ].
  intros H. apply bucket_find_Some_inv in H.
  destruct H as (Hin & c & Hc & Ha). eauto 10.
Qed.

(** A same-address insert reports success and leaves the table alone. *)
Lemma hashtable_insert_present h t CFG c b :
  h !! CFG = Some c ->
  buckets t !! bucket_index t (instruction c) = Some b ->
  (forall p, p ∈ b -> (p < length h)%nat) ->
  address (instruction c) ∈ addr_of h <$> b ->
  hashtable_insert h t CFG = Ok (true, t).
Proof.
  intros Hc Hb Hvalid Hin. unfold hashtable_insert.
  rewrite (deref_ok _ _ _ Hc). cbn [bind]. rewrite Hb.
  rewrite (bucket_mem_ok _ _ _ Hvalid). cbn [bind].
  now rewrite bool_decide_eq_true_2.
Qed.

End Index.

(** ** Edge insertion *)

Section EdgeInsertion.

Implicit Types (h : list cfg_t) (s : state) (c : cfg_t).

Lemma successor_scan_ok h a n addr :
  (forall i, (i < n)%nat ->
     exists q, a !! i = Some (Some q) /\ (q < length h)%nat) ->
  successor_scan h a n addr
  = Ok (bool_decide (addr ∈ slot_addr h <$> take n a)).
Proof.
  revert a. induction n as [ | n IH ]; intros a Hslots.
  - reflexivity.
  - destruct (Hslots 0%nat) as (q & Hq & Hvalid); [ lia | ].
    destruct a as [ | o a ]; [ discriminate | ].
    simpl in Hq. injection Hq as ->. simpl.
    destruct (deref_valid h q Hvalid) as [cq Hcq].
    rewrite (deref_ok _ _ _ Hcq). cbn [bind].
    rewrite (addr_of_lookup _ _ _ Hcq).
    destruct (Z.eqb_spec (address (instruction cq)) addr) as [-> | Hne].
    + f_equal. symmetry. apply bool_decide_eq_true_2. left.
    + rewrite IH.
      * f_equal. apply bool_decide_ext. rewrite elem_of_cons.
        intuition congruence.
      * intros i Hi. apply (Hslots (S i)). lia.
Qed.

Lemma is_successor_ok h p c addr :
  h !! p = Some c -> slots_ok (length h) c ->
  is_successor h p addr
  = Ok (bool_decide (addr ∈ successor_addresses h c)).
Proof.
  intros Hp Hslots. unfold is_successor.
  rewrite (deref_ok _ _ _ Hp). cbn [bind].
  now apply successor_scan_ok.
Qed.

(** Installing an edge at slot [nb_out] without growing is an append. *)
Lemma link_add_edge h P new c :
  h !! P = Some c -> (new < length h)%nat ->
  is_power_2 (nb_out c) = false ->
  (Z.to_nat (nb_out c) < length (successor c))%nat ->
  link h P (Z.to_nat (nb_out c)) new = Ok (add_edge h P new).
Proof.
  intros Hp Hnew Hpow Hroom.
  rewrite (link_ok _ _ _ _ _ Hp Hnew Hroom).
  unfold add_edge. rewrite Hp. do 2 f_equal.
  apply list_alter_ext; [ | reflexivity ].
  intros x Hx. assert (x = c) by congruence. subst x.
  unfold add_edge_node, grow_node. now rewrite Hpow.
Qed.

Lemma slot_free_ok h P c o :
  h !! P = Some c -> successor c !! 0%nat = Some o ->
  slot_free h P 0 = Ok (bool_decide (o = None)).
Proof.
  intros Hp Ho. unfold slot_free. rewrite (deref_ok _ _ _ Hp). cbn [bind].
  rewrite Ho. now destruct o.
Qed.

Lemma node_slot0 n c :
  node_ok n c -> exists o, successor c !! 0%nat = Some o.
Proof.
  intros [_ _ _ Hshape]. apply lookup_lt_is_Some_2.
  unfold shape_ok in Hshape.
  destruct (type (instruction c)); try lia;
    destruct Hshape as [k Hk]; rewrite Hk; apply pow2_nat_pos.
Qed.

Lemma node_slot0_free n c :
  node_ok n c -> successor c !! 0%nat = Some None -> nb_out c = 0.
Proof.
  intros [Hrange _ Hslots _] H0.
  destruct (decide (nb_out c = 0)) as [ | Hne ]; [ assumption | ].
  destruct (Hslots 0%nat) as (q & Hq & _); [ lia | congruence ].
Qed.

Lemma matching_call_Some s new top :
  matching_call s new = Some top ->
  exists rest t n,
    stack s = top :: rest /\ heap s !! top = Some t /\ heap s !! new = Some n
    /\ address (instruction n) = return_address (instruction t).
Proof.
  unfold matching_call.
  destruct (stack s) as [ | top' rest ]; [ discriminate | ].
  destruct (heap s !! top') as [t | ] eqn:Ht; [ | discriminate ].
  destruct (heap s !! new) as [n | ] eqn:Hn; [ | discriminate ].
  destruct (Z.eqb_spec (address (instruction n))
              (return_address (instruction t))); [ | discriminate ].
  intros [= <-]. eauto 10.
Qed.

(** aux_cfg_insert never faults on a well-formed state, and what it does
    is one of the outcomes. *)
Lemma aux_cfg_insert_outcome s P new :
  state_ok s -> (P < length (heap s))%nat -> (new < length (heap s))%nat ->
  exists r s', aux_cfg_insert s P (Some new) = Ok (r, s')
               /\ aux_outcome s P new r s'.
Proof.
  intros Hok HP Hnew.
  destruct (deref_valid _ _ HP) as [c Hc].
  destruct (deref_valid _ _ Hnew) as [n Hn].
  pose proof (ok_nodes _ Hok _ _ Hc) as Hnode.
  destruct (node_slot0 _ _ Hnode) as [o Ho].
  unfold aux_cfg_insert. rewrite (deref_ok _ _ _ Hc). cbn [bind].
  assert (Hroom : can_append c ->
            append (heap s) P new = Ok (add_edge (heap s) P new)).
  { intros Hcan. apply (append_ok _ _ _ _ Hc Hnew).
    eapply grow_node_room; eassumption. }
  destruct (decide (type (instruction c) = RET)) as [Hret | Hret].
  - (* RET *)
    cbn [bind]. rewrite Hret.
    assert (Hcan : can_append c) by (unfold can_append; now rewrite Hret).
    destruct (stack s) as [ | top rest ] eqn:Hstack.
    + simpl. rewrite (Hroom Hcan). cbn [bind].
      do 2 eexists. split; [ reflexivity | ].
      eapply aux_ret_unmatched; try eassumption.
      unfold matching_call. now rewrite Hstack.
    + cbn [stack_get_top].
      destruct (ok_stack _ Hok top) as (t & Ht & Htype);
        [ rewrite Hstack; left | ].
      rewrite (deref_ok _ _ _ Ht), (deref_ok _ _ _ Hn). cbn [bind].
      pose proof (ok_nodes _ Hok _ _ Ht) as Htnode.
      destruct (address (instruction n) =? return_address (instruction t))
        eqn:Hmatch.
      * assert (Hmc : matching_call s new = Some top).
        { unfold matching_call. now rewrite Hstack, Ht, Hn, Hmatch. }
        cbn [heap with_stack].
        rewrite (is_successor_ok _ _ _ _ Ht (ok_slots _ _ Htnode)).
        cbn [bind]. rewrite <- (addr_of_lookup _ _ _ Hn).
        case_bool_decide as Hdup.
        -- do 2 eexists. split; [ reflexivity | ].
           replace rest with (stack_pop (stack s)) by now rewrite Hstack.
           eapply aux_ret_known; eassumption.
        -- assert (Htcan : can_append t)
             by (unfold can_append; now rewrite Htype).
           rewrite (append_ok _ _ _ _ Ht Hnew
                      (grow_node_room _ _ Htnode Htcan)).
           cbn [bind]. do 2 eexists. split; [ reflexivity | ].
           replace rest with (stack_pop (stack s)) by now rewrite Hstack.
           eapply aux_ret_matched; eassumption.
      * rewrite (Hroom Hcan). cbn [bind].
        do 2 eexists. split; [ reflexivity | ].
        eapply aux_ret_unmatched; try eassumption.
        unfold matching_call. now rewrite Hstack, Ht, Hn, Hmatch.
  - (* not RET *)
    rewrite (slot_free_ok _ _ _ _ Hc Ho). cbn [bind].
    case_bool_decide as Hfree.
    + subst o. pose proof (node_slot0_free _ _ Hnode Ho) as Hzero.
      assert (Hlink : link (heap s) P 0 new = Ok (add_edge (heap s) P new)).
      { change 0%nat with (Z.to_nat 0). rewrite <- Hzero.
        apply link_add_edge; try assumption.
        - now rewrite Hzero.
        - rewrite Hzero. eapply lookup_lt_Some, Ho. }
      rewrite Hlink. cbn [bind]. do 2 eexists. split; [ reflexivity | ].
      eapply aux_first; eassumption.
    + assert (Htaken : successor c !! 0%nat <> Some None) by congruence.
      destruct Hnode as [Hrange Hcap Hslots Hshape].
      unfold shape_ok in Hshape.
      destruct (type (instruction c)) eqn:Htype.
      * (* BASIC *)
        destruct Hshape as [Hlen [[_ H0] | H1]]; [ congruence | ].
        rewrite H1. simpl. do 2 eexists. split; [ reflexivity | ].
        eapply aux_full; [ eassumption | left; split; [ assumption | lia ] ].
      * (* BRANCH *)
        destruct Hshape as [Hlen [[_ H0] | [H1 | H2]]]; [ congruence | | ].
        -- rewrite H1. simpl.
           assert (Hlink : link (heap s) P 1 new
                           = Ok (add_edge (heap s) P new)).
           { change 1%nat with (Z.to_nat 1). rewrite <- H1.
             apply link_add_edge; try assumption.
             - now rewrite H1.
             - rewrite H1, Hlen. simpl. lia. }
           rewrite Hlink. cbn [bind]. do 2 eexists. split; [ reflexivity | ].
           eapply aux_second; eassumption.
        -- rewrite H2. simpl. do 2 eexists. split; [ reflexivity | ].
           eapply aux_full;
             [ eassumption | right; split; [ assumption | lia ] ].
      * (* CALL *)
        do 2 eexists. split; [ reflexivity | ].
        eapply aux_call; eassumption.
      * (* JUMP *)
        rewrite Hroom by (unfold can_append; now rewrite Htype).
        cbn [bind]. do 2 eexists. split; [ reflexivity | ].
        eapply aux_jump; eassumption.
      * congruence.
Qed.

End EdgeInsertion.

(** ** Well-formed states are preserved *)

Section Preservation.

Implicit Types (h : list cfg_t) (s : state) (c : cfg_t).

Lemma heap_ext_refl h : heap_ext h h.
Proof. split; [ lia | eauto ]. Qed.

Lemma heap_ext_trans h1 h2 h3 :
  heap_ext h1 h2 -> heap_ext h2 h3 -> heap_ext h1 h3.
Proof.
  intros [Hl1 H1] [Hl2 H2]. split; [ lia | ].
  intros p c Hc. destruct (H1 _ _ Hc) as (c' & Hc' & Hi).
  destruct (H2 _ _ Hc') as (c'' & Hc'' & Hi'). exists c''.
  split; [ assumption | congruence ].
Qed.

Lemma heap_ext_app h l : heap_ext h (h ++ l).
Proof.
  split; [ rewrite length_app; lia | ].
  intros p c Hc. exists c. split; [ now apply lookup_app_l_Some | reflexivity ].
Qed.

Lemma add_edge_length h src new : length (add_edge h src new) = length h.
Proof.
  unfold add_edge. destruct (h !! src); [ | reflexivity ].
  now rewrite !length_alter.
Qed.

(** Every node after [add_edge]: the old one, with the source and the
    target changed. *)
Lemma add_edge_lookup h src new c p c' :
  h !! src = Some c -> add_edge h src new !! p = Some c' ->
  exists c0, h !! p = Some c0
    /\ c' = (if decide (new = p) then edge_dst (name c) else id)
              ((if decide (src = p) then add_edge_node new else id) c0).
Proof.
  intros Hsrc. unfold add_edge. rewrite Hsrc.
  rewrite list_lookup_alter.
  destruct (decide (new = p)) as [-> | Hnp].
  - rewrite list_lookup_alter.
    destruct (decide (src = p)) as [-> | Hsp].
    + rewrite Hsrc. simpl. intros [= <-]. eauto.
    + destruct (h !! p) as [c0 | ]; simpl; [ | discriminate ].
      intros [= <-]. eauto.
  - rewrite list_lookup_alter.
    destruct (decide (src = p)) as [-> | Hsp].
    + rewrite Hsrc. simpl. intros [= <-]. eauto.
    + intros Hp. eauto.
Qed.

Lemma add_edge_lookup_Some h src new c p c0 :
  h !! src = Some c -> h !! p = Some c0 ->
  add_edge h src new !! p
  = Some ((if decide (new = p) then edge_dst (name c) else id)
            ((if decide (src = p) then add_edge_node new else id) c0)).
Proof.
  intros Hsrc Hp.
  assert (Hlt : (p < length (add_edge h src new))%nat).
  { rewrite add_edge_length. eapply lookup_lt_Some, Hp. }
  destruct (deref_valid _ _ Hlt) as [c' Hc'].
  destruct (add_edge_lookup _ _ _ _ _ _ Hsrc Hc') as (c0' & Hp' & ->).
  rewrite Hc'. congruence.
Qed.

Lemma edge_dst_instruction nm c : instruction (edge_dst nm c) = instruction c.
Proof. reflexivity. Qed.

Lemma add_edge_node_instruction new c :
  instruction (add_edge_node new c) = instruction c.
Proof. unfold add_edge_node. simpl. apply grow_node_instruction. Qed.

Lemma heap_ext_add_edge h src new : heap_ext h (add_edge h src new).
Proof.
  split; [ rewrite add_edge_length; lia | ].
  intros p c0 Hp.
  destruct (h !! src) as [c | ] eqn:Hsrc;
    [ | unfold add_edge; rewrite Hsrc; eauto ].
  rewrite (add_edge_lookup_Some _ _ _ _ _ _ Hsrc Hp).
  eexists. split; [ reflexivity | ].
  destruct (decide (new = p)), (decide (src = p)); simpl;
    rewrite ?grow_node_instruction; reflexivity.
Qed.

Lemma slots_ok_mono n n' c : (n <= n')%nat -> slots_ok n c -> slots_ok n' c.
Proof.
  intros Hle Hs i Hi. destruct (Hs i Hi) as (q & Hq & Hlt).
  exists q. split; [ assumption | lia ].
Qed.

Lemma node_ok_mono n n' c : (n <= n')%nat -> node_ok n c -> node_ok n' c.
Proof.
  intros Hle [? ? ? ?]. split; try assumption.
  eapply slots_ok_mono; eassumption.
Qed.

Lemma add_edge_nodes_ok h src new c :
  (forall p c, h !! p = Some c -> node_ok (length h) c) ->
  h !! src = Some c -> can_append c -> (new < length h)%nat ->
  forall p c', add_edge h src new !! p = Some c' ->
    node_ok (length (add_edge h src new)) c'.
Proof.
  intros Hnodes Hsrc Hcan Hnew p c' Hp. rewrite add_edge_length.
  destruct (add_edge_lookup _ _ _ _ _ _ Hsrc Hp) as (c0 & Hc0 & ->).
  pose proof (Hnodes _ _ Hc0) as Hok0.
  assert (Hmid : node_ok (length h)
            ((if decide (src = p) then add_edge_node new else id) c0)).
  { destruct (decide (src = p)) as [-> | _]; [ | exact Hok0 ].
    assert (c0 = c) by congruence. subst c0.
    now apply add_edge_node_ok. }
  destruct (decide (new = p)); [ now apply edge_dst_ok | exact Hmid ].
Qed.

Lemma addr_of_ext h h' p :
  heap_ext h h' -> (p < length h)%nat -> addr_of h' p = addr_of h p.
Proof.
  intros [_ Hext] Hp. destruct (deref_valid _ _ Hp) as [c Hc].
  destruct (Hext _ _ Hc) as (c' & Hc' & Hi).
  rewrite (addr_of_lookup _ _ _ Hc), (addr_of_lookup _ _ _ Hc'). congruence.
Qed.

Lemma bucket_ok_ext h h' t index b :
  heap_ext h h' -> bucket_ok h t index b -> bucket_ok h' t index b.
Proof.
  intros Hext Hok. pose proof Hok as [Hent Hnd]. split.
  - intros p Hp. destruct (Hent _ Hp) as (c & Hc & Hidx).
    destruct (proj2 Hext _ _ Hc) as (c' & Hc' & Hi).
    exists c'. split; [ assumption | congruence ].
  - replace (addr_of h' <$> b) with (addr_of h <$> b); [ assumption | ].
    apply list_fmap_ext. intros i p Hp. symmetry.
    apply addr_of_ext; [ assumption | ].
    eapply bucket_ok_valid; [ exact Hok | ].
    eapply list_elem_of_lookup_2, Hp.
Qed.

Lemma bucket_ok_size h t t' index b :
  ht_size t' = ht_size t -> bucket_ok h t index b -> bucket_ok h t' index b.
Proof.
  intros Hsz [Hent Hnd]. split; [ | assumption ].
  intros p Hp. destruct (Hent _ Hp) as (c & Hc & Hidx).
  exists c. split; [ assumption | ].
  unfold bucket_index in *. now rewrite Hsz.
Qed.

Lemma buckets_ok_ext h h' t :
  heap_ext h h' -> buckets_ok h t -> buckets_ok h' t.
Proof. intros Hext Hok index b Hb. eapply bucket_ok_ext; eauto. Qed.

(** Replacing the heap by a later one with well-formed nodes. *)
Lemma state_ok_heap s h' :
  state_ok s -> heap_ext (heap s) h' ->
  (forall p c, h' !! p = Some c -> node_ok (length h') c) ->
  state_ok (with_heap h' s).
Proof.
  intros [Hnodes Hstack Hbuckets] Hext Hnodes'. split; simpl.
  - exact Hnodes'.
  - intros p Hp. destruct (Hstack _ Hp) as (c & Hc & Ht).
    destruct (proj2 Hext _ _ Hc) as (c' & Hc' & Hi).
    exists c'. split; [ assumption | congruence ].
  - intros index b Hb. eapply bucket_ok_ext; eauto.
Qed.

Lemma stack_push_cons (k : list nat) d : stack_push k d = d :: k.
Proof. now destruct k. Qed.

Lemma stack_pop_subseteq (k : list nat) p : p ∈ stack_pop k -> p ∈ k.
Proof. destruct k; simpl; [ trivial | ]. intros H. now right. Qed.

End Preservation.

Section Allocation.

Implicit Types (h : list cfg_t) (s : state) (c : cfg_t) (t : hashtable_t).

Lemma hashtable_insert_ok h t CFG c :
  h !! CFG = Some c -> buckets_ok h t ->
  exists t', hashtable_insert h t CFG = Ok (true, t')
             /\ ht_size t' = ht_size t /\ buckets_ok h t'.
Proof.
  intros Hc Hok. unfold hashtable_insert.
  rewrite (deref_ok _ _ _ Hc). cbn [bind].
  destruct (buckets t !! bucket_index t (instruction c)) as [b | ] eqn:Hb.
  - assert (Hvalid : forall p, p ∈ b -> (p < length h)%nat).
    { intros p Hp. eapply bucket_ok_valid; [ eapply Hok, Hb | exact Hp ]. }
    rewrite (bucket_mem_ok _ _ _ Hvalid). cbn [bind].
    case_bool_decide as Hin; [ eauto | ].
    eexists. split; [ reflexivity | ]. split; [ reflexivity | ].
    intros index b' Hb'. simpl in Hb'.
    apply (bucket_ok_size h t); [ reflexivity | ].
    destruct (decide (bucket_index t (instruction c) = index)) as [<- | Hne].
    + rewrite lookup_insert_eq in Hb'. injection Hb' as <-.
      destruct (Hok _ _ Hb) as [Hent Hnd]. split.
      * intros p Hp. apply elem_of_app in Hp. destruct Hp as [Hp | Hp].
        -- now apply Hent.
        -- apply list_elem_of_singleton in Hp. subst p. eauto.
      * rewrite fmap_app. apply NoDup_app. split; [ assumption | ].
        split; [ | apply NoDup_singleton ].
        intros a Ha Ha'. simpl in Ha'. apply list_elem_of_singleton in Ha'.
        subst a. rewrite (addr_of_lookup _ _ _ Hc) in Ha. contradiction.
    + rewrite lookup_insert_ne in Hb' by assumption. now apply Hok.
  - eexists. split; [ reflexivity | ]. split; [ reflexivity | ].
    intros index b' Hb'. simpl in Hb'.
    apply (bucket_ok_size h t); [ reflexivity | ].
    destruct (decide (bucket_index t (instruction c) = index)) as [<- | Hne].
    + rewrite lookup_insert_eq in Hb'. injection Hb' as <-. split.
      * intros p Hp. apply list_elem_of_singleton in Hp. subst p. eauto.
      * simpl. apply NoDup_singleton.
    + rewrite lookup_insert_ne in Hb' by assumption. now apply Hok.
Qed.

Lemma new_node_ok n ins str : node_ok n (new_node ins str).
Proof.
  split; simpl.
  - lia.
  - lia.
  - intros i Hi. simpl in Hi. lia.
  - unfold shape_ok. simpl.
    destruct (type ins) eqn:Ht; simpl;
      try (exists 0%nat; reflexivity); split; auto.
Qed.

Lemma cfg_new_ok s ins str :
  state_ok s ->
  exists t',
    cfg_new s ins str
    = Ok (length (heap s),
          mk_state (heap s ++ [new_node ins str]) t'
            (stack s) (tail_entries s))
    /\ ht_size t' = ht_size (ht s)
    /\ state_ok (mk_state (heap s ++ [new_node ins str]) t'
                   (stack s) (tail_entries s)).
Proof.
  intros [Hnodes Hstack Hbuckets]. unfold cfg_new.
  fold (new_node ins str).
  set (h' := heap s ++ [new_node ins str]).
  assert (Hnew : h' !! length (heap s) = Some (new_node ins str)).
  { unfold h'. now rewrite list_lookup_middle. }
  assert (Hext : heap_ext (heap s) h') by apply heap_ext_app.
  destruct (hashtable_insert_ok h' (ht s) _ _ Hnew) as (t' & Hins & Hsz & Hok').
  { eapply buckets_ok_ext; eassumption. }
  rewrite Hins. cbn [bind snd]. exists t'.
  split; [ reflexivity | ]. split; [ assumption | ].
  split; simpl.
  - intros p c Hp. apply lookup_app_Some in Hp.
    destruct Hp as [Hp | [_ Hp]].
    + eapply node_ok_mono; [ | eapply Hnodes, Hp ].
      unfold h'. rewrite length_app. lia.
    + destruct (p - length (heap s))%nat; simpl in Hp; [ | discriminate ].
      injection Hp as <-. apply new_node_ok.
  - intros p Hp. destruct (Hstack _ Hp) as (c & Hc & Ht).
    exists c. split; [ now apply lookup_app_l_Some | assumption ].
  - exact Hok'.
Qed.

Lemma state_step_ok ins s s' :
  state_ok s -> state_step ins s s' ->
  state_ok s' /\ heap_ext (heap s) (heap s')
  /\ ht_size (ht s') = ht_size (ht s).
Proof.
  intros Hok Hstep. destruct Hstep as
    [ str r Hlook Hnew | src new c Hsrc Hnew Hcan Hfresh
    | P c HP Htype | | r ].
  - destruct (cfg_new_ok s ins str Hok) as (t' & Heq & Hsz & Hok').
    rewrite Heq in Hnew. injection Hnew as <-. simpl.
    split; [ assumption | ]. split; [ apply heap_ext_app | assumption ].
  - split; [ | split; [ apply heap_ext_add_edge | reflexivity ] ].
    apply state_ok_heap; [ assumption | apply heap_ext_add_edge | ].
    eapply add_edge_nodes_ok; try eassumption. apply Hok.
  - split; [ | split; [ apply heap_ext_refl | reflexivity ] ].
    destruct Hok as [Hnodes Hstack Hbuckets]. split; simpl; try assumption.
    intros p Hp. rewrite stack_push_cons in Hp.
    apply elem_of_cons in Hp. destruct Hp as [-> | Hp]; eauto.
  - split; [ | split; [ apply heap_ext_refl | reflexivity ] ].
    destruct Hok as [Hnodes Hstack Hbuckets]. split; simpl; try assumption.
    intros p Hp. apply Hstack. now apply stack_pop_subseteq.
  - split; [ | split; [ apply heap_ext_refl | reflexivity ] ].
    destruct Hok as [Hnodes Hstack Hbuckets]. now split.
Qed.

Lemma state_steps_ok ins s s' :
  state_ok s -> rtc (state_step ins) s s' ->
  state_ok s' /\ heap_ext (heap s) (heap s')
  /\ ht_size (ht s') = ht_size (ht s).
Proof.
  intros Hok Hsteps. induction Hsteps as [ s | s1 s2 s3 Hstep Hsteps IH ].
  - split; [ assumption | split; [ apply heap_ext_refl | reflexivity ] ].
  - destruct (state_step_ok _ _ _ Hok Hstep) as (Hok2 & Hext & Hsz).
    destruct (IH Hok2) as (Hok3 & Hext' & Hsz').
    split; [ assumption | ].
    split; [ eapply heap_ext_trans; eassumption | congruence ].
Qed.

End Allocation.

(** ** cfg_insert as a sequence of steps *)

Section Insert.

Implicit Types (h : list cfg_t) (s : state) (c : cfg_t).

Lemma points_to_among h new c : points_to new c -> among_successors h new c.
Proof.
  unfold points_to, among_successors, successor_addresses. intros Hin.
  change (addr_of h new) with (slot_addr h (Some new)).
  now apply list_elem_of_fmap_2.
Qed.

(** A pointer past the end of the heap is in no successor array. *)
Lemma fresh_not_points n c : slots_ok n c -> ~ points_to n c.
Proof.
  unfold points_to, out_edges. intros Hslots Hin.
  apply elem_of_take in Hin. destruct Hin as (i & Hi & Hlt).
  destruct (Hslots i Hlt) as (q & Hq & Hqn).
  rewrite Hq in Hi. injection Hi as ->. lia.
Qed.

Lemma out_edges_nil c : nb_out c = 0 -> out_edges c = [].
Proof. unfold out_edges. now intros ->. Qed.

Lemma matching_call_in_stack s new top :
  matching_call s new = Some top -> top ∈ stack s.
Proof.
  intros H. apply matching_call_Some in H.
  destruct H as (rest & t & n & Hs & _). rewrite Hs. left.
Qed.

Lemma aux_outcome_steps ins s P new r s' :
  state_ok s -> (new < length (heap s))%nat ->
  (forall c, heap s !! P = Some c -> ~ points_to new c) ->
  aux_outcome s P new r s' ->
  rtc (state_step ins) s s'.
Proof.
  intros Hok Hnew Hfresh Hout.
  destruct Hout as
    [ c Hc Hfull | c Hc Hret H0 Hfree | c Hc Hty H1 | c Hc Hty Htaken
    | c Hc Hty Htaken | c Hc Hty Hmc | c top t Hc Hty Hmc Ht Hdup
    | c top t Hc Hty Hmc Ht Hdup ].
  - apply rtc_refl.
  - apply rtc_once. eapply step_edge; try eassumption.
    + unfold can_append. rewrite H0. destruct (type (instruction c)); auto.
    + unfold points_to. rewrite (out_edges_nil _ H0). apply not_elem_of_nil.
  - apply rtc_once. eapply step_edge; try eassumption.
    + unfold can_append. rewrite Hty. now right.
    + now apply Hfresh.
  - apply rtc_once. eapply step_edge; try eassumption.
    + unfold can_append. now rewrite Hty.
    + now apply Hfresh.
  - apply rtc_refl.
  - apply rtc_once. eapply step_edge; try eassumption.
    + unfold can_append. now rewrite Hty.
    + now apply Hfresh.
  - apply rtc_once. apply step_pop.
  - eapply rtc_l; [ apply step_pop | ].
    apply rtc_once.
    change (with_heap (add_edge (heap s) top new)
              (with_stack (stack_pop (stack s)) s))
      with (with_heap
              (add_edge (heap (with_stack (stack_pop (stack s)) s)) top new)
              (with_stack (stack_pop (stack s)) s)).
    eapply step_edge; try eassumption.
    + destruct (ok_stack _ Hok top (matching_call_in_stack _ _ _ Hmc))
        as (t' & Ht' & Hcall).
      assert (t' = t) by congruence. subst t'.
      unfold can_append. now rewrite Hcall.
    + intros Hp. apply Hdup. now apply points_to_among.
Qed.

Lemma cfg_insert_steps s P ins str :
  state_ok s -> (P < length (heap s))%nat ->
  exists r s', cfg_insert s (Some P) ins str = Ok (r, s')
               /\ rtc (state_step ins) s s'
               /\ forall n, r = Some n -> (n < length (heap s'))%nat.
Proof.
  intros Hok HP. unfold cfg_insert.
  destruct (hashtable_lookup_total (heap s) (ht s) ins (ok_buckets _ Hok))
    as [found Hlook].
  rewrite Hlook. cbn [bind].
  destruct (deref_valid _ _ HP) as [p Hp].
  destruct found as [new | ].
  - (* the instruction is known *)
    apply hashtable_lookup_Some_inv in Hlook.
    destruct Hlook as (b & n & Hb & Hin & Hn & Haddr).
    assert (Hnew : (new < length (heap s))%nat)
      by (eapply lookup_lt_Some, Hn).
    rewrite (deref_ok _ _ _ Hp). cbn [bind].
    set (s1 := if decide (type (instruction p) = CALL)
               then with_stack (stack_push (stack s) P) s else s).
    assert (Hheap : heap s1 = heap s)
      by (unfold s1; now destruct (decide _)).
    assert (Hsteps1 : rtc (state_step ins) s s1).
    { unfold s1. destruct (decide _) as [Hcall | _]; [ | apply rtc_refl ].
      apply rtc_once. eapply step_push; eassumption. }
    destruct (state_steps_ok _ _ _ Hok Hsteps1) as (Hok1 & _ & _).
    rewrite Hheap, (deref_ok _ _ _ Hn). cbn [bind].
    rewrite (is_successor_ok _ _ _ _ Hp
               (ok_slots _ _ (ok_nodes _ Hok _ _ Hp))).
    cbn [bind]. case_bool_decide as Hdup.
    + do 2 eexists. split; [ reflexivity | ]. split; [ assumption | ].
      intros n' [= <-]. now rewrite Hheap.
    + destruct (aux_cfg_insert_outcome s1 P new Hok1)
        as (r & s' & Haux & Hout); rewrite ?Hheap; try assumption.
      rewrite Haux. exists r, s'. split; [ reflexivity | ].
      assert (Hsteps2 : rtc (state_step ins) s1 s').
      { eapply aux_outcome_steps; try eassumption.
        - now rewrite Hheap.
        - rewrite Hheap. intros c Hc Hpt.
          assert (c = p) by congruence. subst c. apply Hdup.
          rewrite <- (addr_of_lookup _ _ _ Hn).
          now apply points_to_among. }
      split; [ eapply rtc_trans; eassumption | ].
      intros n' ->.
      destruct (state_steps_ok _ _ _ Hok1 Hsteps2) as (_ & [Hlen _] & _).
      assert (r_new : Some n' = None \/ Some n' = Some new)
        by (destruct Hout; auto).
      destruct r_new as [ | [= ->] ]; [ discriminate | ].
      rewrite Hheap in Hlen. lia.
  - (* first time seeing this instruction *)
    destruct (cfg_new_ok s ins str Hok) as (t' & Hnew & Hsz & Hok1).
    rewrite Hnew. cbn [bind fst snd].
    set (new := length (heap s)).
    set (s1 := mk_state (heap s ++ [new_node ins str]) t'
                 (stack s) (tail_entries s)) in *.
    assert (Hstep1 : state_step ins s s1).
    { change s1 with (snd (new, s1)). eapply step_alloc; eassumption. }
    assert (Hp1 : heap s1 !! P = Some p) by now apply lookup_app_l_Some.
    rewrite (deref_ok _ _ _ Hp1). cbn [bind].
    set (s2 := if decide (type (instruction p) = CALL)
               then with_stack (stack_push (stack s1) P)
                      (with_tail_entries
                         (list_insert_after (tail_entries s1) new) s1)
               else s1).
    assert (Hheap : heap s2 = heap s1)
      by (unfold s2; now destruct (decide _)).
    assert (Hsteps2 : rtc (state_step ins) s1 s2).
    { unfold s2. destruct (decide _) as [Hcall | _]; [ | apply rtc_refl ].
      eapply rtc_l; [ apply step_roster | ].
      apply rtc_once.
      apply (step_push ins
               (with_tail_entries
                  (list_insert_after (tail_entries s1) new) s1) P p);
        [ exact Hp1 | exact Hcall ]. }
    destruct (state_steps_ok _ _ _ Hok1 Hsteps2) as (Hok2 & _ & _).
    assert (Hlen1 : length (heap s1) = S (length (heap s)))
      by (simpl; rewrite length_app; simpl; lia).
    destruct (aux_cfg_insert_outcome s2 P new Hok2)
      as (r & s' & Haux & Hout); rewrite ?Hheap, ?Hlen1; try (unfold new; lia).
    rewrite Haux. exists r, s'. split; [ reflexivity | ].
    assert (Hsteps3 : rtc (state_step ins) s2 s').
    { eapply aux_outcome_steps; try eassumption.
      - rewrite Hheap, Hlen1. unfold new. lia.
      - rewrite Hheap. intros c Hc. assert (c = p) by congruence. subst c.
        apply fresh_not_points. apply (ok_nodes _ Hok _ _ Hp). }
    split.
    + eapply rtc_l; [ exact Hstep1 | ].
      eapply rtc_trans; eassumption.
    + intros n' ->.
      destruct (state_steps_ok _ _ _ Hok2 Hsteps3) as (_ & [Hlen _] & _).
      assert (r_new : Some n' = None \/ Some n' = Some new)
        by (destruct Hout; auto).
      destruct r_new as [ | [= ->] ]; [ discriminate | ].
      rewrite Hheap, Hlen1 in Hlen. unfold new. lia.
Qed.

End Insert.

(** ** The tracing loop *)

Section Loop.

Implicit Types (s : state) (t : tracker) (o : observation).

Lemma state_ok_start : state_ok (st tracker_start).
Proof.
  split; simpl.
  - intros p c Hp. now rewrite lookup_nil in Hp.
  - intros p Hp. now apply elem_of_nil in Hp.
  - intros index b Hb. now rewrite lookup_empty in Hb.
Qed.

Lemma tracker_ok_start : tracker_ok tracker_start.
Proof. split; [ apply state_ok_start | discriminate | reflexivity ]. Qed.

(** One observation never faults; when the build goes on, the state has
    moved by elementary steps. *)
Lemma observe_steps t o :
  tracker_ok t ->
  exists r, observe t o = Ok r
    /\ forall t', r = Some t' ->
         exists ins, instr_of o = Some ins
           /\ rtc (state_step ins) (st t) (st t')
           /\ tracker_ok t'.
Proof.
  intros [Hok Hcfg Hstart]. unfold observe. fold (instr_of o).
  destruct (instr_of o) as [ins | ] eqn:Hins;
    [ | eexists; split; [ reflexivity | discriminate ] ].
  destruct (cfg t) as [P | ] eqn:HP.
  - destruct (cfg_insert_steps (st t) P ins (name_node o) Hok (Hcfg _ eq_refl))
      as (r & s' & Hinsert & Hsteps & Hvalid).
    rewrite Hinsert. cbn [bind fst snd].
    destruct r as [n | ]; [ | eexists; split; [ reflexivity | discriminate ] ].
    eexists. split; [ reflexivity | ]. intros t' [= <-].
    exists ins. split; [ reflexivity | ]. split; [ exact Hsteps | ].
    destruct (state_steps_ok _ _ _ Hok Hsteps) as (Hok' & _ & _).
    split; simpl; [ assumption | | discriminate ].
    intros P' [= <-]. now apply Hvalid.
  - rewrite (Hstart eq_refl) in *.
    destruct (cfg_new_ok (st tracker_start) ins (name_node o) Hok)
      as (t1 & Hnew & Hsz & Hok1).
    rewrite Hnew. cbn [bind fst snd].
    eexists. split; [ reflexivity | ]. intros t' [= <-].
    exists ins. split; [ reflexivity | ]. cbn [st].
    assert (Hsteps : rtc (state_step ins) (st tracker_start)
              (with_tail_entries (list_new (length (heap (st tracker_start))))
                 (mk_state (heap (st tracker_start) ++ [new_node ins (name_node o)])
                    t1 (stack (st tracker_start))
                    (tail_entries (st tracker_start))))).
    { eapply rtc_l; [ | apply rtc_once, step_roster ].
      match goal with |- state_step _ _ ?s1 =>
        change s1 with (snd (length (heap (st tracker_start)), s1)) end.
      eapply step_alloc; [ reflexivity | exact Hnew ]. }
    split; [ exact Hsteps | ].
    destruct (state_steps_ok _ _ _ Hok Hsteps) as (Hok' & _ & _).
    split; [ exact Hok' | | discriminate ].
    intros P' [= <-]. simpl. lia.
Qed.

(** A run never faults. *)
Lemma observe_all_total os t :
  tracker_ok t -> exists r, observe_all t os = Ok r.
Proof.
  revert t. induction os as [ | o os IH ]; intros t Hok; simpl; [ eauto | ].
  destruct (observe_steps t o Hok) as (r & Hobs & Hnext).
  rewrite Hobs. cbn [bind]. destruct r as [t' | ]; [ | eauto ].
  destruct (Hnext t' eq_refl) as (ins & _ & _ & Hok'). now apply IH.
Qed.

(** Induction over a run, step by step. *)
Lemma observe_all_invariant (I : instr_t -> Prop) (Inv : state -> Prop) :
  (forall ins s s', I ins -> state_ok s -> Inv s ->
     state_step ins s s' -> Inv s') ->
  forall os t t',
    tracker_ok t -> Inv (st t) ->
    (forall o ins, o ∈ os -> instr_of o = Some ins -> I ins) ->
    observe_all t os = Ok (Some t') ->
    tracker_ok t' /\ Inv (st t').
Proof.
  intros Hstep os. induction os as [ | o os IH ]; intros t t' Hok Hinv HI.
  - simpl. intros [= <-]. now split.
  - simpl. destruct (observe_steps t o Hok) as (r & Hobs & Hnext).
    rewrite Hobs. cbn [bind]. destruct r as [t1 | ]; [ | discriminate ].
    destruct (Hnext t1 eq_refl) as (ins & Hins & Hsteps & Hok1).
    apply IH; try assumption.
    + assert (HIins : I ins) by (eapply HI; [ left | exact Hins ]).
      clear - Hstep Hsteps Hinv HIins Hok.
      destruct Hok as [Hok _ _]. revert Hok Hinv.
      induction Hsteps as [ s | s1 s2 s3 Hs Hss IHs ]; intros Hok Hinv.
      * assumption.
      * apply IHs.
        -- eapply state_step_ok; eassumption.
        -- eapply Hstep; eassumption.
    + intros o' ins' Ho'. apply HI. now right.
Qed.

Lemma reachable_tracker_ok t : reachable t -> tracker_ok t.
Proof.
  intros [os Hos].
  destruct (observe_all_invariant (fun _ => True) (fun _ => True)) 
    with (os := os) (t := tracker_start) (t' := t) as [Hok _]; auto.
  apply tracker_ok_start.
Qed.

Lemma reachable_state_ok t : reachable t -> state_ok (st t).
Proof. intros H. apply reachable_tracker_ok in H. apply H. Qed.

End Loop.

(** ** What an installed edge looks like *)

Section Installed.

Implicit Types (h : list cfg_t) (s : state) (c : cfg_t).

Lemma add_edge_installed h src new c :
  h !! src = Some c -> node_ok (length h) c -> can_append c ->
  edge_installed h (add_edge h src new) src new.
Proof.
  intros Hsrc Hok Hcan.
  pose proof (grow_node_room _ _ Hok Hcan) as Hroom.
  exists c. eexists. split; [ exact Hsrc | ].
  split; [ apply (add_edge_lookup_Some _ _ _ _ _ _ Hsrc Hsrc) | ].
  destruct (decide (src = src)) as [_ | ]; [ | congruence ].
  split; [ | split ].
  - destruct (decide (new = src)); simpl;
      now apply list_lookup_insert_eq.
  - destruct (decide (new = src)); simpl;
      now rewrite grow_node_nb_out.
  - intros p cp Hne Hp. eexists.
    split; [ apply (add_edge_lookup_Some _ _ _ _ _ _ Hsrc Hp) | ].
    destruct (decide (src = p)); [ congruence | ].
    destruct (decide (new = p)); simpl; auto.
Qed.

(** cfg_insert on an instruction that is already in the index. *)
Lemma cfg_insert_known s P p ins str new :
  state_ok s -> heap s !! P = Some p ->
  hashtable_lookup (heap s) (ht s) ins = Ok (Some new) ->
  cfg_insert s (Some P) ins str
  = let s1 := if decide (type (instruction p) = CALL)
              then with_stack (stack_push (stack s) P) s else s in
    if bool_decide (among_successors (heap s) new p)
    then Ok (Some new, s1)
    else aux_cfg_insert s1 P (Some new).
Proof.
  intros Hok Hp Hlook. unfold cfg_insert. rewrite Hlook. cbn [bind].
  apply hashtable_lookup_Some_inv in Hlook.
  destruct Hlook as (b & n & Hb & Hin & Hn & Haddr).
  rewrite (deref_ok _ _ _ Hp). cbn [bind]. cbv zeta.
  assert (Hheap : heap (if decide (type (instruction p) = CALL)
                        then with_stack (stack_push (stack s) P) s else s)
                  = heap s) by now destruct (decide _).
  rewrite Hheap, (deref_ok _ _ _ Hn). cbn [bind].
  rewrite (is_successor_ok _ _ _ _ Hp
             (ok_slots _ _ (ok_nodes _ Hok _ _ Hp))).
  cbn [bind].
  assert (Hdec : bool_decide (among_successors (heap s) new p)
                 = bool_decide (address (instruction n)
                                  ∈ successor_addresses (heap s) p)).
  { apply bool_decide_ext. unfold among_successors.
    now rewrite (addr_of_lookup _ _ _ Hn). }
  now rewrite Hdec.
Qed.

(** cfg_insert on an instruction seen for the first time. *)
Lemma cfg_insert_fresh s P p ins str :
  state_ok s -> heap s !! P = Some p ->
  hashtable_lookup (heap s) (ht s) ins = Ok None ->
  exists t',
    cfg_new s ins str
    = Ok (length (heap s),
          mk_state (heap s ++ [new_node ins str]) t'
            (stack s) (tail_entries s))
    /\ state_ok (mk_state (heap s ++ [new_node ins str]) t'
                   (stack s) (tail_entries s))
    /\ cfg_insert s (Some P) ins str
       = let new := length (heap s) in
         let s1 := mk_state (heap s ++ [new_node ins str]) t'
                     (stack s) (tail_entries s) in
         let s2 := if decide (type (instruction p) = CALL)
                   then with_stack (stack_push (stack s1) P)
                          (with_tail_entries
                             (list_insert_after (tail_entries s1) new) s1)
                   else s1 in
         aux_cfg_insert s2 P (Some new).
Proof.
  intros Hok Hp Hlook. unfold cfg_insert. rewrite Hlook. cbn [bind].
  destruct (cfg_new_ok s ins str Hok) as (t' & Hnew & _ & Hok1).
  exists t'. split; [ exact Hnew | ]. split; [ exact Hok1 | ].
  rewrite Hnew. cbn [bind fst snd].
  assert (Hp1 : (heap s ++ [new_node ins str]) !! P = Some p)
    by now apply lookup_app_l_Some.
  cbn [heap]. rewrite (deref_ok _ _ _ Hp1). reflexivity.
Qed.

End Installed.

(** ** The shadow stack and returns *)

(** C10. The stack operations are total at the empty stack, and a return
    observed with an empty shadow stack takes the append path from the RET
    node itself: the stack is not consulted and nothing faults. *)
Theorem empty_stack_is_safe s P c new :
  state_ok s -> heap s !! P = Some c -> type (instruction c) = RET ->
  (new < length (heap s))%nat -> stack s = [] ->
  stack_get_top (stack s) = None
  /\ stack_pop (stack s) = []
  /\ aux_cfg_insert s P (Some new)
     = Ok (Some new, with_heap (add_edge (heap s) P new) s)
  /\ edge_installed (heap s) (add_edge (heap s) P new) P new.
Proof.
  intros Hok Hc Hret Hnew Hstack.
  rewrite Hstack. split; [ reflexivity | ]. split; [ reflexivity | ].
  assert (HP : (P < length (heap s))%nat) by (eapply lookup_lt_Some, Hc).
  split.
  - destruct (aux_cfg_insert_outcome s P new Hok HP Hnew)
      as (r & s' & Haux & Hout).
    rewrite Haux.
    assert (Hmc : matching_call s new = None)
      by (unfold matching_call; now rewrite Hstack).
    destruct Hout as
      [ c' Hc' [[Hty _] | [Hty _]] | c' Hc' Hty | c' Hc' Hty _ | c' Hc' Hty _
      | c' Hc' Hty _ | c' Hc' Hty _ | c' top t Hc' Hty Hmc' _ _
      | c' top t Hc' Hty Hmc' _ _ ];
      try (assert (c' = c) by congruence; subst c'); try congruence.
  - apply (add_edge_installed _ _ _ c); try assumption.
    + exact (ok_nodes _ Hok _ _ Hc).
    + unfold can_append. now rewrite Hret.
Qed.

Lemma run_S1 :
  observe_all tracker_start trace_S1 = Ok (Some (run trace_S1)).
Proof. vm_compute. reflexivity. Qed.

Lemma empty_stack_is_safe_witness :
  aux_cfg_insert (st (run trace_S1)) 2 (Some 0%nat)
  = Ok (Some 0%nat,
        with_heap (add_edge (heap (st (run trace_S1))) 2 0) (st (run trace_S1))).
Proof.
  refine (proj1 (proj2 (proj2
    (empty_stack_is_safe (st (run trace_S1)) 2
       (node_at (run trace_S1) 2) 0%nat _ _ _ _ _)))).
  - apply reachable_state_ok. exists trace_S1. apply run_S1.
  - vm_compute. reflexivity.
  - vm_compute. reflexivity.
  - vm_compute. lia.
  - vm_compute. reflexivity.
Defined.

Lemma return_address_no_overflow i :
  0 <= address i -> 0 <= size i -> address i + size i < 2 ^ 64 ->
  return_address i = address i + size i.
Proof. intros. unfold return_address, u64. apply Z.mod_small. lia. Qed.

Lemma aux_outcome_frame s P new r s' :
  aux_outcome s P new r s' ->
  ht s' = ht s /\ tail_entries s' = tail_entries s
  /\ length (heap s') = length (heap s).
Proof.
  intros Hout. destruct Hout; simpl; rewrite ?add_edge_length; auto.
Qed.

(** aux_cfg_insert on a RET node [P].  When the top [C] of the shadow stack
    returns to [new], [C] is popped and the edge goes from [C] to [new],
    unless [new] is already among the successors of [C], in which case the
    graph is left as it is; [P] gets no successor either way.  When the
    stack is empty or its top does not match, the edge is appended to [P]
    itself. *)
Lemma aux_cfg_insert_after_ret s P c new n :
  state_ok s -> heap s !! P = Some c -> type (instruction c) = RET ->
  heap s !! new = Some n ->
  (forall C rest t,
     stack s = C :: rest -> heap s !! C = Some t ->
     address (instruction n) = return_address (instruction t) ->
     (among_successors (heap s) new t ->
        aux_cfg_insert s P (Some new) = Ok (Some new, with_stack rest s))
     /\ (~ among_successors (heap s) new t ->
           aux_cfg_insert s P (Some new)
           = Ok (Some new,
                 with_heap (add_edge (heap s) C new) (with_stack rest s))
           /\ edge_installed (heap s) (add_edge (heap s) C new) C new
           /\ P <> C))
  /\ (stack s = []
      \/ (exists C rest t,
            stack s = C :: rest /\ heap s !! C = Some t
            /\ address (instruction n) <> return_address (instruction t)) ->
      aux_cfg_insert s P (Some new)
      = Ok (Some new, with_heap (add_edge (heap s) P new) s)
      /\ edge_installed (heap s) (add_edge (heap s) P new) P new)
  /\ (forall i, 0 <= address i -> 0 <= size i ->
        address i + size i < 2 ^ 64 ->
        return_address i = address i + size i).
Proof.
  intros Hok Hc Hret Hn.
  assert (HP : (P < length (heap s))%nat) by (eapply lookup_lt_Some, Hc).
  assert (Hnew : (new < length (heap s))%nat) by (eapply lookup_lt_Some, Hn).
  destruct (aux_cfg_insert_outcome s P new Hok HP Hnew)
    as (r & s' & Haux & Hout).
  rewrite Haux. split; [ | split; [ | apply return_address_no_overflow ] ].
  - intros C rest t Hstack Ht Hmatch.
    assert (Hmc : matching_call s new = Some C).
    { unfold matching_call. rewrite Hstack, Ht, Hn.
      now rewrite (proj2 (Z.eqb_eq _ _) Hmatch). }
    assert (Hpop : stack_pop (stack s) = rest) by now rewrite Hstack.
    destruct (ok_stack _ Hok C) as (tc & Htc & Hcall);
      [ rewrite Hstack; left | ].
    assert (tc = t) by congruence. subst tc.
    split.
    + intros Hamong.
      destruct Hout as
        [ c' Hc' [[Hty _] | [Hty _]] | c' Hc' Hty | c' Hc' Hty _ | c' Hc' Hty _
        | c' Hc' Hty _ | c' Hc' Hty Hmc' | c' top t' Hc' Hty Hmc' Ht' Hdup
        | c' top t' Hc' Hty Hmc' Ht' Hdup ];
        try (assert (c' = c) by congruence; subst c'); congruence.
    + intros Hnot. split; [ | split ].
      * destruct Hout as
          [ c' Hc' [[Hty _] | [Hty _]] | c' Hc' Hty | c' Hc' Hty _
          | c' Hc' Hty _ | c' Hc' Hty _ | c' Hc' Hty Hmc'
          | c' top t' Hc' Hty Hmc' Ht' Hdup
          | c' top t' Hc' Hty Hmc' Ht' Hdup ];
          try (assert (c' = c) by congruence; subst c'); congruence.
      * apply (add_edge_installed _ _ _ t); try assumption.
        -- exact (ok_nodes _ Hok _ _ Ht).
        -- unfold can_append. now rewrite Hcall.
      * intros ->. congruence.
  - intros Hun.
    assert (Hmc : matching_call s new = None).
    { unfold matching_call.
      destruct Hun as [-> | (C & rest & t & -> & Ht & Hne)]; [ reflexivity | ].
      rewrite Ht, Hn. now rewrite (proj2 (Z.eqb_neq _ _) Hne). }
    split.
    + destruct Hout as
        [ c' Hc' [[Hty _] | [Hty _]] | c' Hc' Hty | c' Hc' Hty _ | c' Hc' Hty _
        | c' Hc' Hty _ | c' Hc' Hty Hmc' | c' top t' Hc' Hty Hmc' Ht' Hdup
        | c' top t' Hc' Hty Hmc' Ht' Hdup ];
        try (assert (c' = c) by congruence; subst c'); try congruence.
    + apply (add_edge_installed _ _ _ c); try assumption.
      * exact (ok_nodes _ Hok _ _ Hc).
      * unfold can_append. now rewrite Hret.
Qed.

Lemma run_S2_again :
  observe_all tracker_start trace_S2_again = Ok (Some (run trace_S2_again)).
Proof. vm_compute. reflexivity. Qed.

(** ** Re-observing a known instruction *)

(** C6. Observing an instruction that is in the index creates no node (the
    heap keeps its size and the index is untouched); and when it is already
    among the successors of the predecessor [P], cfg_insert returns it with
    the graph, the index and the roster unchanged, and doing it again
    changes nothing either. *)
Theorem known_instruction_is_idempotent s P p ins str new :
  state_ok s -> heap s !! P = Some p ->
  hashtable_lookup (heap s) (ht s) ins = Ok (Some new) ->
  (exists r s',
     cfg_insert s (Some P) ins str = Ok (r, s')
     /\ length (heap s') = length (heap s) /\ ht s' = ht s)
  /\ (among_successors (heap s) new p ->
      exists s',
        cfg_insert s (Some P) ins str = Ok (Some new, s')
        /\ heap s' = heap s /\ ht s' = ht s
        /\ tail_entries s' = tail_entries s
        /\ exists s'',
             cfg_insert s' (Some P) ins str = Ok (Some new, s'')
             /\ heap s'' = heap s).
Proof.
  intros Hok Hp Hlook.
  pose proof (cfg_insert_known s P p ins str new Hok Hp Hlook) as Heq.
  cbv zeta in Heq.
  set (s1 := if decide (type (instruction p) = CALL)
             then with_stack (stack_push (stack s) P) s else s) in *.
  assert (Hframe : heap s1 = heap s /\ ht s1 = ht s
                   /\ tail_entries s1 = tail_entries s)
    by (unfold s1; now destruct (decide _)).
  destruct Hframe as (Hheap & Hht & Htail).
  assert (Hok1 : state_ok s1).
  { unfold s1. destruct (decide _) as [Hcall | _]; [ | assumption ].
    eapply (state_step_ok ins); [ exact Hok | ].
    eapply step_push; eassumption. }
  split.
  - rewrite Heq. case_bool_decide as Hdup.
    + exists (Some new), s1. now rewrite Hheap, Hht.
    + apply hashtable_lookup_Some_inv in Hlook.
      destruct Hlook as (b & n & _ & _ & Hn & _).
      destruct (aux_cfg_insert_outcome s1 P new Hok1)
        as (r & s' & Haux & Hout).
      * rewrite Hheap. eapply lookup_lt_Some, Hp.
      * rewrite Hheap. eapply lookup_lt_Some, Hn.
      * exists r, s'. split; [ exact Haux | ].
        destruct (aux_outcome_frame _ _ _ _ _ Hout) as (Hht' & _ & Hlen).
        split; congruence.
  - intros Hamong. exists s1. rewrite Heq.
    rewrite bool_decide_eq_true_2 by assumption.
    split; [ reflexivity | ]. split; [ assumption | ].
    split; [ assumption | ]. split; [ assumption | ].
    assert (Hp1 : heap s1 !! P = Some p) by now rewrite Hheap.
    assert (Hlook1 : hashtable_lookup (heap s1) (ht s1) ins = Ok (Some new))
      by now rewrite Hheap, Hht.
    rewrite (cfg_insert_known s1 P p ins str new Hok1 Hp1 Hlook1).
    cbv zeta. rewrite Hheap.
    rewrite bool_decide_eq_true_2 by assumption.
    eexists. split; [ reflexivity | ].
    now destruct (decide _).
Qed.

Lemma run_S2 :
  observe_all tracker_start trace_S2 = Ok (Some (run trace_S2)).
Proof. vm_compute. reflexivity. Qed.

Lemma known_instruction_is_idempotent_witness :
  exists s',
    cfg_insert (st (run trace_S2)) (Some 0%nat)
      (mk_instr 0x2000 BASIC 1 [0x90]) String.EmptyString
    = Ok (Some 1%nat, s')
    /\ heap s' = heap (st (run trace_S2)).
Proof.
  destruct (proj2
    (known_instruction_is_idempotent (st (run trace_S2)) 0
       (node_at (run trace_S2) 0) (mk_instr 0x2000 BASIC 1 [0x90])
       String.EmptyString 1%nat
       (reachable_state_ok _ (ex_intro _ trace_S2 run_S2))
       ltac:(vm_compute; reflexivity) ltac:(vm_compute; reflexivity))
    ltac:(vm_compute; apply list_elem_of_In; simpl; auto))
    as (s' & Heq & Hheap & _).
  exists s'. split; assumption.
Defined.

(** ** Out-degree bounds *)

Lemma node_ok_degree n c :
  node_ok n c ->
  (type (instruction c) = BASIC -> nb_out c <= 1)
  /\ (type (instruction c) = BRANCH -> nb_out c <= 2).
Proof.
  intros [_ _ _ Hshape]. unfold shape_ok in Hshape.
  split; intros Hty; rewrite Hty in Hshape; lia.
Qed.

Lemma aux_cfg_insert_full s P c new :
  state_ok s -> heap s !! P = Some c -> full c ->
  (new < length (heap s))%nat ->
  aux_cfg_insert s P (Some new) = Ok (None, s).
Proof.
  intros Hok Hc Hfull Hnew.
  assert (HP : (P < length (heap s))%nat) by (eapply lookup_lt_Some, Hc).
  destruct (aux_cfg_insert_outcome s P new Hok HP Hnew)
    as (r & s' & Haux & Hout).
  rewrite Haux. unfold full in Hfull.
  destruct Hout as
    [ c' Hc' _ | c' Hc' Hty H0 _ | c' Hc' Hty H1 | c' Hc' Hty _
    | c' Hc' Hty _ | c' Hc' Hty _ | c' top t Hc' Hty _ _ _
    | c' top t Hc' Hty _ _ _ ];
    try reflexivity;
    assert (c' = c) by congruence; subst c';
    exfalso; destruct Hfull as [[Hb Hn] | [Hb Hn]]; try congruence; lia.
Qed.

Lemma instr_of_address o ins : instr_of o = Some ins -> address ins = ip o.
Proof.
  unfold instr_of, instr_new. destruct (insn_size o =? 0); [ discriminate | ].
  now intros [= <-].
Qed.

(** Observing, after a full node, an instruction that is not one of its
    successors ends the build. *)
Lemma observe_full t P c o :
  tracker_ok t -> cfg t = Some P -> heap (st t) !! P = Some c -> full c ->
  ip o ∉ successor_addresses (heap (st t)) c ->
  observe t o = Ok None.
Proof.
  intros [Hok Hcfg _] HP Hc Hfull Hnot. unfold observe. fold (instr_of o).
  destruct (instr_of o) as [ins | ] eqn:Hins; [ | reflexivity ].
  rewrite HP.
  assert (Hnocall : type (instruction c) <> CALL)
    by (destruct Hfull as [[Hty _] | [Hty _]]; congruence).
  destruct (hashtable_lookup_total (heap (st t)) (ht (st t)) ins
              (ok_buckets _ Hok)) as [found Hlook].
  destruct found as [new | ].
  - rewrite (cfg_insert_known _ _ _ _ _ _ Hok Hc Hlook). cbv zeta.
    apply hashtable_lookup_Some_inv in Hlook.
    destruct Hlook as (b & n & _ & _ & Hn & Haddr).
    rewrite bool_decide_eq_false_2.
    + rewrite decide_False by assumption.
      rewrite (aux_cfg_insert_full _ _ _ _ Hok Hc Hfull); [ reflexivity | ].
      eapply lookup_lt_Some, Hn.
    + unfold among_successors.
      rewrite (addr_of_lookup _ _ _ Hn), Haddr, (instr_of_address _ _ Hins).
      exact Hnot.
  - destruct (cfg_insert_fresh _ _ _ _ (name_node o) Hok Hc Hlook)
      as (t' & _ & Hok1 & Heq).
    rewrite Heq. cbv zeta. rewrite decide_False by assumption.
    rewrite (aux_cfg_insert_full _ P c); try assumption; try reflexivity.
    + simpl. now apply lookup_app_l_Some.
    + simpl. rewrite length_app. simpl. lia.
Qed.

(** C7. In every reachable state a BASIC node has at most one successor and
    a BRANCH node at most two; the insertion of one more successor fails
    and leaves the state as it is, and the observation that asks for it
    ends the build. *)
Theorem basic_and_branch_out_degree :
  (forall t p c, reachable t -> heap (st t) !! p = Some c ->
     (type (instruction c) = BASIC -> nb_out c <= 1)
     /\ (type (instruction c) = BRANCH -> nb_out c <= 2))
  /\ (forall t P c new, reachable t -> heap (st t) !! P = Some c ->
        full c -> (new < length (heap (st t)))%nat ->
        aux_cfg_insert (st t) P (Some new) = Ok (None, st t))
  /\ (forall t P c o, reachable t -> cfg t = Some P ->
        heap (st t) !! P = Some c -> full c ->
        ip o ∉ successor_addresses (heap (st t)) c ->
        observe t o = Ok None).
Proof.
  split; [ | split ].
  - intros t p c Hreach Hc. eapply node_ok_degree.
    exact (ok_nodes _ (reachable_state_ok _ Hreach) _ _ Hc).
  - intros t P c new Hreach. apply aux_cfg_insert_full.
    now apply reachable_state_ok.
  - intros t P c o Hreach. apply observe_full.
    now apply reachable_tracker_ok.
Qed.

Lemma run_basic :
  observe_all tracker_start trace_basic = Ok (Some (run trace_basic)).
Proof. vm_compute. reflexivity. Qed.

Lemma basic_and_branch_out_degree_witness :
  nb_out (node_at (run trace_basic) 0) <= 1
  /\ aux_cfg_insert (st (run trace_basic)) 0 (Some 0%nat)
     = Ok (None, st (run trace_basic))
  /\ observe (run trace_basic) (obs 0x1002 1 [0x90]) = Ok None.
Proof.
  pose proof (ex_intro (fun os => observe_all tracker_start os = _)
                trace_basic run_basic) as Hreach.
  destruct basic_and_branch_out_degree as (Hdeg & Hfail & Habort).
  split; [ | split ].
  - apply (Hdeg (run trace_basic) 0%nat); [ exact Hreach | | ];
      vm_compute; reflexivity.
  - apply (Hfail (run trace_basic) 0%nat (node_at (run trace_basic) 0));
      [ exact Hreach | vm_compute; reflexivity | | vm_compute; lia ].
    left. split; [ vm_compute; reflexivity | vm_compute; discriminate ].
  - apply (Habort (run trace_basic) 0%nat (node_at (run trace_basic) 0));
      [ exact Hreach | vm_compute; reflexivity | vm_compute; reflexivity | | ].
    + left. split; [ vm_compute; reflexivity | vm_compute; discriminate ].
    + vm_compute. intros Hin. apply list_elem_of_In in Hin.
      simpl in Hin. destruct Hin as [Hin | []]. discriminate.
Defined.

(** ** Capacity of the successor arrays *)

Lemma node_ok_capacity n c :
  node_ok n c ->
  (Z.to_nat (nb_out c) <= length (successor c))%nat
  /\ is_pow2 (length (successor c)).
Proof.
  intros [_ Hcap _ Hshape]. split; [ assumption | ].
  unfold shape_ok in Hshape. unfold is_pow2.
  destruct (type (instruction c)).
  - exists 0%nat. now destruct Hshape.
  - exists 1%nat. now destruct Hshape.
  - destruct Hshape as [k Hk]. eauto.
  - destruct Hshape as [k Hk]. eauto.
  - destruct Hshape as [k Hk]. eauto.
Qed.

(** The capacity after an append: doubled out-degree when is_power_2
    holds, unchanged otherwise. *)
Lemma add_edge_capacity h src new c :
  h !! src = Some c ->
  exists c', add_edge h src new !! src = Some c'
    /\ ((exists k : nat, nb_out c = 2 ^ Z.of_nat (S k)) ->
        length (successor c') = Z.to_nat (2 * nb_out c))
    /\ (~ (exists k : nat, nb_out c = 2 ^ Z.of_nat (S k)) ->
        length (successor c') = length (successor c)).
Proof.
  intros Hsrc. eexists.
  split; [ apply (add_edge_lookup_Some _ _ _ _ _ _ Hsrc Hsrc) | ].
  destruct (decide (src = src)) as [_ | ]; [ | congruence ].
  assert (Hlen : forall c0,
            length (successor
              ((if decide (new = src) then edge_dst (name c) else id)
                 (add_edge_node new c0)))
            = length (successor (grow_node c0))).
  { intros c0. destruct (decide (new = src)); simpl;
      now rewrite length_insert. }
  rewrite Hlen. unfold grow_node. split.
  - intros Hpow. apply is_power_2_spec in Hpow. rewrite Hpow. simpl.
    apply length_realloc.
  - intros Hpow. destruct (is_power_2 (nb_out c)) eqn:Hp; [ | reflexivity ].
    apply is_power_2_spec in Hp. contradiction.
Qed.

(** The append path of aux_cfg_insert: a JUMP node whose first slot is
    taken, or a RET node without a matching call site. *)
Lemma aux_cfg_insert_append s P c new :
  state_ok s -> heap s !! P = Some c -> (new < length (heap s))%nat ->
  (type (instruction c) = JUMP /\ successor c !! 0%nat <> Some None)
  \/ (type (instruction c) = RET /\ matching_call s new = None) ->
  aux_cfg_insert s P (Some new)
  = Ok (Some new, with_heap (add_edge (heap s) P new) s).
Proof.
  intros Hok Hc Hnew Hcase.
  assert (HP : (P < length (heap s))%nat) by (eapply lookup_lt_Some, Hc).
  destruct (aux_cfg_insert_outcome s P new Hok HP Hnew)
    as (r & s' & Haux & Hout).
  rewrite Haux.
  destruct Hout as
    [ c' Hc' [[Hty _] | [Hty _]] | c' Hc' Hty H0 Hfree | c' Hc' Hty H1
    | c' Hc' Hty _ | c' Hc' Hty _ | c' Hc' Hty _ | c' top t Hc' Hty Hmc _ _
    | c' top t Hc' Hty Hmc _ _ ];
    try reflexivity;
    assert (c' = c) by congruence; subst c';
    destruct Hcase as [[Hj Ht] | [Hr Hm]]; congruence.
Qed.

(** C8 (amended). In every reachable state the out-degree of a node is at
    most the capacity of its successor array, and the capacity is a power of
    two.  On the append path (JUMP, unmatched RET) the array is reallocated
    to twice the out-degree exactly when the out-degree is a power of two
    from 2 on, which is what is_power_2 tests; at out-degree 1 the two
    slots the node was created with are kept. *)
Theorem capacity_and_growth :
  (forall t p c, reachable t -> heap (st t) !! p = Some c ->
     (Z.to_nat (nb_out c) <= length (successor c))%nat
     /\ is_pow2 (length (successor c)))
  /\ (forall n, is_power_2 n = true <-> exists k : nat, n = 2 ^ Z.of_nat (S k))
  /\ (forall t P c new, reachable t -> heap (st t) !! P = Some c ->
        (new < length (heap (st t)))%nat ->
        (type (instruction c) = JUMP /\ successor c !! 0%nat <> Some None)
        \/ (type (instruction c) = RET /\ matching_call (st t) new = None) ->
        exists c',
          aux_cfg_insert (st t) P (Some new)
          = Ok (Some new, with_heap (add_edge (heap (st t)) P new) (st t))
          /\ add_edge (heap (st t)) P new !! P = Some c'
          /\ ((exists k : nat, nb_out c = 2 ^ Z.of_nat (S k)) ->
              length (successor c') = Z.to_nat (2 * nb_out c))
          /\ (~ (exists k : nat, nb_out c = 2 ^ Z.of_nat (S k)) ->
              length (successor c') = length (successor c))).
Proof.
  split; [ | split ].
  - intros t p c Hreach Hc. eapply node_ok_capacity.
    exact (ok_nodes _ (reachable_state_ok _ Hreach) _ _ Hc).
  - apply is_power_2_spec.
  - intros t P c new Hreach Hc Hnew Hcase.
    destruct (add_edge_capacity (heap (st t)) P new c Hc)
      as (c' & Hc' & Hgrow & Hkeep).
    exists c'. split; [ | auto ].
    apply (aux_cfg_insert_append _ _ c); try assumption.
    now apply reachable_state_ok.
Qed.

Lemma run_jump :
  observe_all tracker_start trace_jump = Ok (Some (run trace_jump)).
Proof. vm_compute. reflexivity. Qed.

Lemma capacity_and_growth_witness :
  (Z.to_nat (nb_out (node_at (run trace_jump) 0))
   <= length (successor (node_at (run trace_jump) 0)))%nat
  /\ exists c',
       aux_cfg_insert (st (run trace_jump)) 0 (Some 0%nat)
       = Ok (Some 0%nat,
             with_heap (add_edge (heap (st (run trace_jump))) 0 0)
               (st (run trace_jump)))
       /\ length (successor c') = 2%nat.
Proof.
  pose proof (ex_intro (fun os => observe_all tracker_start os = _)
                trace_jump run_jump) as Hreach.
  destruct capacity_and_growth as (Hcap & _ & Happend).
  split.
  - apply (Hcap (run trace_jump) 0%nat); [ exact Hreach | ].
    vm_compute. reflexivity.
  - destruct (Happend (run trace_jump) 0%nat (node_at (run trace_jump) 0)
                0%nat Hreach)
      as (c' & Haux & _ & _ & Hkeep).
    + vm_compute. reflexivity.
    + vm_compute. lia.
    + left. split; [ vm_compute; reflexivity | vm_compute; discriminate ].
    + exists c'. split; [ exact Haux | ].
      rewrite Hkeep; [ vm_compute; reflexivity | ].
      intros [k Hk].
      assert (Hone : nb_out (node_at (run trace_jump) 0) = 1)
        by (vm_compute; reflexivity).
      rewrite Hone, Nat2Z.inj_succ, Z.pow_succ_r in Hk by lia.
      assert (0 < 2 ^ Z.of_nat k) by (apply Z.pow_pos_nonneg; lia). lia.
Defined.

(** The growth rule as worded fails at out-degree 1: 1 is a power of two
    and is_power_2 rejects it. *)
Lemma growth_guard_rejects_one : ~ grows_at_every_power_of_two.
Proof.
  intros Hclaim. destruct (Hclaim 1) as [_ Hguard]; [ lia | ].
  assert (Hone : is_power_2 1 = true) by (apply Hguard; now exists 0%nat).
  discriminate Hone.
Qed.

(** ** The index finds what it stores *)

(** C9. In every reachable state the lookup of the instruction of a stored
    node returns that node, and no bucket holds an address twice.  An insert
    whose address is already in the bucket reports success and leaves the
    table as it is; every insert keeps the buckets well formed; and the
    lookup scans the bucket selected by the hash of the opcodes and the
    address, comparing addresses only. *)
Theorem lookup_finds_every_stored_node :
  (forall t index b p c, reachable t ->
     buckets (ht (st t)) !! index = Some b -> p ∈ b ->
     heap (st t) !! p = Some c ->
     hashtable_lookup (heap (st t)) (ht (st t)) (instruction c) = Ok (Some p)
     /\ NoDup (addr_of (heap (st t)) <$> b))
  /\ (forall h t CFG c b,
        h !! CFG = Some c ->
        buckets t !! bucket_index t (instruction c) = Some b ->
        (forall p, p ∈ b -> (p < length h)%nat) ->
        address (instruction c) ∈ addr_of h <$> b ->
        hashtable_insert h t CFG = Ok (true, t))
  /\ (forall h t CFG c,
        h !! CFG = Some c -> buckets_ok h t ->
        exists t', hashtable_insert h t CFG = Ok (true, t')
                   /\ buckets_ok h t')
  /\ (forall h t i,
        hashtable_lookup h t i
        = match buckets t !! (fasthash64 (opcodes i) (size i) (address i)
                              mod ht_size t) with
          | None => Ok None
          | Some b => bucket_find h b (address i)
          end).
Proof.
  split; [ | split; [ | split ] ].
  - intros t index b p c Hreach Hb Hp Hc.
    pose proof (ok_buckets _ (reachable_state_ok _ Hreach) _ _ Hb) as Hok.
    split; [ | apply Hok ].
    eapply hashtable_lookup_entry; eassumption.
  - intros h t CFG c b. apply hashtable_insert_present.
  - intros h t CFG c Hc Hok.
    destruct (hashtable_insert_ok h t CFG c Hc Hok) as (t' & Hins & _ & Hok').
    eauto.
  - reflexivity.
Qed.

Lemma lookup_finds_every_stored_node_witness :
  hashtable_lookup (heap (st (run trace_S2))) (ht (st (run trace_S2)))
    (instruction (node_at (run trace_S2) 1))
  = Ok (Some 1%nat).
Proof.
  refine (proj1 (proj1 lookup_finds_every_stored_node
                   (run trace_S2) 52615 [1%nat] 1%nat
                   (node_at (run trace_S2) 1) _ _ _ _)).
  - exists trace_S2. apply run_S2.
  - vm_compute. reflexivity.
  - left.
  - vm_compute. reflexivity.
Defined.

(** ** Function tags *)

(** No path of the builder ever makes a tag: every node keeps the tag 0 it
    was allocated with. *)
Lemma names_stay_zero t p c :
  reachable t -> heap (st t) !! p = Some c -> name c = 0.
Proof.
  intros [os Hos]. revert p c.
  refine (proj2 (observe_all_invariant (fun _ => True)
            (fun s => forall p c, heap s !! p = Some c -> name c = 0)
            _ os tracker_start t tracker_ok_start _ _ Hos)).
  - intros ins s s' _ Hok Hinv Hstep p c Hc.
    destruct Hstep as
      [ str r Hlook Hnew | src new c0 Hsrc Hnew Hcan Hfresh
      | P c0 HP Htype | | r ]; try (eapply Hinv; exact Hc).
    + destruct (cfg_new_ok s ins str Hok) as (t' & Heq & _ & _).
      rewrite Heq in Hnew. injection Hnew as <-. simpl in Hc.
      apply lookup_app_Some in Hc. destruct Hc as [Hc | [_ Hc]].
      * eapply Hinv, Hc.
      * destruct (p - length (heap s))%nat; simpl in Hc; [ | discriminate ].
        now injection Hc as <-.
    + simpl in Hc.
      destruct (add_edge_lookup _ _ _ _ _ _ Hsrc Hc) as (c1 & Hc1 & ->).
      pose proof (Hinv _ _ Hc1) as H1. pose proof (Hinv _ _ Hsrc) as H0.
      destruct (decide (new = p)), (decide (src = p)); simpl;
        rewrite ?grow_node_name; assumption.
  - intros p c Hc. simpl in Hc. now rewrite lookup_nil in Hc.
  - trivial.
Qed.

(** C2. Scenario S2: the callee 0x2000 is first seen after the call 0x1000.
    It is appended to the roster, which then has two entries, but its tag is
    the tag 0 of the call site and not the fresh tag 1. *)
Theorem call_target_gets_no_fresh_tag :
  type (instruction (node_at (run (take 2 trace_S2)) 0)) = CALL
  /\ address (instruction (node_at (run (take 2 trace_S2)) 1)) = 0x2000
  /\ tail_entries (st (run (take 2 trace_S2))) = [0%nat; 1%nat]
  /\ name (node_at (run (take 2 trace_S2)) 1)
     = name (node_at (run (take 2 trace_S2)) 0)
  /\ name (node_at (run (take 2 trace_S2)) 1) = 0
  /\ name (node_at (run (take 2 trace_S2)) 1)
     <> Z.of_nat (length (tail_entries (st (run (take 2 trace_S2))))) - 1.
Proof. vm_compute. repeat split; try reflexivity. discriminate. Qed.

(** ** Counting edges *)

Section Counting.

Context {A : Type} (P : A -> Prop) `{forall x, Decision (P x)}.

(** Two lists that agree on [P] position by position. *)
Lemma filter_length_same (l l' : list A) :
  length l = length l' ->
  (forall i x x', l !! i = Some x -> l' !! i = Some x' -> (P x <-> P x')) ->
  length (filter P l) = length (filter P l').
Proof.
  revert l'. induction l as [ | a l IH ]; intros [ | a' l' ] Hlen Hsame;
    try discriminate; [ reflexivity | ].
  assert (Ha : P a <-> P a') by (apply (Hsame 0%nat); reflexivity).
  assert (Htl : length (filter P l) = length (filter P l')).
  { apply IH; [ simpl in Hlen; lia | ].
    intros i x x' Hx Hx'. apply (Hsame (S i)); assumption. }
  rewrite !filter_cons.
  destruct (decide (P a)), (decide (P a')); simpl; try tauto; lia.
Qed.

(** Two lists that agree on [P] except at [i], where [P] becomes true. *)
Lemma filter_length_one_more (l l' : list A) i x x' :
  length l = length l' ->
  (forall j y y', j <> i -> l !! j = Some y -> l' !! j = Some y' ->
     (P y <-> P y')) ->
  l !! i = Some x -> l' !! i = Some x' -> ~ P x -> P x' ->
  length (filter P l') = S (length (filter P l)).
Proof.
  revert l' i. induction l as [ | a l IH ]; intros [ | a' l' ] i Hlen Hsame Hx Hx' Hn Hp;
    try discriminate.
  rewrite !filter_cons. destruct i as [ | i ].
  - simpl in Hx, Hx'. injection Hx as ->. injection Hx' as ->.
    rewrite decide_True, decide_False by assumption. simpl. f_equal.
    symmetry. apply filter_length_same; [ simpl in Hlen; lia | ].
    intros j y y' Hy Hy'. apply (Hsame (S j)); [ lia | assumption .. ].
  - assert (Ha : P a <-> P a') by (apply (Hsame 0%nat); [ lia | reflexivity .. ]).
    assert (Htl : length (filter P l') = S (length (filter P l))).
    { apply (IH l' i); try assumption; [ simpl in Hlen; lia | ].
      intros j y y' Hj Hy Hy'. apply (Hsame (S j)); [ lia | assumption .. ]. }
    destruct (decide (P a)), (decide (P a')); simpl; try tauto; lia.
Qed.

End Counting.

Section OutEdges.

Implicit Types (h : list cfg_t) (c : cfg_t).

Lemma out_edges_length c :
  0 <= nb_out c -> (Z.to_nat (nb_out c) <= length (successor c))%nat ->
  Z.of_nat (length (out_edges c)) = nb_out c.
Proof. intros H0 Hcap. unfold out_edges. rewrite length_take. lia. Qed.

Lemma take_grow_node c :
  (Z.to_nat (nb_out c) <= length (successor c))%nat ->
  take (Z.to_nat (nb_out c)) (successor (grow_node c)) = out_edges c.
Proof.
  intros Hcap. unfold out_edges, grow_node.
  destruct (is_power_2 (nb_out c)) eqn:Hpow; [ | reflexivity ].
  simpl. unfold realloc. rewrite take_resize_le by lia.
  now rewrite resize_le by lia.
Qed.

(** The successors after an append: one more, or none when the 16-bit
    counter wraps. *)
Lemma add_edge_node_out_edges n new c :
  node_ok n c -> can_append c ->
  (nb_out c + 1 < 2 ^ 16 ->
   out_edges (add_edge_node new c) = out_edges c ++ [Some new])
  /\ (nb_out c + 1 = 2 ^ 16 -> out_edges (add_edge_node new c) = []).
Proof.
  intros Hok Hcan. pose proof (grow_node_room _ _ Hok Hcan) as Hroom.
  destruct Hok as [Hrange Hcap _ _].
  unfold out_edges at 1 3. unfold add_edge_node, edge_src, bump_nb_out, put_successor.
  simpl. rewrite grow_node_nb_out. split; intros Hd.
  - unfold u16. rewrite Z.mod_small by lia.
    replace (Z.to_nat (nb_out c + 1)) with (S (Z.to_nat (nb_out c))) by lia.
    rewrite (take_S_r _ _ (Some new)) by now apply list_lookup_insert_eq.
    rewrite take_insert_ge by lia. now rewrite take_grow_node.
  - rewrite Hd. reflexivity.
Qed.

Lemma out_edges_edge_dst nm c : out_edges (edge_dst nm c) = out_edges c.
Proof. reflexivity. Qed.

(** [points_to] after an append to [c]. *)
Lemma points_to_add_edge_node n new c q :
  node_ok n c -> can_append c -> nb_out c + 1 < 2 ^ 16 ->
  points_to q (add_edge_node new c) <-> points_to q c \/ q = new.
Proof.
  intros Hok Hcan Hd. unfold points_to.
  rewrite (proj1 (add_edge_node_out_edges n new c Hok Hcan) Hd).
  rewrite elem_of_app, list_elem_of_singleton.
  intuition congruence.
Qed.

(** A node has fewer successors than there are nodes when one can still be
    added. *)
Lemma out_edges_bound n c new :
  slots_ok n c -> NoDup (out_edges c) -> ~ points_to new c -> (new < n)%nat ->
  (length (out_edges c) < n)%nat.
Proof.
  intros Hslots Hnd Hnew Hlt.
  assert (Hsub : (out_edges c ++ [Some new]) ⊆+ (Some <$> seq 0 n)).
  { apply NoDup_submseteq.
    - apply NoDup_app. split; [ assumption | ].
      split; [ | apply NoDup_singleton ].
      intros x Hx Hx'. apply list_elem_of_singleton in Hx'. now subst x.
    - intros x Hx. apply elem_of_app in Hx. destruct Hx as [Hx | Hx].
      + unfold out_edges in Hx. apply elem_of_take in Hx.
        destruct Hx as (i & Hi & Hlti).
        destruct (Hslots i Hlti) as (q & Hq & Hqn).
        rewrite Hq in Hi. injection Hi as <-.
        apply list_elem_of_fmap_2. apply elem_of_seq. lia.
      + apply list_elem_of_singleton in Hx. subst x.
        apply list_elem_of_fmap_2. apply elem_of_seq. lia. }
  apply submseteq_length in Hsub.
  rewrite length_app, length_fmap, length_seq in Hsub. simpl in Hsub. lia.
Qed.

Lemma in_count_bound h new src c :
  h !! src = Some c -> ~ points_to new c -> (in_count h new < length h)%nat.
Proof.
  intros Hsrc Hnew. unfold in_count.
  eapply length_filter_lt; [ | exact Hnew ].
  eapply list_elem_of_lookup_2, Hsrc.
Qed.

End OutEdges.

(** ** In-degrees along a run *)

Section InDegree.

Implicit Types (h : list cfg_t) (c : cfg_t) (s : state).

Lemma in_count_none h n :
  (forall p c, h !! p = Some c -> ~ points_to n c) -> in_count h n = 0%nat.
Proof.
  unfold in_count. induction h as [ | c h IH ]; intros Hnone; [ reflexivity | ].
  rewrite filter_cons_False by (apply (Hnone 0%nat); reflexivity).
  apply IH. intros p c' Hp. apply (Hnone (S p)). exact Hp.
Qed.

Lemma in_count_app h node n :
  ~ points_to n node -> in_count (h ++ [node]) n = in_count h n.
Proof.
  intros Hn. unfold in_count. rewrite filter_app, length_app.
  rewrite filter_cons_False by assumption. simpl. lia.
Qed.

Lemma new_node_no_edges ins str n : ~ points_to n (new_node ins str).
Proof. unfold points_to, out_edges. simpl. apply not_elem_of_nil. Qed.

Lemma edges_ok_alloc h ins str :
  (forall p c, h !! p = Some c -> node_ok (length h) c) ->
  edges_ok h -> edges_ok (h ++ [new_node ins str]).
Proof.
  intros Hnodes [Hin Hnd]. split.
  - intros n c Hc. rewrite in_count_app by apply new_node_no_edges.
    apply lookup_app_Some in Hc. destruct Hc as [Hc | [Hge Hc]].
    + now apply Hin.
    + destruct (n - length h)%nat eqn:Hn; simpl in Hc; [ | discriminate ].
      injection Hc as <-. simpl.
      assert (n = length h) by lia. subst n.
      rewrite in_count_none; [ reflexivity | ].
      intros p c Hp. apply fresh_not_points. apply (Hnodes _ _ Hp).
  - intros m c Hc. apply lookup_app_Some in Hc. destruct Hc as [Hc | [_ Hc]].
    + eapply Hnd, Hc.
    + destruct (m - length h)%nat; simpl in Hc; [ | discriminate ].
      injection Hc as <-. unfold out_edges. simpl. apply NoDup_nil_2.
Qed.

Lemma add_edge_pointwise h src new c i y y' :
  h !! src = Some c -> h !! i = Some y -> add_edge h src new !! i = Some y' ->
  y' = (if decide (new = i) then edge_dst (name c) else id)
         ((if decide (src = i) then add_edge_node new else id) y).
Proof.
  intros Hsrc Hy Hy'.
  rewrite (add_edge_lookup_Some _ _ _ _ _ _ Hsrc Hy) in Hy'. congruence.
Qed.

Lemma add_edge_node_nb_in new c : nb_in (add_edge_node new c) = nb_in c.
Proof. unfold add_edge_node. simpl. apply grow_node_nb_in. Qed.

Lemma edges_ok_add_edge h src new c :
  (forall p c, h !! p = Some c -> node_ok (length h) c) ->
  edges_ok h -> h !! src = Some c -> (new < length h)%nat ->
  can_append c -> ~ points_to new c -> Z.of_nat (length h) < 2 ^ 16 ->
  edges_ok (add_edge h src new).
Proof.
  intros Hnodes [Hin Hnd] Hsrc Hnew Hcan Hfresh Hbound.
  pose proof (Hnodes _ _ Hsrc) as Hok.
  assert (Hout : nb_out c + 1 < 2 ^ 16).
  { pose proof (out_edges_bound _ _ _ (ok_slots _ _ Hok) (Hnd _ _ Hsrc)
                  Hfresh Hnew) as Hlt.
    rewrite <- (out_edges_length c); [ lia | apply Hok | apply Hok ]. }
  assert (Hpt : forall q i y y',
            h !! i = Some y -> add_edge h src new !! i = Some y' ->
            (points_to q y' <->
             if decide (src = i) then points_to q y \/ q = new
             else points_to q y)).
  { intros q i y y' Hy Hy'.
    rewrite (add_edge_pointwise _ _ _ _ _ _ _ Hsrc Hy Hy').
    assert (Hd : forall nm x, points_to q
               ((if decide (new = i) then edge_dst nm else id) x)
               <-> points_to q x)
      by (intros nm x; now destruct (decide (new = i))).
    rewrite Hd. destruct (decide (src = i)) as [<- | _]; [ | reflexivity ].
    assert (y = c) by congruence. subst y.
    now apply (points_to_add_edge_node (length h)). }
  assert (Hlen : length h = length (add_edge h src new))
    by now rewrite add_edge_length.
  split.
  - intros n c' Hc'.
    destruct (add_edge_lookup _ _ _ _ _ _ Hsrc Hc') as (c0 & Hc0 & ->).
    assert (Hnbin : nb_in ((if decide (src = n) then add_edge_node new else id) c0)
                    = nb_in c0)
      by (destruct (decide (src = n)); [ apply add_edge_node_nb_in | reflexivity ]).
    destruct (decide (new = n)) as [<- | Hne].
    + simpl. rewrite Hnbin, (Hin _ _ Hc0).
      pose proof (in_count_bound _ _ _ _ Hsrc Hfresh) as Hcount.
      unfold u16. rewrite Z.mod_small by lia.
      unfold in_count.
      destruct (deref_valid (add_edge h src new) src) as [c' Hc'src];
        [ rewrite add_edge_length; eapply lookup_lt_Some, Hsrc | ].
      rewrite (filter_length_one_more (points_to new) h
                 (add_edge h src new) src c c' Hlen); try assumption; [ lia | | ].
      * intros j y y' Hj Hy Hy'. rewrite (Hpt _ _ _ _ Hy Hy').
        now rewrite decide_False by congruence.
      * apply (Hpt new src c c' Hsrc Hc'src).
        rewrite decide_True by reflexivity. now right.
    + simpl. rewrite Hnbin, (Hin _ _ Hc0). f_equal. unfold in_count.
      apply filter_length_same; [ assumption | ].
      intros i y y' Hy Hy'. rewrite (Hpt _ _ _ _ Hy Hy').
      destruct (decide (src = i)); [ | reflexivity ].
      intuition congruence.
  - intros m c' Hc'.
    destruct (add_edge_lookup _ _ _ _ _ _ Hsrc Hc') as (c0 & Hc0 & ->).
    assert (Hd : forall nm x, out_edges
               ((if decide (new = m) then edge_dst nm else id) x)
               = out_edges x)
      by (intros nm x; now destruct (decide (new = m))).
    rewrite Hd. destruct (decide (src = m)) as [<- | _]; [ | eapply Hnd, Hc0 ].
    assert (c0 = c) by congruence. subst c0.
    rewrite (proj1 (add_edge_node_out_edges (length h) new c Hok Hcan) Hout).
    apply NoDup_app. split; [ eapply Hnd, Hsrc | ].
    split; [ | apply NoDup_singleton ].
    intros x Hx Hx'. apply list_elem_of_singleton in Hx'. now subst x.
Qed.

(** The edge counts are kept by every step while the heap has fewer than
    2^16 nodes. *)
Lemma edges_ok_step ins s s' :
  state_ok s -> state_step ins s s' ->
  (Z.of_nat (length (heap s)) < 2 ^ 16 -> edges_ok (heap s)) ->
  Z.of_nat (length (heap s')) < 2 ^ 16 -> edges_ok (heap s').
Proof.
  intros Hok Hstep Hinv Hbound.
  destruct (state_step_ok _ _ _ Hok Hstep) as (_ & [Hlen _] & _).
  assert (Hedges : edges_ok (heap s)) by (apply Hinv; lia).
  destruct Hstep as
    [ str r Hlook Hnew | src new c Hsrc Hnew Hcan Hfresh
    | P c HP Htype | | r ]; try exact Hedges.
  - destruct (cfg_new_ok s ins str Hok) as (t' & Heq & _ & _).
    rewrite Heq in Hnew. injection Hnew as <-. simpl.
    apply edges_ok_alloc; [ apply Hok | assumption ].
  - simpl. eapply edges_ok_add_edge; try eassumption; [ apply Hok | ].
    simpl in Hbound. now rewrite add_edge_length in Hbound.
Qed.

Lemma edges_ok_run os t :
  observe_all tracker_start os = Ok (Some t) ->
  Z.of_nat (length (heap (st t))) < 2 ^ 16 -> edges_ok (heap (st t)).
Proof.
  intros Hos.
  refine (proj2 (observe_all_invariant (fun _ => True)
            (fun s => Z.of_nat (length (heap s)) < 2 ^ 16 -> edges_ok (heap s))
            _ os tracker_start t tracker_ok_start _ _ Hos)).
  - intros ins s s' _ Hok Hinv Hstep. now apply (edges_ok_step ins s).
  - intros _. split.
    + intros n c Hc. simpl in Hc. now rewrite lookup_nil in Hc.
    + intros n c Hc. simpl in Hc. now rewrite lookup_nil in Hc.
  - trivial.
Qed.

End InDegree.

(** ** Addresses along a trace that does not modify itself *)

Section Addresses.

Implicit Types (h : list cfg_t) (c : cfg_t) (s : state) (t : hashtable_t).

Lemma out_edges_valid n c o :
  slots_ok n c -> o ∈ out_edges c -> exists q, o = Some q /\ (q < n)%nat.
Proof.
  intros Hslots Ho. unfold out_edges in Ho. apply elem_of_take in Ho.
  destruct Ho as (i & Hi & Hlt). destruct (Hslots i Hlt) as (q & Hq & Hqn).
  exists q. split; [ congruence | assumption ].
Qed.

Lemma slot_addrs_ext h h' (l : list (option nat)) :
  heap_ext h h' ->
  (forall o, o ∈ l -> exists q, o = Some q /\ (q < length h)%nat) ->
  slot_addr h' <$> l = slot_addr h <$> l.
Proof.
  intros Hext Hvalid. apply list_fmap_ext. intros i o Ho.
  destruct (Hvalid o) as (q & -> & Hq); [ eapply list_elem_of_lookup_2, Ho | ].
  simpl. now apply addr_of_ext.
Qed.

(** The insert of a node whose address is not in its bucket appends it. *)
Lemma hashtable_insert_fresh h t CFG c :
  h !! CFG = Some c ->
  (forall b, buckets t !! bucket_index t (instruction c) = Some b ->
     (forall p, p ∈ b -> (p < length h)%nat)
     /\ address (instruction c) ∉ addr_of h <$> b) ->
  exists t',
    hashtable_insert h t CFG = Ok (true, t')
    /\ ht_size t' = ht_size t
    /\ buckets t'
       = <[bucket_index t (instruction c) :=
             default [] (buckets t !! bucket_index t (instruction c)) ++ [CFG]]>
           (buckets t).
Proof.
  intros Hc Hfresh. unfold hashtable_insert.
  rewrite (deref_ok _ _ _ Hc). cbn [bind].
  destruct (buckets t !! bucket_index t (instruction c)) as [b | ] eqn:Hb.
  - destruct (Hfresh b eq_refl) as [Hvalid Hnot].
    rewrite (bucket_mem_ok _ _ _ Hvalid). cbn [bind].
    rewrite bool_decide_eq_false_2 by assumption.
    eexists. split; [ reflexivity | ]. split; reflexivity.
  - eexists. split; [ reflexivity | ]. split; reflexivity.
Qed.

Variable os : list observation.
Hypothesis Hcons : consistent os.

Lemma of_trace_same_bucket t i1 i2 :
  of_trace os i1 -> of_trace os i2 -> address i1 = address i2 ->
  bucket_index t i1 = bucket_index t i2.
Proof.
  intros (o1 & Ho1 & Hi1) (o2 & Ho2 & Hi2) Haddr.
  destruct (Hcons o1 o2 i1 i2 Ho1 Ho2 Hi1 Hi2 Haddr) as [Hsz Hop].
  unfold bucket_index, hash_instr. now rewrite Haddr, Hsz, Hop.
Qed.

(** An instruction the lookup does not find has an address no node has. *)
Lemma lookup_None_fresh s ins p c :
  state_ok s -> addresses_ok os s -> of_trace os ins ->
  hashtable_lookup (heap s) (ht s) ins = Ok None ->
  heap s !! p = Some c ->
  address (instruction c) <> address ins.
Proof.
  intros Hok Haddr Hins Hlook Hc Heq.
  destruct (ok_indexed _ _ Haddr _ _ Hc) as (b & Hb & Hp).
  rewrite (of_trace_same_bucket (ht s) (instruction c) ins) in Hb;
    [ | eapply ok_of_trace; eassumption | assumption | assumption ].
  unfold hashtable_lookup in Hlook. rewrite Hb in Hlook.
  apply bucket_find_None_inv in Hlook. apply Hlook.
  rewrite <- Heq, <- (addr_of_lookup _ _ _ Hc).
  now apply list_elem_of_fmap_2.
Qed.

Lemma addresses_ok_alloc s ins str r :
  state_ok s -> addresses_ok os s -> of_trace os ins ->
  hashtable_lookup (heap s) (ht s) ins = Ok None ->
  cfg_new s ins str = Ok r ->
  addresses_ok os (snd r).
Proof.
  intros Hok Haddr Hins Hlook Hnew.
  set (h' := heap s ++ [new_node ins str]).
  assert (Hext : heap_ext (heap s) h') by apply heap_ext_app.
  assert (Hnode : h' !! length (heap s) = Some (new_node ins str))
    by (unfold h'; now rewrite list_lookup_middle).
  assert (Hfresh : forall p c, heap s !! p = Some c ->
                     address (instruction c) <> address ins)
    by (intros p c; now apply lookup_None_fresh).
  destruct (hashtable_insert_fresh h' (ht s) (length (heap s))
              (new_node ins str) Hnode) as (t' & Hinsert & Hsz & Hbuckets).
  { intros b Hb.
    pose proof (ok_buckets _ Hok _ _ Hb) as Hbok. split.
    - intros p Hp. unfold h'. rewrite length_app.
      pose proof (bucket_ok_valid _ _ _ _ _ Hbok Hp). lia.
    - intros Hin. apply list_elem_of_fmap in Hin.
      destruct Hin as (p & Hpa & Hp).
      pose proof (bucket_ok_valid _ _ _ _ _ Hbok Hp) as Hvalid.
      destruct (deref_valid _ _ Hvalid) as [c Hc].
      rewrite (addr_of_ext _ _ _ Hext Hvalid), (addr_of_lookup _ _ _ Hc) in Hpa.
      apply (Hfresh _ _ Hc). simpl in Hpa. congruence. }
  unfold cfg_new in Hnew. fold (new_node ins str) in Hnew. fold h' in Hnew.
  rewrite Hinsert in Hnew. cbn [bind snd] in Hnew. injection Hnew as <-.
  cbn [snd]. split; unfold indexed, unique_addresses; cbn [heap ht].
  - (* indexed *)
    intros p c Hc.
    assert (Hidx : forall i, bucket_index t' i = bucket_index (ht s) i)
      by (intros i; unfold bucket_index; now rewrite Hsz).
    rewrite Hidx, Hbuckets. simpl.
    apply lookup_app_Some in Hc. destruct Hc as [Hc | [Hge Hc]].
    + destruct (ok_indexed _ _ Haddr _ _ Hc) as (b & Hb & Hp).
      destruct (decide (bucket_index (ht s) ins
                        = bucket_index (ht s) (instruction c))) as [Heq | Hne].
      * rewrite Heq, lookup_insert_eq, Hb. simpl.
        eexists. split; [ reflexivity | ]. apply elem_of_app. now left.
      * rewrite lookup_insert_ne by assumption. eauto.
    + destruct (p - length (heap s))%nat eqn:Hp; simpl in Hc; [ | discriminate ].
      injection Hc as <-. simpl. rewrite lookup_insert_eq.
      eexists. split; [ reflexivity | ].
      apply elem_of_app. right. apply list_elem_of_singleton.
      lia.
  - (* unique addresses *)
    intros p q cp cq Hp Hq Heq.
    apply lookup_app_Some in Hp. apply lookup_app_Some in Hq.
    destruct Hp as [Hp | [Hpge Hp]], Hq as [Hq | [Hqge Hq]].
    + eapply (ok_unique _ _ Haddr); eassumption.
    + destruct (q - length (heap s))%nat; simpl in Hq; [ | discriminate ].
      injection Hq as <-. simpl in Heq. now apply Hfresh in Hp.
    + destruct (p - length (heap s))%nat; simpl in Hp; [ | discriminate ].
      injection Hp as <-. simpl in Heq. symmetry in Heq. now apply Hfresh in Hq.
    + destruct (p - length (heap s))%nat eqn:Ep; simpl in Hp; [ | discriminate ].
      destruct (q - length (heap s))%nat eqn:Eq; simpl in Hq; [ | discriminate ].
      lia.
  - (* instructions of the trace *)
    intros p c Hc. apply lookup_app_Some in Hc. destruct Hc as [Hc | [_ Hc]].
    + eapply ok_of_trace; eassumption.
    + destruct (p - length (heap s))%nat; simpl in Hc; [ | discriminate ].
      now injection Hc as <-.
  - (* successor addresses *)
    intros m c Hc. apply lookup_app_Some in Hc. destruct Hc as [Hc | [_ Hc]].
    + unfold successor_addresses. fold h'.
      rewrite (slot_addrs_ext (heap s) h') ; [ | assumption | ].
      * eapply (ok_successor_addresses _ _ Haddr), Hc.
      * intros o. apply out_edges_valid. apply (ok_nodes _ Hok _ _ Hc).
    + destruct (m - length (heap s))%nat; simpl in Hc; [ | discriminate ].
      injection Hc as <-. unfold successor_addresses, out_edges. simpl.
      apply NoDup_nil_2.
Qed.

Lemma addresses_ok_add_edge s src new c :
  state_ok s -> addresses_ok os s ->
  heap s !! src = Some c -> (new < length (heap s))%nat ->
  can_append c -> ~ points_to new c ->
  addresses_ok os (with_heap (add_edge (heap s) src new) s).
Proof.
  intros Hok Haddr Hsrc Hnew Hcan Hfresh.
  pose proof (heap_ext_add_edge (heap s) src new) as Hext.
  assert (Hback : forall p c', add_edge (heap s) src new !! p = Some c' ->
            exists c0, heap s !! p = Some c0
                       /\ instruction c' = instruction c0).
  { intros p c' Hc'.
    destruct (add_edge_lookup _ _ _ _ _ _ Hsrc Hc') as (c0 & Hc0 & ->).
    exists c0. split; [ assumption | ].
    destruct (decide (new = p)), (decide (src = p)); simpl;
      rewrite ?grow_node_instruction; reflexivity. }
  split; unfold indexed, unique_addresses, with_heap; cbn [heap ht].
  - intros p c' Hc'. destruct (Hback _ _ Hc') as (c0 & Hc0 & ->).
    eapply (ok_indexed _ _ Haddr), Hc0.
  - intros p q cp cq Hp Hq.
    destruct (Hback _ _ Hp) as (cp0 & Hp0 & ->).
    destruct (Hback _ _ Hq) as (cq0 & Hq0 & ->).
    eapply (ok_unique _ _ Haddr); eassumption.
  - intros p c' Hc'. destruct (Hback _ _ Hc') as (c0 & Hc0 & ->).
    eapply ok_of_trace; eassumption.
  - intros m c' Hc'.
    destruct (add_edge_lookup _ _ _ _ _ _ Hsrc Hc') as (c0 & Hc0 & ->).
    pose proof (ok_nodes _ Hok _ _ Hc0) as Hok0.
    unfold successor_addresses.
    assert (Hd : forall nm x, out_edges
               ((if decide (new = m) then edge_dst nm else id) x)
               = out_edges x)
      by (intros nm x; now destruct (decide (new = m))).
    rewrite Hd. destruct (decide (src = m)) as [<- | _].
    + assert (c0 = c) by congruence. subst c0.
      destruct (add_edge_node_out_edges (length (heap s)) new c Hok0 Hcan)
        as [Hmore Hwrap].
      destruct (decide (nb_out c + 1 < 2 ^ 16)) as [Hlt | Hge].
      * rewrite (Hmore Hlt), fmap_app.
        rewrite (slot_addrs_ext (heap s));
          [ | assumption | intros o; apply out_edges_valid, Hok0 ].
        simpl. rewrite (addr_of_ext _ _ _ Hext Hnew).
        apply NoDup_app. split; [ eapply (ok_successor_addresses _ _ Haddr), Hsrc | ].
        split; [ | apply NoDup_singleton ].
        intros a Ha Ha'. apply list_elem_of_singleton in Ha'. subst a.
        apply list_elem_of_fmap in Ha. destruct Ha as (o & Hoa & Ho).
        destruct (out_edges_valid _ _ _ (ok_slots _ _ Hok0) Ho)
          as (q & -> & Hq).
        simpl in Hoa. apply Hfresh. unfold points_to.
        destruct (deref_valid _ _ Hq) as [cq Hcq].
        destruct (deref_valid _ _ Hnew) as [cn Hcn].
        rewrite (addr_of_lookup _ _ _ Hcq), (addr_of_lookup _ _ _ Hcn) in Hoa.
        assert (new = q)
          by (eapply (ok_unique _ _ Haddr); eassumption).
        now subst q.
      * rewrite Hwrap; [ apply NoDup_nil_2 | ].
        destruct Hok0 as [Hrange _ _ _]. lia.
    + simpl.
      rewrite (slot_addrs_ext (heap s));
        [ | assumption | intros o; apply out_edges_valid, Hok0 ].
      eapply (ok_successor_addresses _ _ Haddr), Hc0.
Qed.

Lemma addresses_ok_step ins s s' :
  of_trace os ins -> state_ok s -> addresses_ok os s ->
  state_step ins s s' -> addresses_ok os s'.
Proof.
  intros Hins Hok Haddr Hstep.
  destruct Hstep as
    [ str r Hlook Hnew | src new c Hsrc Hnew Hcan Hfresh
    | P c HP Htype | | r ].
  - eapply addresses_ok_alloc; eassumption.
  - eapply addresses_ok_add_edge; eassumption.
  - destruct Haddr. now split.
  - destruct Haddr. now split.
  - destruct Haddr. now split.
Qed.

End Addresses.

Lemma addresses_ok_run os t :
  consistent os ->
  observe_all tracker_start os = Ok (Some t) -> addresses_ok os (st t).
Proof.
  intros Hcons Hos.
  refine (proj2 (observe_all_invariant (of_trace os) (addresses_ok os)
            _ os tracker_start t tracker_ok_start _ _ Hos)).
  - intros ins s s' Hins Hok Hinv Hstep.
    now apply (addresses_ok_step os Hcons ins s).
  - split; unfold indexed, unique_addresses; simpl.
    + intros p c Hc. now rewrite lookup_nil in Hc.
    + intros p q cp cq Hp. now rewrite lookup_nil in Hp.
    + intros p c Hc. now rewrite lookup_nil in Hc.
    + intros p c Hc. now rewrite lookup_nil in Hc.
  - intros o ins Ho Hins. exists o. now split.
Qed.

(** C5 (amended). After any sequence of observations: as long as the graph
    has fewer than 2^16 nodes (the counters are 16 bits wide), the in-degree
    of every node is the number of distinct nodes that have it among their
    successors; and when every address was always observed with the same
    bytes (the program does not modify itself), no successor array holds
    two entries with the same instruction address. *)
Theorem in_degree_counts_predecessors os t :
  observe_all tracker_start os = Ok (Some t) ->
  (Z.of_nat (length (heap (st t))) < 2 ^ 16 ->
   forall n c, heap (st t) !! n = Some c ->
     nb_in c = Z.of_nat (in_count (heap (st t)) n))
  /\ (consistent os ->
      forall m c, heap (st t) !! m = Some c ->
        NoDup (successor_addresses (heap (st t)) c))
  /\ (Z.of_nat (length (heap (st t))) < 2 ^ 16 -> consistent os ->
      in_degree_property (st t)).
Proof.
  intros Hos.
  assert (Hin : Z.of_nat (length (heap (st t))) < 2 ^ 16 ->
                forall n c, heap (st t) !! n = Some c ->
                  nb_in c = Z.of_nat (in_count (heap (st t)) n)).
  { intros Hbound. apply (ok_in_degree _ (edges_ok_run os t Hos Hbound)). }
  assert (Hnd : consistent os ->
                forall m c, heap (st t) !! m = Some c ->
                  NoDup (successor_addresses (heap (st t)) c)).
  { intros Hcons.
    apply (ok_successor_addresses _ _ (addresses_ok_run os t Hcons Hos)). }
  split; [ exact Hin | ]. split; [ exact Hnd | ].
  intros Hbound Hcons. split.
  - intros n c _. now apply Hin.
  - now apply Hnd.
Qed.

Lemma consistent_S2 : consistent trace_S2.
Proof.
  intros o1 o2 i1 i2 Ho1 Ho2 Hi1 Hi2 Haddr.
  apply list_elem_of_In in Ho1. apply list_elem_of_In in Ho2.
  simpl in Ho1, Ho2.
  destruct Ho1 as [<- | [<- | [<- | [<- | []]]]];
    vm_compute in Hi1; injection Hi1 as <-;
    destruct Ho2 as [<- | [<- | [<- | [<- | []]]]];
    vm_compute in Hi2; injection Hi2 as <-;
    first [ discriminate Haddr | split; reflexivity ].
Qed.

Lemma in_degree_counts_predecessors_witness :
  in_degree_property (st (run trace_S2)).
Proof.
  refine (proj2 (proj2
    (in_degree_counts_predecessors trace_S2 (run trace_S2) run_S2)) _ _).
  - vm_compute. reflexivity.
  - exact consistent_S2.
Defined.

(** When the bytes at 0x2000 change between two executions of the jump at
    0x1000, the jump gets two successors with the address 0x2000. *)
Lemma rewritten_code_breaks_in_degree_property :
  observe_all tracker_start trace_rewritten = Ok (Some (run trace_rewritten))
  /\ ~ in_degree_property (st (run trace_rewritten)).
Proof.
  split; [ vm_compute; reflexivity | ].
  intros [_ Hnd].
  specialize (Hnd 0%nat (node_at (run trace_rewritten) 0)
                ltac:(vm_compute; reflexivity)).
  assert (Heq : successor_addresses (heap (st (run trace_rewritten)))
                  (node_at (run trace_rewritten) 0)
                = [0x2000; 0x2000]) by (vm_compute; reflexivity).
  rewrite Heq in Hnd. apply NoDup_cons in Hnd.
  destruct Hnd as [Hn _]. apply Hn. left.
Qed.

(** * Further properties *)

(** ** One observation, case by case *)

Section ObserveCases.

Implicit Types (t : tracker) (s : state) (o : observation).

Lemma aux_outcome_facts s P new r s' :
  aux_outcome s P new r s' ->
  heap_ext (heap s) (heap s')
  /\ ht s' = ht s /\ tail_entries s' = tail_entries s
  /\ (r = None \/ r = Some new)
  /\ (stack s' = stack s \/ stack s' = stack_pop (stack s)).
Proof.
  intros Hout. destruct Hout; simpl;
    (split; [ auto using heap_ext_refl, heap_ext_add_edge | ]);
    (split; [ reflexivity | ]); (split; [ reflexivity | ]); split; auto.
Qed.

Lemma push_call_frame P p s :
  heap (push_call P p s) = heap s /\ ht (push_call P p s) = ht s
  /\ tail_entries (push_call P p s) = tail_entries s.
Proof. unfold push_call. now destruct (decide _). Qed.

Lemma push_call_ok P p s :
  state_ok s -> heap s !! P = Some p -> state_ok (push_call P p s).
Proof.
  intros Hok Hp. unfold push_call.
  destruct (decide _) as [Hcall | _]; [ | assumption ].
  eapply (state_step_ok (instruction p)); [ exact Hok | ].
  eapply step_push; eassumption.
Qed.

Lemma enter_call_frame P p new s :
  heap (enter_call P p new s) = heap s /\ ht (enter_call P p new s) = ht s.
Proof. unfold enter_call. now destruct (decide _). Qed.

Lemma enter_call_ok P p new s :
  state_ok s -> heap s !! P = Some p -> state_ok (enter_call P p new s).
Proof.
  intros Hok Hp. unfold enter_call.
  destruct (decide _) as [Hcall | _]; [ | assumption ].
  assert (Hok1 : state_ok (with_tail_entries
                             (list_insert_after (tail_entries s) new) s)).
  { eapply (state_step_ok (instruction p)); [ exact Hok | apply step_roster ]. }
  eapply (state_step_ok (instruction p)); [ exact Hok1 | ].
  apply (step_push _ (with_tail_entries
                        (list_insert_after (tail_entries s) new) s) P p);
    assumption.
Qed.

(** Observing an instruction that is in the index. *)
Lemma observe_known t P p o ins new :
  tracker_ok t -> cfg t = Some P -> heap (st t) !! P = Some p ->
  instr_of o = Some ins ->
  hashtable_lookup (heap (st t)) (ht (st t)) ins = Ok (Some new) ->
  (among_successors (heap (st t)) new p ->
   observe t o
   = Ok (Some {| st := push_call P p (st t); cfg := Some new |}))
  /\ (~ among_successors (heap (st t)) new p ->
      exists r s',
        aux_outcome (push_call P p (st t)) P new r s'
        /\ observe t o = Ok (next_tracker r s')).
Proof.
  intros [Hok Hcfg _] HP Hp Hins Hlook.
  unfold observe. fold (instr_of o). rewrite Hins, HP.
  rewrite (cfg_insert_known _ _ _ _ _ _ Hok Hp Hlook). cbv zeta.
  fold (push_call P p (st t)). split; intros Hdup.
  - rewrite bool_decide_eq_true_2 by assumption. reflexivity.
  - rewrite bool_decide_eq_false_2 by assumption.
    apply hashtable_lookup_Some_inv in Hlook.
    destruct Hlook as (b & n & _ & _ & Hn & _).
    destruct (push_call_frame P p (st t)) as (Hheap & _ & _).
    destruct (aux_cfg_insert_outcome (push_call P p (st t)) P new)
      as (r & s' & Haux & Hout).
    + now apply push_call_ok.
    + rewrite Hheap. eapply lookup_lt_Some, Hp.
    + rewrite Hheap. eapply lookup_lt_Some, Hn.
    + exists r, s'. split; [ assumption | ].
      rewrite Haux. cbn [bind fst snd]. now destruct r.
Qed.

(** Observing an instruction for the first time, after a node. *)
Lemma observe_fresh t P p o ins :
  tracker_ok t -> cfg t = Some P -> heap (st t) !! P = Some p ->
  instr_of o = Some ins ->
  hashtable_lookup (heap (st t)) (ht (st t)) ins = Ok None ->
  exists ht1 r s',
    let new := length (heap (st t)) in
    let s1 := mk_state (heap (st t) ++ [new_node ins (name_node o)]) ht1
                (stack (st t)) (tail_entries (st t)) in
    state_ok s1
    /\ aux_outcome (enter_call P p new s1) P new r s'
    /\ observe t o = Ok (next_tracker r s').
Proof.
  intros [Hok Hcfg _] HP Hp Hins Hlook.
  unfold observe. fold (instr_of o). rewrite Hins, HP.
  destruct (cfg_insert_fresh _ _ _ _ (name_node o) Hok Hp Hlook)
    as (ht1 & _ & Hok1 & Heq).
  rewrite Heq. cbv zeta.
  set (s1 := mk_state (heap (st t) ++ [new_node ins (name_node o)]) ht1
               (stack (st t)) (tail_entries (st t))) in *.
  fold (enter_call P p (length (heap (st t))) s1).
  assert (Hp1 : heap s1 !! P = Some p) by now apply lookup_app_l_Some.
  destruct (enter_call_frame P p (length (heap (st t))) s1) as (Hheap & _).
  assert (Hlen : length (heap s1) = S (length (heap (st t))))
    by (simpl; rewrite length_app; simpl; lia).
  destruct (aux_cfg_insert_outcome
              (enter_call P p (length (heap (st t))) s1) P
              (length (heap (st t))))
    as (r & s' & Haux & Hout).
  - now apply enter_call_ok.
  - rewrite Hheap. eapply lookup_lt_Some, Hp1.
  - rewrite Hheap, Hlen. lia.
  - exists ht1, r, s'. split; [ assumption | ]. split; [ assumption | ].
    rewrite Haux. cbn [bind fst snd]. now destruct r.
Qed.

(** The first observation of a run. *)
Lemma observe_first o ins :
  instr_of o = Some ins ->
  exists ht1,
    observe tracker_start o
    = Ok (Some {| st := mk_state [new_node ins (name_node o)] ht1 [] [0%nat];
                  cfg := Some 0%nat |}).
Proof.
  intros Hins. unfold observe. fold (instr_of o). rewrite Hins.
  destruct (cfg_new_ok (st tracker_start) ins (name_node o) state_ok_start)
    as (ht1 & Hnew & _ & _).
  simpl cfg. rewrite Hnew. cbn [bind fst snd]. exists ht1. reflexivity.
Qed.

Lemma tracker_ok_cases t :
  tracker_ok t ->
  t = tracker_start
  \/ exists P p, cfg t = Some P /\ heap (st t) !! P = Some p.
Proof.
  intros [Hok Hcfg Hstart]. destruct (cfg t) as [P | ] eqn:HP.
  - right. destruct (deref_valid _ _ (Hcfg P eq_refl)) as [p Hp]. eauto.
  - left. now apply Hstart.
Qed.

End ObserveCases.

(** ** The tracing loop, observation by observation *)

Lemma observe_all_app t os1 os2 :
  observe_all t (os1 ++ os2)
  = match observe_all t os1 with
    | Ok (Some t1) => observe_all t1 os2
    | other => other
    end.
Proof.
  revert t. induction os1 as [ | o os1 IH ]; intros t; simpl; [ reflexivity | ].
  destruct (observe t o) as [ [t1 | ] | ]; simpl; auto.
Qed.

Lemma reachable_start : reachable tracker_start.
Proof. now exists []. Qed.

Lemma reachable_observe t o t' :
  reachable t -> observe t o = Ok (Some t') -> reachable t'.
Proof.
  intros [os Hos] Hobs. exists (os ++ [o]).
  rewrite observe_all_app, Hos. simpl. now rewrite Hobs.
Qed.

Lemma reachable_observe_all t os t' :
  reachable t -> observe_all t os = Ok (Some t') -> reachable t'.
Proof.
  intros [os0 Hos0] Hos. exists (os0 ++ os). now rewrite observe_all_app, Hos0.
Qed.

(** Induction over the reachable trackers, one observation at a time. *)
Lemma reachable_ind (Inv : tracker -> Prop) :
  Inv tracker_start ->
  (forall t o t', reachable t -> Inv t -> observe t o = Ok (Some t') ->
     Inv t') ->
  forall t, reachable t -> Inv t.
Proof.
  intros Hstart Hstep t [os Hos]. revert t Hos.
  induction os as [ | o os IH ] using rev_ind; intros t Hos.
  - simpl in Hos. now injection Hos as <-.
  - rewrite observe_all_app in Hos.
    destruct (observe_all tracker_start os) as [ [t1 | ] | ] eqn:H1;
      try discriminate.
    simpl in Hos. destruct (observe t1 o) as [ [t2 | ] | ] eqn:H2;
      try discriminate.
    simpl in Hos. injection Hos as <-.
    apply (Hstep t1 o t2); [ now exists os | now apply IH | assumption ].
Qed.

(** X1. Memory safety of a whole run: whatever is observed, from the start
    of a run, no step of the builder dereferences a dangling or NULL node
    pointer or touches a successor array past its end; the run either goes
    on or ends the build. *)
Theorem run_never_faults os : exists r, observe_all tracker_start os = Ok r.
Proof. apply observe_all_total, tracker_ok_start. Qed.

(** X2. In every reachable state the first [nb_out] entries of a successor
    array are live nodes: cfg_get_successor_i below the out-degree returns a
    pointer that can be followed. *)
Theorem successors_are_live t p c i :
  reachable t -> heap (st t) !! p = Some c -> 0 <= i < nb_out c ->
  exists q cq,
    cfg_get_successor_i (heap (st t)) p i = Ok (Some q)
    /\ heap (st t) !! q = Some cq.
Proof.
  intros Hreach Hc Hi.
  pose proof (ok_nodes _ (reachable_state_ok _ Hreach) _ _ Hc) as Hok.
  destruct (ok_slots _ _ Hok (Z.to_nat i)) as (q & Hq & Hlt); [ lia | ].
  destruct (deref_valid _ _ Hlt) as [cq Hcq].
  exists q, cq. split; [ | assumption ].
  unfold cfg_get_successor_i. rewrite (deref_ok _ _ _ Hc). cbn [bind].
  now rewrite Hq.
Qed.

Lemma successors_are_live_witness :
  exists q cq,
    cfg_get_successor_i (heap (st (run trace_S2))) 0 1 = Ok (Some q)
    /\ heap (st (run trace_S2)) !! q = Some cq.
Proof.
  apply (successors_are_live (run trace_S2) 0%nat (node_at (run trace_S2) 0) 1).
  - exists trace_S2. apply run_S2.
  - vm_compute. reflexivity.
  - vm_compute. split; [ discriminate | reflexivity ].
Defined.

(** X3. The shadow stack only ever holds live CALL nodes. *)
Theorem shadow_stack_holds_calls t p :
  reachable t -> p ∈ stack (st t) ->
  exists c, heap (st t) !! p = Some c /\ type (instruction c) = CALL.
Proof.
  intros Hreach Hp. exact (ok_stack _ (reachable_state_ok _ Hreach) _ Hp).
Qed.

Lemma run_call_ret :
  observe_all tracker_start trace_call_ret = Ok (Some (run trace_call_ret)).
Proof. vm_compute. reflexivity. Qed.

Lemma shadow_stack_holds_calls_witness :
  exists c, heap (st (run trace_call_ret)) !! 0%nat = Some c
            /\ type (instruction c) = CALL.
Proof.
  apply (shadow_stack_holds_calls (run trace_call_ret) 0%nat).
  - exists trace_call_ret. apply run_call_ret.
  - vm_compute. left.
Defined.

Lemma observe_all_ext t os t' :
  reachable t -> observe_all t os = Ok (Some t') ->
  (forall p c, heap (st t) !! p = Some c ->
     exists c', heap (st t') !! p = Some c'
                /\ instruction c' = instruction c)
  /\ (length (heap (st t)) <= length (heap (st t')))%nat
  /\ ht_size (ht (st t')) = ht_size (ht (st t)).
Proof.
  intros Hreach. apply reachable_tracker_ok in Hreach.
  revert t Hreach. induction os as [ | o os IH ]; intros t Hok Hos.
  - simpl in Hos. injection Hos as <-. split; [ eauto | ]. split; [ lia | reflexivity ].
  - simpl in Hos. destruct (observe_steps t o Hok) as (r & Hobs & Hnext).
    rewrite Hobs in Hos. cbn [bind] in Hos.
    destruct r as [t1 | ]; [ | discriminate ].
    destruct (Hnext t1 eq_refl) as (ins & _ & Hsteps & Hok1).
    destruct (state_steps_ok _ _ _ (ok_state _ Hok) Hsteps)
      as (_ & [Hlen Hext] & Hsz).
    destruct (IH t1 Hok1 Hos) as (Hext' & Hlen' & Hsz').
    split; [ | split; [ lia | congruence ] ].
    intros p c Hc. destruct (Hext _ _ Hc) as (c1 & Hc1 & Hi1).
    destruct (Hext' _ _ Hc1) as (c2 & Hc2 & Hi2).
    exists c2. split; [ assumption | congruence ].
Qed.

(** X4. Nodes are never removed and an instruction never changes once its
    node exists: along any continuation of a run every node is still there
    with the same address, size, bytes and type; the number of buckets of
    the index stays what it was. *)
Theorem nodes_are_permanent t os t' :
  reachable t -> observe_all t os = Ok (Some t') ->
  (forall p c, heap (st t) !! p = Some c ->
     exists c', heap (st t') !! p = Some c'
                /\ instruction c' = instruction c)
  /\ (length (heap (st t)) <= length (heap (st t')))%nat
  /\ ht_size (ht (st t')) = ht_size (ht (st t)).
Proof. apply observe_all_ext. Qed.

Lemma nodes_are_permanent_witness :
  exists c', heap (st (run trace_S2)) !! 0%nat = Some c'
             /\ instruction c' = instruction (node_at (run trace_call_ret) 0).
Proof.
  apply (proj1 (nodes_are_permanent (run trace_call_ret)
                  [obs 0x1005 1 [0x90]] (run trace_S2)
                  (ex_intro _ trace_call_ret run_call_ret)
                  ltac:(vm_compute; reflexivity))).
  vm_compute. reflexivity.
Defined.

Lemma observe_observed t o t' :
  tracker_ok t -> observe t o = Ok (Some t') -> observed t o t'.
Proof.
  intros Hok Hobs.
  destruct (instr_of o) as [ins | ] eqn:Hins.
  2:{ unfold observe in Hobs. fold (instr_of o) in Hobs.
      rewrite Hins in Hobs. discriminate. }
  destruct (tracker_ok_cases t Hok) as [-> | (P & p & HP & Hp)].
  - destruct (observe_first o ins Hins) as (ht1 & Heq).
    rewrite Heq in Hobs. injection Hobs as <-.
    now apply (observed_first _ _ ins).
  - destruct (hashtable_lookup_total (heap (st t)) (ht (st t)) ins
                (ok_buckets _ (ok_state _ Hok))) as [found Hlook].
    destruct found as [new | ].
    + destruct (observe_known t P p o ins new Hok HP Hp Hins Hlook)
        as [Hearly Hlate].
      destruct (decide (among_successors (heap (st t)) new p)) as [Hdup | Hdup].
      * rewrite (Hearly Hdup) in Hobs. injection Hobs as <-.
        eapply observed_early; eassumption.
      * destruct (Hlate Hdup) as (r & s' & Hout & Heq).
        rewrite Heq in Hobs. destruct r as [n | ]; [ | discriminate ].
        simpl in Hobs. injection Hobs as <-.
        destruct (aux_outcome_facts _ _ _ _ _ Hout)
          as (_ & _ & _ & [Hr | Hr] & _); [ discriminate | ].
        injection Hr as ->.
        eapply observed_known; eassumption.
    + destruct (observe_fresh t P p o ins Hok HP Hp Hins Hlook)
        as (ht1 & r & s' & Hok1 & Hout & Heq).
      rewrite Heq in Hobs. destruct r as [n | ]; [ | discriminate ].
      simpl in Hobs. injection Hobs as <-.
      destruct (aux_outcome_facts _ _ _ _ _ Hout)
        as (_ & _ & _ & [Hr | Hr] & _); [ discriminate | ].
      injection Hr as ->.
      eapply observed_fresh; eassumption.
Qed.

Lemma observe_current_address t o t' :
  tracker_ok t -> observe t o = Ok (Some t') ->
  exists n c, cfg t' = Some n /\ heap (st t') !! n = Some c
              /\ address (instruction c) = ip o.
Proof.
  intros Hreach Hobs.
  destruct (observe_observed t o t' Hreach Hobs) as
    [ ins ht1 _ Hins | P p ins new HP Hp Hins Hlook Hdup
    | P p ins new s' HP Hp Hins Hlook Hdup Hout
    | P p ins ht1 s' HP Hp Hins Hlook Hok1 Hout ]; simpl.
  - exists 0%nat, (new_node ins (name_node o)).
    split; [ reflexivity | ]. split; [ reflexivity | ].
    now apply instr_of_address.
  - apply hashtable_lookup_Some_inv in Hlook.
    destruct Hlook as (b & n & _ & _ & Hn & Haddr).
    exists new, n. split; [ reflexivity | ].
    destruct (push_call_frame P p (st t)) as (-> & _ & _).
    split; [ assumption | ].
    rewrite Haddr. now apply instr_of_address.
  - apply hashtable_lookup_Some_inv in Hlook.
    destruct Hlook as (b & n & _ & _ & Hn & Haddr).
    destruct (aux_outcome_facts _ _ _ _ _ Hout) as ([_ Hext] & _).
    destruct (push_call_frame P p (st t)) as (Hheap & _ & _).
    rewrite Hheap in Hext.
    destruct (Hext _ _ Hn) as (c & Hc & Hi).
    exists new, c. split; [ reflexivity | ]. split; [ assumption | ].
    rewrite Hi, Haddr. now apply instr_of_address.
  - destruct (aux_outcome_facts _ _ _ _ _ Hout) as ([_ Hext] & _).
    destruct (enter_call_frame P p (length (heap (st t)))
                (mk_state (heap (st t) ++ [new_node ins (name_node o)]) ht1
                   (stack (st t)) (tail_entries (st t)))) as (Hheap & _).
    rewrite Hheap in Hext. simpl in Hext.
    destruct (Hext (length (heap (st t))) (new_node ins (name_node o)))
      as (c & Hc & Hi); [ now rewrite list_lookup_middle | ].
    exists (length (heap (st t))), c.
    split; [ reflexivity | ]. split; [ assumption | ].
    rewrite Hi. simpl. now apply instr_of_address.
Qed.

(** X5. A successful observation leaves the tracker on a node that carries
    the observed address. *)
Theorem observe_lands_on_observed_address t o t' :
  reachable t -> observe t o = Ok (Some t') ->
  exists n c, cfg t' = Some n /\ heap (st t') !! n = Some c
              /\ address (instruction c) = ip o.
Proof.
  intros Hreach. apply observe_current_address.
  now apply reachable_tracker_ok.
Qed.

Lemma observe_lands_on_observed_address_witness :
  exists n c, cfg (run trace_S2) = Some n
              /\ heap (st (run trace_S2)) !! n = Some c
              /\ address (instruction c) = 0x1005.
Proof.
  apply (observe_lands_on_observed_address (run trace_call_ret)
           (obs 0x1005 1 [0x90]) (run trace_S2)).
  - exists trace_call_ret. apply run_call_ret.
  - vm_compute. reflexivity.
Defined.

(** ** The shadow stack, observation by observation *)

Lemma matching_call_Some_returns s new top n :
  matching_call s new = Some top -> heap s !! new = Some n ->
  returns_to s (address (instruction n)) = true.
Proof.
  unfold matching_call, returns_to. intros Hmc Hn.
  destruct (stack s) as [ | top' rest ]; [ discriminate | ].
  destruct (heap s !! top') as [c | ]; [ | discriminate ].
  rewrite Hn in Hmc.
  now destruct (address (instruction n) =? return_address (instruction c)).
Qed.

Lemma matching_call_None_returns s new n :
  matching_call s new = None -> heap s !! new = Some n ->
  returns_to s (address (instruction n)) = false.
Proof.
  unfold matching_call, returns_to. intros Hmc Hn.
  destruct (stack s) as [ | top' rest ]; [ reflexivity | ].
  destruct (heap s !! top') as [c | ]; [ | reflexivity ].
  rewrite Hn in Hmc.
  now destruct (address (instruction n) =? return_address (instruction c)).
Qed.

Lemma push_call_call P p s :
  type (instruction p) = CALL -> stack (push_call P p s) = P :: stack s.
Proof.
  intros Hc. unfold push_call. rewrite decide_True by assumption.
  simpl. apply stack_push_cons.
Qed.

Lemma push_call_other P p s :
  type (instruction p) <> CALL -> push_call P p s = s.
Proof. intros Hc. unfold push_call. now rewrite decide_False. Qed.

Lemma enter_call_call P p new s :
  type (instruction p) = CALL -> stack (enter_call P p new s) = P :: stack s.
Proof.
  intros Hc. unfold enter_call. rewrite decide_True by assumption.
  simpl. apply stack_push_cons.
Qed.

Lemma enter_call_other P p new s :
  type (instruction p) <> CALL -> enter_call P p new s = s.
Proof. intros Hc. unfold enter_call. now rewrite decide_False. Qed.

(** The stack after aux_cfg_insert returned a node. *)
Lemma aux_outcome_stack s P p new n s' :
  aux_outcome s P new (Some new) s' ->
  heap s !! P = Some p -> heap s !! new = Some n ->
  stack s'
  = if decide (type (instruction p) = RET)
    then if returns_to s (address (instruction n))
         then stack_pop (stack s) else stack s
    else stack s.
Proof.
  intros Hout Hp Hn.
  inversion Hout as
    [ c Hc Hfull | c Hc Hty H0 Hfree | c Hc Hty H1 | c Hc Hty Htaken
    | c Hc Hty Htaken | c Hc Hty Hmc | c top tc Hc Hty Hmc Ht Hdup
    | c top tc Hc Hty Hmc Ht Hdup ]; subst;
    assert (c = p) by congruence; subst c; simpl.
  - now rewrite decide_False.
  - rewrite decide_False by congruence. reflexivity.
  - rewrite decide_False by congruence. reflexivity.
  - rewrite decide_False by congruence. reflexivity.
  - rewrite decide_True by assumption.
    now rewrite (matching_call_None_returns _ _ _ Hmc Hn).
  - rewrite decide_True by assumption.
    now rewrite (matching_call_Some_returns _ _ _ _ Hmc Hn).
  - rewrite decide_True by assumption.
    now rewrite (matching_call_Some_returns _ _ _ _ Hmc Hn).
Qed.

Lemma returns_to_app s node ht1 a :
  state_ok s ->
  returns_to (mk_state (heap s ++ [node]) ht1 (stack s) (tail_entries s)) a
  = returns_to s a.
Proof.
  intros Hok. unfold returns_to. simpl.
  destruct (stack s) as [ | top rest ] eqn:Hs; [ reflexivity | ].
  destruct (ok_stack _ Hok top) as (c & Hc & _); [ rewrite Hs; left | ].
  now rewrite (lookup_app_l_Some _ _ _ _ Hc), Hc.
Qed.

(** X6. What one observation does to the shadow stack.  After a CALL node
    the call site is pushed, whether the callee is new, known, or already
    its successor.  After a BASIC, BRANCH or JUMP node the stack is left
    alone.  After a RET node the top is popped exactly when it returns to
    the observed address, except that nothing is popped when the observed
    instruction is known and already a successor of the RET node itself. *)
Theorem stack_effect_of_an_observation t P p o t' :
  reachable t -> cfg t = Some P -> heap (st t) !! P = Some p ->
  observe t o = Ok (Some t') ->
  (type (instruction p) = CALL -> stack (st t') = P :: stack (st t))
  /\ (type (instruction p) <> CALL -> type (instruction p) <> RET ->
      stack (st t') = stack (st t))
  /\ (type (instruction p) = RET -> returns_early t p o ->
      stack (st t') = stack (st t))
  /\ (type (instruction p) = RET -> ~ returns_early t p o ->
      stack (st t')
      = if returns_to (st t) (ip o)
        then stack_pop (stack (st t)) else stack (st t)).
Proof.
  intros Hreach HP Hp Hobs. apply reachable_tracker_ok in Hreach.
  pose proof (ok_state _ Hreach) as Hok.
  destruct (observe_observed t o t' Hreach Hobs) as
    [ ins ht1 Hstart Hins | P' p' ins new HP' Hp' Hins Hlook Hdup
    | P' p' ins new s' HP' Hp' Hins Hlook Hdup Hout
    | P' p' ins ht1 s' HP' Hp' Hins Hlook Hok1 Hout ].
  - subst t. discriminate.
  - assert (P' = P) by congruence. subst P'.
    assert (p' = p) by congruence. subst p'. simpl.
    assert (Hearly : returns_early t p o).
    { split; [ now exists ins, new | ].
      apply hashtable_lookup_Some_inv in Hlook.
      destruct Hlook as (b & n & _ & _ & Hn & Haddr).
      unfold among_successors in Hdup.
      now rewrite (addr_of_lookup _ _ _ Hn), Haddr,
        (instr_of_address _ _ Hins) in Hdup. }
    split; [ apply push_call_call | ].
    split; [ intros Hc _; now rewrite push_call_other | ].
    split; [ intros Hr _; rewrite push_call_other; congruence | ].
    intros _ Hn. contradiction.
  - assert (P' = P) by congruence. subst P'.
    assert (p' = p) by congruence. subst p'. simpl.
    apply hashtable_lookup_Some_inv in Hlook.
    destruct Hlook as (b & n & _ & _ & Hn & Haddr).
    destruct (push_call_frame P p (st t)) as (Hheap & _ & _).
    rewrite (aux_outcome_stack _ _ p _ n _ Hout)
      by (rewrite Hheap; assumption).
    rewrite Haddr, (instr_of_address _ _ Hins).
    split; [ intros Hc | split; [ intros Hc Hr | split; [ intros Hr He | intros Hr He ] ] ].
    + rewrite decide_False by congruence. now apply push_call_call.
    + rewrite decide_False by assumption. now rewrite push_call_other.
    + exfalso. apply Hdup. destruct He as [_ Hin].
      unfold among_successors.
      now rewrite (addr_of_lookup _ _ _ Hn), Haddr, (instr_of_address _ _ Hins).
    + rewrite decide_True by assumption.
      rewrite push_call_other by congruence. reflexivity.
  - assert (P' = P) by congruence. subst P'.
    assert (p' = p) by congruence. subst p'. simpl.
    set (s1 := mk_state (heap (st t) ++ [new_node ins (name_node o)]) ht1
                 (stack (st t)) (tail_entries (st t))) in *.
    destruct (enter_call_frame P p (length (heap (st t))) s1) as (Hheap & _).
    rewrite (aux_outcome_stack _ _ p _ (new_node ins (name_node o)) _ Hout).
    2:{ rewrite Hheap. simpl. now apply lookup_app_l_Some. }
    2:{ rewrite Hheap. simpl. now rewrite list_lookup_middle. }
    simpl address. rewrite (instr_of_address _ _ Hins).
    split; [ intros Hc | split; [ intros Hc Hr | split; [ intros Hr He | intros Hr He ] ] ].
    + rewrite decide_False by congruence.
      rewrite enter_call_call by assumption. reflexivity.
    + rewrite decide_False by assumption.
      rewrite enter_call_other by assumption. reflexivity.
    + exfalso. destruct He as [(ins' & new' & Hins' & Hlook') _].
      congruence.
    + rewrite decide_True by assumption.
      rewrite enter_call_other by congruence.
      unfold s1. now rewrite returns_to_app.
Qed.

Lemma stack_effect_of_an_observation_witness :
  stack (st (run trace_S2)) = stack_pop (stack (st (run trace_call_ret))).
Proof.
  refine (proj2 (proj2 (proj2
    (stack_effect_of_an_observation (run trace_call_ret) 2
       (node_at (run trace_call_ret) 2) (obs 0x1005 1 [0x90]) (run trace_S2)
       (ex_intro _ trace_call_ret run_call_ret) _ _ _))) _ _).
  - vm_compute. reflexivity.
  - vm_compute. reflexivity.
  - vm_compute. reflexivity.
  - vm_compute. reflexivity.
  - intros [(ins & new & Hins & Hlook) _].
    vm_compute in Hins. injection Hins as <-.
    vm_compute in Hlook. discriminate.
Defined.

(** ** Nodes, roster and edges, observation by observation *)

Lemma aux_outcome_length s P new r s' :
  aux_outcome s P new r s' -> length (heap s') = length (heap s).
Proof. intros Hout. destruct Hout; simpl; now rewrite ?add_edge_length. Qed.

Lemma aux_outcome_None s P new s' :
  aux_outcome s P new None s' ->
  s' = s /\ exists c, heap s !! P = Some c /\ full c.
Proof.
  intros Hout. inversion Hout; subst. split; [ reflexivity | ].
  eexists. split; eassumption.
Qed.

Lemma aux_outcome_full s P new r s' c :
  aux_outcome s P new r s' -> heap s !! P = Some c -> full c -> r = None.
Proof.
  intros Hout Hc Hfull.
  inversion Hout as
    [ c' Hc' _ | c' Hc' Hty H0 _ | c' Hc' Hty H1 | c' Hc' Hty _
    | c' Hc' Hty _ | c' Hc' Hty _ | c' top tc Hc' Hty _ _ _
    | c' top tc Hc' Hty _ _ _ ]; subst; try reflexivity;
    assert (c' = c) by congruence; subst c';
    exfalso; destruct Hfull as [[Hb Hn] | [Hb Hn]]; try congruence; lia.
Qed.

Lemma known_lookup t o ins found :
  instr_of o = Some ins ->
  hashtable_lookup (heap (st t)) (ht (st t)) ins = Ok found ->
  known t o <-> exists new, found = Some new.
Proof.
  intros Hins Hlook. split.
  - intros (ins' & new & Hins' & Hlook').
    assert (ins' = ins) by congruence. subst ins'.
    exists new. congruence.
  - intros [new ->]. now exists ins, new.
Qed.

Lemma among_address t o ins new p :
  instr_of o = Some ins ->
  hashtable_lookup (heap (st t)) (ht (st t)) ins = Ok (Some new) ->
  among_successors (heap (st t)) new p
  <-> ip o ∈ successor_addresses (heap (st t)) p.
Proof.
  intros Hins Hlook. apply hashtable_lookup_Some_inv in Hlook.
  destruct Hlook as (b & n & _ & _ & Hn & Haddr).
  unfold among_successors.
  now rewrite (addr_of_lookup _ _ _ Hn), Haddr, (instr_of_address _ _ Hins).
Qed.

Lemma not_known_start o : ~ known tracker_start o.
Proof.
  intros (ins & new & _ & Hlook).
  apply hashtable_lookup_Some_inv in Hlook.
  destruct Hlook as (b & n & _ & _ & Hn & _).
  simpl in Hn. now rewrite lookup_nil in Hn.
Qed.

(** The number of nodes after one observation. *)
Lemma one_node_per_length t o t' :
  tracker_ok t -> observe t o = Ok (Some t') ->
  (length (heap (st t)) <= length (heap (st t')))%nat
  /\ (known t o -> length (heap (st t')) = length (heap (st t)))
  /\ (~ known t o -> length (heap (st t')) = S (length (heap (st t)))).
Proof.
  intros Hok Hobs.
  assert (H : (known t o -> length (heap (st t')) = length (heap (st t)))
              /\ (~ known t o ->
                  length (heap (st t')) = S (length (heap (st t))))).
  { destruct (observe_observed t o t' Hok Hobs) as
      [ ins ht1 Hstart Hins | P p ins new HP Hp Hins Hlook Hdup
      | P p ins new s' HP Hp Hins Hlook Hdup Hout
      | P p ins ht1 s' HP Hp Hins Hlook Hok1 Hout ]; simpl.
    - subst t. split; [ intros Hk; now apply not_known_start in Hk | ].
      intros _. reflexivity.
    - split.
      + intros _. now destruct (push_call_frame P p (st t)) as (-> & _).
      + intros Hn. exfalso. apply Hn. now exists ins, new.
    - split.
      + intros _. rewrite (aux_outcome_length _ _ _ _ _ Hout).
        now destruct (push_call_frame P p (st t)) as (-> & _).
      + intros Hn. exfalso. apply Hn. now exists ins, new.
    - split.
      + intros Hk. apply (known_lookup t o ins None Hins Hlook) in Hk.
        now destruct Hk as [new Hnew].
      + intros _. rewrite (aux_outcome_length _ _ _ _ _ Hout).
        destruct (enter_call_frame P p (length (heap (st t)))
                    (mk_state (heap (st t) ++ [new_node ins (name_node o)]) ht1
                       (stack (st t)) (tail_entries (st t)))) as (-> & _).
        simpl. rewrite length_app. simpl. lia. }
  destruct H as [Hk Hn]. split; [ | now split ].
  destruct (instr_of o) as [ins | ] eqn:Hins.
  2:{ unfold observe in Hobs. fold (instr_of o) in Hobs.
      rewrite Hins in Hobs. discriminate. }
  destruct (tracker_ok_cases t Hok) as [-> | (P & p & HP & Hp)].
  - simpl. lia.
  - destruct (hashtable_lookup_total (heap (st t)) (ht (st t)) ins
                (ok_buckets _ (ok_state _ Hok))) as [found Hlook].
    destruct found as [new | ].
    + rewrite Hk; [ lia | now exists ins, new ].
    + rewrite Hn; [ lia | ].
      intros Hkn. apply (known_lookup t o ins None Hins Hlook) in Hkn.
      now destruct Hkn.
Qed.

(** X7. A node is allocated exactly when the observed instruction is not
    found in the index: then the graph gets one node more, which is the
    node the tracker moves to; otherwise the number of nodes stays. *)
Theorem one_node_per_unknown_instruction t o t' :
  reachable t -> observe t o = Ok (Some t') ->
  (known t o -> length (heap (st t')) = length (heap (st t)))
  /\ (~ known t o ->
      length (heap (st t')) = S (length (heap (st t)))
      /\ cfg t' = Some (length (heap (st t)))).
Proof.
  intros Hreach Hobs. apply reachable_tracker_ok in Hreach.
  destruct (observe_observed t o t' Hreach Hobs) as
    [ ins ht1 Hstart Hins | P p ins new HP Hp Hins Hlook Hdup
    | P p ins new s' HP Hp Hins Hlook Hdup Hout
    | P p ins ht1 s' HP Hp Hins Hlook Hok1 Hout ]; simpl.
  - subst t. split; [ intros Hk; now apply not_known_start in Hk | ].
    intros _. now split.
  - split.
    + intros _. now destruct (push_call_frame P p (st t)) as (-> & _).
    + intros Hn. exfalso. apply Hn. now exists ins, new.
  - split.
    + intros _. rewrite (aux_outcome_length _ _ _ _ _ Hout).
      now destruct (push_call_frame P p (st t)) as (-> & _).
    + intros Hn. exfalso. apply Hn. now exists ins, new.
  - split.
    + intros Hk. apply (known_lookup t o ins None Hins Hlook) in Hk.
      now destruct Hk as [new Hnew].
    + intros _. split; [ | reflexivity ].
      rewrite (aux_outcome_length _ _ _ _ _ Hout).
      destruct (enter_call_frame P p (length (heap (st t)))
                  (mk_state (heap (st t) ++ [new_node ins (name_node o)]) ht1
                     (stack (st t)) (tail_entries (st t)))) as (-> & _).
      simpl. rewrite length_app. simpl. lia.
Qed.

Lemma one_node_per_unknown_instruction_witness :
  length (heap (st (run trace_S2)))
  = S (length (heap (st (run trace_call_ret))))
  /\ cfg (run trace_S2) = Some (length (heap (st (run trace_call_ret)))).
Proof.
  refine (proj2 (one_node_per_unknown_instruction (run trace_call_ret)
                   (obs 0x1005 1 [0x90]) (run trace_S2)
                   (ex_intro _ trace_call_ret run_call_ret) _) _).
  - vm_compute. reflexivity.
  - intros (ins & new & Hins & Hlook).
    vm_compute in Hins. injection Hins as <-.
    vm_compute in Hlook. discriminate.
Defined.

(** ** The roster of function entries *)

Lemma list_insert_after_cons (e : nat) rest d :
  list_insert_after (e :: rest) d = (e :: rest) ++ [d].
Proof. reflexivity. Qed.

Lemma enter_call_roster P p new s :
  tail_entries (enter_call P p new s)
  = if decide (type (instruction p) = CALL)
    then list_insert_after (tail_entries s) new else tail_entries s.
Proof. unfold enter_call. now destruct (decide _). Qed.

(** The roster after one observation. *)
Lemma observed_roster t o t' P p :
  observed t o t' -> cfg t = Some P -> heap (st t) !! P = Some p ->
  (known t o -> tail_entries (st t') = tail_entries (st t))
  /\ (~ known t o ->
      tail_entries (st t')
      = if decide (type (instruction p) = CALL)
        then list_insert_after (tail_entries (st t)) (length (heap (st t)))
        else tail_entries (st t)).
Proof.
  intros Hobs HP Hp.
  destruct Hobs as
    [ ins ht1 Hstart Hins | P' p' ins new HP' Hp' Hins Hlook Hdup
    | P' p' ins new s' HP' Hp' Hins Hlook Hdup Hout
    | P' p' ins ht1 s' HP' Hp' Hins Hlook Hok1 Hout ]; simpl.
  - subst t. discriminate.
  - split; [ intros _ | intros Hn; exfalso; apply Hn; now exists ins, new ].
    now destruct (push_call_frame P' p' (st t)) as (_ & _ & ->).
  - split; [ intros _ | intros Hn; exfalso; apply Hn; now exists ins, new ].
    destruct (aux_outcome_facts _ _ _ _ _ Hout) as (_ & _ & -> & _).
    now destruct (push_call_frame P' p' (st t)) as (_ & _ & ->).
  - assert (P' = P) by congruence. subst P'.
    assert (p' = p) by congruence. subst p'.
    split.
    + intros Hk. apply (known_lookup t o ins None Hins Hlook) in Hk.
      now destruct Hk as [new Hnew].
    + intros _. destruct (aux_outcome_facts _ _ _ _ _ Hout) as (_ & _ & -> & _).
      now rewrite enter_call_roster.
Qed.

Lemma roster_invariant t :
  reachable t ->
  cfg t = None
  \/ ((exists rest, tail_entries (st t) = 0%nat :: rest)
      /\ NoDup (tail_entries (st t))
      /\ forall e, e ∈ tail_entries (st t) ->
           (e < length (heap (st t)))%nat).
Proof.
  revert t. apply reachable_ind; [ now left | ].
  intros t o t' Hreach IH Hobs. right.
  pose proof (reachable_tracker_ok _ Hreach) as Hok.
  pose proof (observe_observed t o t' Hok Hobs) as Hcase.
  destruct (tracker_ok_cases t Hok) as [-> | (P & p & HP & Hp)].
  - inversion Hcase as [ ins ht1 _ Hins | P p ins new HP | P p ins new s' HP
                       | P p ins ht1 s' HP ]; subst; try discriminate.
    simpl. split; [ now exists [] | ]. split.
    + apply NoDup_singleton.
    + intros e He. apply list_elem_of_singleton in He. subst e. lia.
  - destruct IH as [Hnone | ([rest Hrest] & Hnd & Hlive)]; [ congruence | ].
    assert (Hgrow : (length (heap (st t)) <= length (heap (st t')))%nat).
    { destruct (reachable_observe _ _ _ Hreach Hobs) as [os' Hos'].
      destruct Hreach as [os Hos].
      pose proof (proj1 (one_node_per_length t o t' Hok Hobs)). lia. }
    destruct (observed_roster t o t' P p Hcase HP Hp) as [Hk Hn].
    assert (Hcases : tail_entries (st t') = tail_entries (st t)
                     \/ (tail_entries (st t')
                         = tail_entries (st t) ++ [length (heap (st t))]
                         /\ length (heap (st t')) = S (length (heap (st t))))).
    { destruct (one_node_per_length t o t' Hok Hobs) as (_ & Hsame & Hnew).
      destruct (instr_of o) as [ins | ] eqn:Hins.
      2:{ unfold observe in Hobs. fold (instr_of o) in Hobs.
          rewrite Hins in Hobs. discriminate. }
      destruct (hashtable_lookup_total (heap (st t)) (ht (st t)) ins
                  (ok_buckets _ (ok_state _ Hok))) as [found Hlook].
      destruct found as [new | ].
      - left. apply Hk. now exists ins, new.
      - assert (Hnk : ~ known t o).
        { intros Hkn. apply (known_lookup t o ins None Hins Hlook) in Hkn.
          now destruct Hkn. }
        rewrite (Hn Hnk). destruct (decide _); [ | now left ].
        right. rewrite Hrest. split; [ reflexivity | now apply Hnew ]. }
    destruct Hcases as [-> | [-> Hlen]].
    + split; [ now exists rest | ]. split; [ assumption | ].
      intros e He. specialize (Hlive e He). lia.
    + split; [ exists (rest ++ [length (heap (st t))]); now rewrite Hrest | ].
      split.
      * apply NoDup_app. split; [ assumption | ]. split.
        -- intros e He Hin. apply list_elem_of_singleton in Hin. subst e.
           specialize (Hlive _ He). lia.
        -- apply NoDup_singleton.
      * intros e He. apply elem_of_app in He. destruct He as [He | He].
        -- specialize (Hlive e He). lia.
        -- apply list_elem_of_singleton in He. subst e. lia.
Qed.

(** X8. The roster of function entries grows by the new node exactly when
    the predecessor is a CALL and the observed instruction is not found in
    the index; a callee that is already in the index, and whatever follows a
    node of another type, leaves the roster as it is. *)
Theorem roster_grows_at_unknown_callees t P p o t' :
  reachable t -> cfg t = Some P -> heap (st t) !! P = Some p ->
  observe t o = Ok (Some t') ->
  (type (instruction p) = CALL -> ~ known t o ->
   tail_entries (st t') = tail_entries (st t) ++ [length (heap (st t))])
  /\ (type (instruction p) <> CALL \/ known t o ->
      tail_entries (st t') = tail_entries (st t)).
Proof.
  intros Hreach HP Hp Hobs.
  pose proof (reachable_tracker_ok _ Hreach) as Hok.
  pose proof (observe_observed t o t' Hok Hobs) as Hcase.
  destruct (observed_roster t o t' P p Hcase HP Hp) as [Hk Hn].
  destruct (roster_invariant t Hreach)
    as [Hnone | ([rest Hrest] & _ & _)]; [ congruence | ].
  split.
  - intros Hcall Hnk. rewrite (Hn Hnk), decide_True by assumption.
    now rewrite Hrest.
  - intros [Hty | Hkn]; [ | now apply Hk ].
    destruct (instr_of o) as [ins | ] eqn:Hins.
    2:{ unfold observe in Hobs. fold (instr_of o) in Hobs.
        rewrite Hins in Hobs. discriminate. }
    destruct (hashtable_lookup_total (heap (st t)) (ht (st t)) ins
                (ok_buckets _ (ok_state _ Hok))) as [found Hlook].
    destruct found as [new | ].
    + apply Hk. now exists ins, new.
    + assert (Hnk : ~ known t o).
      { intros Hkn. apply (known_lookup t o ins None Hins Hlook) in Hkn.
        now destruct Hkn. }
      rewrite (Hn Hnk). now rewrite decide_False.
Qed.

Lemma roster_grows_at_unknown_callees_witness :
  tail_entries (st (run (take 2 trace_S2)))
  = tail_entries (st (run (take 1 trace_S2))) ++ [1%nat].
Proof.
  refine (proj1 (roster_grows_at_unknown_callees (run (take 1 trace_S2)) 0
                   (node_at (run (take 1 trace_S2)) 0) (obs 0x2000 1 [0x90])
                   (run (take 2 trace_S2))
                   (ex_intro _ (take 1 trace_S2) _) _ _ _) _ _).
  - vm_compute. reflexivity.
  - vm_compute. reflexivity.
  - vm_compute. reflexivity.
  - vm_compute. reflexivity.
  - vm_compute. reflexivity.
  - intros (ins & new & Hins & Hlook).
    vm_compute in Hins. injection Hins as <-.
    vm_compute in Hlook. discriminate.
Defined.

(** X9. Once a run has started, the roster begins with the first node of
    the graph, lists no node twice, and every entry is a live node: walking
    it with list_get_ith yields pointers that can be followed. *)
Theorem roster_entries_are_distinct_nodes t P :
  reachable t -> cfg t = Some P ->
  list_get_ith (tail_entries (st t)) 0 = Some 0%nat
  /\ NoDup (tail_entries (st t))
  /\ forall i e, list_get_ith (tail_entries (st t)) i = Some e ->
       exists c, heap (st t) !! e = Some c.
Proof.
  intros Hreach HP.
  destruct (roster_invariant t Hreach)
    as [Hnone | ([rest Hrest] & Hnd & Hlive)]; [ congruence | ].
  split; [ unfold list_get_ith; now rewrite Hrest | ].
  split; [ assumption | ].
  intros i e Hi. apply lookup_lt_is_Some_2, Hlive.
  unfold list_get_ith in Hi. eapply list_elem_of_lookup_2, Hi.
Qed.

Lemma roster_entries_are_distinct_nodes_witness :
  list_get_ith (tail_entries (st (run trace_S2))) 0 = Some 0%nat
  /\ NoDup (tail_entries (st (run trace_S2)))
  /\ forall i e, list_get_ith (tail_entries (st (run trace_S2))) i = Some e ->
       exists c, heap (st (run trace_S2)) !! e = Some c.
Proof.
  apply (roster_entries_are_distinct_nodes (run trace_S2) 3).
  - exists trace_S2. vm_compute. reflexivity.
  - vm_compute. reflexivity.
Defined.

Lemma roster_length t :
  reachable t ->
  (length (tail_entries (st t)) <= length (heap (st t)))%nat.
Proof.
  intros Hreach.
  destruct (roster_invariant t Hreach) as [Hnone | (_ & Hnd & Hlive)].
  - rewrite (ok_start _ (reachable_tracker_ok _ Hreach) Hnone). simpl. lia.
  - assert (Hsub : tail_entries (st t) ⊆+ seq 0 (length (heap (st t)))).
    { apply NoDup_submseteq; [ assumption | ].
      intros e He. apply elem_of_seq. specialize (Hlive e He). lia. }
    apply submseteq_length in Hsub. now rewrite length_seq in Hsub.
Qed.

(** X23. Reading the type of a function entry.  The driver ends with
    cfg_get_type on list_get_ith (first_entry, i), for i = 90.  For an index
    inside the roster this reads a live node; for an index that is at least
    the number of nodes of the graph the roster has no such entry,
    list_get_ith returns NULL, and cfg_get_type dereferences it. *)
Theorem entry_type_needs_a_roster_entry t i :
  reachable t ->
  ((i < length (tail_entries (st t)))%nat ->
   exists ty,
     cfg_get_type_of (heap (st t)) (list_get_ith (tail_entries (st t)) i)
     = Ok ty)
  /\ ((length (heap (st t)) <= i)%nat ->
      cfg_get_type_of (heap (st t)) (list_get_ith (tail_entries (st t)) i)
      = Fault).
Proof.
  intros Hreach. split.
  - intros Hi. unfold list_get_ith.
    destruct (lookup_lt_is_Some_2 _ _ Hi) as [e He]. rewrite He.
    destruct (roster_invariant t Hreach) as [Hnone | (_ & _ & Hlive)].
    + rewrite (ok_start _ (reachable_tracker_ok _ Hreach) Hnone) in He.
      simpl in He. now rewrite lookup_nil in He.
    + assert (Hlt : (e < length (heap (st t)))%nat)
        by (eapply Hlive, list_elem_of_lookup_2, He).
      destruct (deref_valid _ _ Hlt) as [c Hc].
      exists (cfg_get_type c). simpl. now rewrite (deref_ok _ _ _ Hc).
  - intros Hi. pose proof (roster_length t Hreach) as Hlen.
    unfold list_get_ith. rewrite lookup_ge_None_2 by lia. reflexivity.
Qed.

Lemma entry_type_needs_a_roster_entry_witness :
  cfg_get_type_of (heap (st (run trace_S2)))
    (list_get_ith (tail_entries (st (run trace_S2))) 90) = Fault.
Proof.
  refine (proj2 (entry_type_needs_a_roster_entry (run trace_S2) 90
                   (ex_intro _ trace_S2 run_S2)) _).
  vm_compute. lia.
Defined.

(** ** Which transitions become edges *)

Lemma add_edge_records h P new c n :
  h !! P = Some c -> h !! new = Some n ->
  node_ok (length h) c -> can_append c -> nb_out c < 2 ^ 16 - 1 ->
  exists c', add_edge h P new !! P = Some c'
             /\ address (instruction n)
                ∈ successor_addresses (add_edge h P new) c'.
Proof.
  intros Hc Hn Hok Hcan Hroom.
  destruct (add_edge_installed h P new c Hc Hok Hcan)
    as (c0 & c' & Hc0 & Hc' & Hslot & Hout & _).
  assert (c0 = c) by congruence. subst c0.
  exists c'. split; [ assumption | ].
  pose proof (ok_nb_out _ _ Hok) as Hrange.
  unfold u16 in Hout. rewrite Z.mod_small in Hout by lia.
  unfold successor_addresses.
  apply (list_elem_of_fmap_2' _ _ (Some new)).
  - unfold out_edges. apply elem_of_take.
    exists (Z.to_nat (nb_out c)). split; [ assumption | lia ].
  - simpl. rewrite (addr_of_ext h) by
      (auto using heap_ext_add_edge; eapply lookup_lt_Some, Hn).
    symmetry. now apply addr_of_lookup.
Qed.

(** X10. A CALL node keeps its first callee only: observing, after a CALL
    node that has a successor already, an instruction at another address
    succeeds and pushes the call site, but installs no edge; no existing
    node is changed, and a node allocated for the instruction has no
    predecessor. *)
Theorem call_keeps_first_callee t P p o t' :
  reachable t -> cfg t = Some P -> heap (st t) !! P = Some p ->
  type (instruction p) = CALL -> nb_out p <> 0 ->
  ip o ∉ successor_addresses (heap (st t)) p ->
  observe t o = Ok (Some t') ->
  (known t o -> heap (st t') = heap (st t))
  /\ (~ known t o ->
      exists ins, instr_of o = Some ins
        /\ heap (st t') = heap (st t) ++ [new_node ins (name_node o)])
  /\ stack (st t') = P :: stack (st t).
Proof.
  intros Hreach HP Hp Hcall Hout Hnot Hobs.
  apply reachable_tracker_ok in Hreach.
  pose proof (ok_state _ Hreach) as Hok.
  assert (Htaken : successor p !! 0%nat <> Some None).
  { intros H0. apply Hout.
    exact (node_slot0_free _ _ (ok_nodes _ Hok _ _ Hp) H0). }
  destruct (observe_observed t o t' Hreach Hobs) as
    [ ins ht1 Hstart Hins | P' p' ins new HP' Hp' Hins Hlook Hdup
    | P' p' ins new s' HP' Hp' Hins Hlook Hdup Hcase
    | P' p' ins ht1 s' HP' Hp' Hins Hlook Hok1 Hcase ].
  - subst t. discriminate.
  - assert (P' = P) by congruence. subst P'.
    assert (p' = p) by congruence. subst p'.
    exfalso. apply Hnot. now apply (among_address t o ins new p Hins Hlook).
  - assert (P' = P) by congruence. subst P'.
    assert (p' = p) by congruence. subst p'. simpl.
    destruct (push_call_frame P p (st t)) as (Hheap & _ & _).
    assert (Hs' : s' = push_call P p (st t)).
    { inversion Hcase as
        [ c Hc Hfull | c Hc Hty H0 Hfree | c Hc Hty H1 | c Hc Hty Ht
        | c Hc Hty Ht | c Hc Hty Hmc | c top tc Hc Hty Hmc Ht Hd
        | c top tc Hc Hty Hmc Ht Hd ]; subst; try reflexivity;
        rewrite Hheap in Hc; assert (c = p) by congruence; subst c;
        congruence. }
    subst s'. split; [ intros _; exact Hheap | ].
    split; [ | now apply push_call_call ].
    intros Hn. exfalso. apply Hn. now exists ins, new.
  - assert (P' = P) by congruence. subst P'.
    assert (p' = p) by congruence. subst p'. simpl.
    set (s1 := mk_state (heap (st t) ++ [new_node ins (name_node o)]) ht1
                 (stack (st t)) (tail_entries (st t))) in *.
    destruct (enter_call_frame P p (length (heap (st t))) s1) as (Hheap & _).
    assert (Hp1 : heap s1 !! P = Some p) by now apply lookup_app_l_Some.
    assert (Hs' : s' = enter_call P p (length (heap (st t))) s1).
    { inversion Hcase as
        [ c Hc Hfull | c Hc Hty H0 Hfree | c Hc Hty H1 | c Hc Hty Ht
        | c Hc Hty Ht | c Hc Hty Hmc | c top tc Hc Hty Hmc Ht Hd
        | c top tc Hc Hty Hmc Ht Hd ]; subst; try reflexivity;
        rewrite Hheap in Hc; assert (c = p) by congruence; subst c;
        congruence. }
    subst s'. split.
    + intros Hk. apply (known_lookup t o ins None Hins Hlook) in Hk.
      now destruct Hk.
    + split.
      * intros _. exists ins. split; [ assumption | ]. now rewrite Hheap.
      * rewrite enter_call_call by assumption. reflexivity.
Qed.

Lemma run_two_callees :
  observe_all tracker_start trace_two_callees
  = Ok (Some (run trace_two_callees)).
Proof. vm_compute. reflexivity. Qed.

Lemma call_keeps_first_callee_witness :
  (exists ins, instr_of (obs 0x3000 1 [0x90]) = Some ins
     /\ heap (st (run (trace_two_callees ++ [obs 0x3000 1 [0x90]])))
        = heap (st (run trace_two_callees))
            ++ [new_node ins String.EmptyString])
  /\ stack (st (run (trace_two_callees ++ [obs 0x3000 1 [0x90]])))
     = 0%nat :: stack (st (run trace_two_callees)).
Proof.
  assert (HP : cfg (run trace_two_callees) = Some 0%nat)
    by (vm_compute; reflexivity).
  assert (Hp : heap (st (run trace_two_callees)) !! 0%nat
               = Some (node_at (run trace_two_callees) 0))
    by (vm_compute; reflexivity).
  assert (Hcall : type (instruction (node_at (run trace_two_callees) 0))
                  = CALL) by (vm_compute; reflexivity).
  assert (Hout : nb_out (node_at (run trace_two_callees) 0) <> 0)
    by (vm_compute; discriminate).
  assert (Hnot : ip (obs 0x3000 1 [0x90])
                 ∉ successor_addresses (heap (st (run trace_two_callees)))
                     (node_at (run trace_two_callees) 0)).
  { vm_compute. intros Hin. apply list_elem_of_In in Hin.
    simpl in Hin. destruct Hin as [Hin | [Hin | []]]; discriminate. }
  assert (Hobs : observe (run trace_two_callees) (obs 0x3000 1 [0x90])
                 = Ok (Some (run (trace_two_callees
                                    ++ [obs 0x3000 1 [0x90]]))))
    by (vm_compute; reflexivity).
  destruct (call_keeps_first_callee _ _ _ _ _
              (ex_intro _ trace_two_callees run_two_callees)
              HP Hp Hcall Hout Hnot Hobs) as (_ & Hnew & Hstack).
  split; [ | exact Hstack ].
  apply Hnew. intros (ins & new & Hins & Hlook).
  vm_compute in Hins. injection Hins as <-.
  vm_compute in Hlook. discriminate.
Defined.

Lemma instr_of_None o : instr_of o = None <-> insn_size o = 0.
Proof.
  unfold instr_of, instr_new.
  destruct (insn_size o =? 0) eqn:Hz.
  - apply Z.eqb_eq in Hz. tauto.
  - apply Z.eqb_neq in Hz. split; [ discriminate | tauto ].
Qed.

(** X11. After a node, the build is ended by an observation in two cases
    only: the instruction has size 0, or the node is full (a BASIC node with
    a successor, a BRANCH node with two) and the observed instruction is not
    a known successor of it.  No observation after a JUMP, CALL or RET node
    ends the build. *)
Theorem build_ends_exactly_at_full_nodes t P p o :
  reachable t -> cfg t = Some P -> heap (st t) !! P = Some p ->
  observe t o = Ok None
  <-> insn_size o = 0 \/ (full p /\ ~ returns_early t p o).
Proof.
  intros Hreach HP Hp. apply reachable_tracker_ok in Hreach.
  pose proof (ok_state _ Hreach) as Hok.
  destruct (instr_of o) as [ins | ] eqn:Hins.
  2:{ split; [ intros _; left; now apply instr_of_None | intros _ ].
      unfold observe. fold (instr_of o). now rewrite Hins. }
  assert (Hsize : insn_size o <> 0).
  { intros Hz. apply instr_of_None in Hz. congruence. }
  destruct (hashtable_lookup_total (heap (st t)) (ht (st t)) ins
              (ok_buckets _ Hok)) as [found Hlook].
  destruct found as [new | ].
  - destruct (observe_known t P p o ins new Hreach HP Hp Hins Hlook)
      as [Hearly Hlate].
    destruct (decide (among_successors (heap (st t)) new p)) as [Hdup | Hdup].
    + rewrite (Hearly Hdup). split; [ discriminate | ].
      intros [Hz | [_ Hn]]; [ contradiction | ].
      exfalso. apply Hn. split; [ now exists ins, new | ].
      now apply (among_address t o ins new p Hins Hlook).
    + destruct (Hlate Hdup) as (r & s' & Hout & Heq). rewrite Heq.
      destruct (push_call_frame P p (st t)) as (Hheap & _ & _).
      split.
      * intros Hr. destruct r as [n | ]; [ discriminate | ].
        right. apply aux_outcome_None in Hout.
        destruct Hout as (_ & c & Hc & Hfull).
        rewrite Hheap in Hc. assert (c = p) by congruence. subst c.
        split; [ assumption | ]. intros [_ Hin]. apply Hdup.
        now apply (among_address t o ins new p Hins Hlook).
      * intros [Hz | [Hfull _]]; [ contradiction | ].
        rewrite (aux_outcome_full _ _ _ _ _ p Hout); [ reflexivity | | ];
          [ now rewrite Hheap | assumption ].
  - destruct (observe_fresh t P p o ins Hreach HP Hp Hins Hlook)
      as (ht1 & r & s' & Hok1 & Hout & Heq). rewrite Heq.
    set (s1 := mk_state (heap (st t) ++ [new_node ins (name_node o)]) ht1
                 (stack (st t)) (tail_entries (st t))) in *.
    destruct (enter_call_frame P p (length (heap (st t))) s1) as (Hheap & _).
    assert (Hp1 : heap s1 !! P = Some p) by now apply lookup_app_l_Some.
    split.
    + intros Hr. destruct r as [n | ]; [ discriminate | ].
      right. apply aux_outcome_None in Hout.
      destruct Hout as (_ & c & Hc & Hfull).
      rewrite Hheap in Hc. assert (c = p) by congruence. subst c.
      split; [ assumption | ]. intros [Hk _].
      apply (known_lookup t o ins None Hins Hlook) in Hk. now destruct Hk.
    + intros [Hz | [Hfull _]]; [ contradiction | ].
      rewrite (aux_outcome_full _ _ _ _ _ p Hout); [ reflexivity | | ];
        [ now rewrite Hheap | assumption ].
Qed.

Lemma build_ends_exactly_at_full_nodes_witness :
  observe (run trace_basic) (obs 0x1002 1 [0x90]) = Ok None
  <-> insn_size (obs 0x1002 1 [0x90]) = 0
      \/ (full (node_at (run trace_basic) 0)
          /\ ~ returns_early (run trace_basic) (node_at (run trace_basic) 0)
                 (obs 0x1002 1 [0x90])).
Proof.
  apply (build_ends_exactly_at_full_nodes (run trace_basic) 0).
  - exists trace_basic. vm_compute. reflexivity.
  - vm_compute. reflexivity.
  - vm_compute. reflexivity.
Defined.

Lemma observe_records t P p o t' :
  reachable t -> cfg t = Some P -> heap (st t) !! P = Some p ->
  type (instruction p) <> RET ->
  (type (instruction p) = CALL ->
   cfg_get_successor_i (heap (st t)) P 0 = Ok None) ->
  nb_out p < 2 ^ 16 - 1 ->
  observe t o = Ok (Some t') ->
  exists p', heap (st t') !! P = Some p'
             /\ ip o ∈ successor_addresses (heap (st t')) p'.
Proof.
  intros Hreach HP Hp Hret Hslot Hroom Hobs.
  apply reachable_tracker_ok in Hreach.
  pose proof (ok_state _ Hreach) as Hok.
  pose proof (ok_nodes _ Hok _ _ Hp) as Hnode.
  assert (Hfree : type (instruction p) = CALL ->
                  successor p !! 0%nat = Some None).
  { intros Hcall. specialize (Hslot Hcall).
    unfold cfg_get_successor_i, deref in Hslot. rewrite Hp in Hslot.
    cbn [bind] in Hslot. change (Z.to_nat 0) with 0%nat in Hslot.
    destruct (successor p !! 0%nat) as [v | ]; [ | discriminate ].
    congruence. }
  assert (Hedge : forall s n s' new,
            heap s !! P = Some p ->
            state_ok s ->
            heap s !! new = Some n ->
            address (instruction n) = ip o ->
            aux_outcome s P new (Some new) s' ->
            exists p', heap s' !! P = Some p'
                       /\ ip o ∈ successor_addresses (heap s') p').
  { intros s n s' new HpS HokS Hn Haddr Hout.
    pose proof (ok_nodes _ HokS _ _ HpS) as HnodeS.
    rewrite <- Haddr.
    inversion Hout as
      [ c Hc Hfull | c Hc Hty H0 Hfr | c Hc Hty H1 | c Hc Hty Ht
      | c Hc Hty Ht | c Hc Hty Hmc | c top tc Hc Hty Hmc Ht Hd
      | c top tc Hc Hty Hmc Ht Hd ]; subst;
      assert (c = p) by congruence; subst c; simpl;
      try congruence.
    - apply (add_edge_records _ _ _ p n); try assumption.
      unfold can_append. rewrite H0. now destruct (type (instruction p)); auto.
    - apply (add_edge_records _ _ _ p n); try assumption.
      unfold can_append. rewrite Hty. now right.
    - apply (add_edge_records _ _ _ p n); try assumption.
      unfold can_append. now rewrite Hty.
    - exfalso. apply Ht. now apply Hfree. }
  destruct (observe_observed t o t' Hreach Hobs) as
    [ ins ht1 Hstart Hins | P' p' ins new HP' Hp' Hins Hlook Hdup
    | P' p' ins new s' HP' Hp' Hins Hlook Hdup Hcase
    | P' p' ins ht1 s' HP' Hp' Hins Hlook Hok1 Hcase ].
  - subst t. discriminate.
  - assert (P' = P) by congruence. subst P'.
    assert (p' = p) by congruence. subst p'. simpl.
    destruct (push_call_frame P p (st t)) as (-> & _ & _).
    exists p. split; [ assumption | ].
    now apply (among_address t o ins new p Hins Hlook).
  - assert (P' = P) by congruence. subst P'.
    assert (p' = p) by congruence. subst p'. simpl.
    destruct (push_call_frame P p (st t)) as (Hheap & _ & _).
    pose proof Hlook as Hlook'.
    apply hashtable_lookup_Some_inv in Hlook'.
    destruct Hlook' as (b & n & _ & _ & Hn & Haddr).
    apply (Hedge (push_call P p (st t)) n s' new); rewrite ?Hheap;
      try assumption.
    + now apply push_call_ok.
    + now rewrite Haddr, (instr_of_address _ _ Hins).
  - assert (P' = P) by congruence. subst P'.
    assert (p' = p) by congruence. subst p'. simpl.
    set (s1 := mk_state (heap (st t) ++ [new_node ins (name_node o)]) ht1
                 (stack (st t)) (tail_entries (st t))) in *.
    destruct (enter_call_frame P p (length (heap (st t))) s1) as (Hheap & _).
    assert (Hp1 : heap s1 !! P = Some p) by now apply lookup_app_l_Some.
    apply (Hedge (enter_call P p (length (heap (st t))) s1)
             (new_node ins (name_node o)) s' (length (heap (st t))));
      rewrite ?Hheap;
      try assumption.
    + now apply enter_call_ok.
    + simpl. now rewrite list_lookup_middle.
    + simpl. now apply instr_of_address.
Qed.

(** X12. A step that succeeds is recorded: after a BASIC, BRANCH or JUMP
    node, or a CALL node whose first slot is free, a successful observation
    leaves the observed address among the successors of that node (unless
    the 16-bit out-degree is about to wrap). *)
Theorem step_is_recorded t P p o t' :
  reachable t -> cfg t = Some P -> heap (st t) !! P = Some p ->
  type (instruction p) <> RET ->
  (type (instruction p) = CALL ->
   cfg_get_successor_i (heap (st t)) P 0 = Ok None) ->
  nb_out p < 2 ^ 16 - 1 ->
  observe t o = Ok (Some t') ->
  exists p', heap (st t') !! P = Some p'
             /\ ip o ∈ successor_addresses (heap (st t')) p'.
Proof. apply observe_records. Qed.

Lemma step_is_recorded_witness :
  exists p', heap (st (run (take 2 trace_S2))) !! 0%nat = Some p'
    /\ ip (obs 0x2000 1 [0x90])
       ∈ successor_addresses (heap (st (run (take 2 trace_S2)))) p'.
Proof.
  apply (step_is_recorded (run (take 1 trace_S2)) 0
           (node_at (run (take 1 trace_S2)) 0) (obs 0x2000 1 [0x90])
           (run (take 2 trace_S2))).
  - exists (take 1 trace_S2). vm_compute. reflexivity.
  - vm_compute. reflexivity.
  - vm_compute. reflexivity.
  - vm_compute. discriminate.
  - intros _. vm_compute. reflexivity.
  - vm_compute. reflexivity.
  - vm_compute. reflexivity.
Defined.

(** ** The index as a table *)

Lemma bucket_find_app h b b' a :
  bucket_find h (b ++ b') a
  = match bucket_find h b a with
    | Ok None => bucket_find h b' a
    | r => r
    end.
Proof.
  induction b as [ | p b IH ]; simpl; [ reflexivity | ].
  destruct (deref h p) as [c | ]; cbn [bind]; [ | reflexivity ].
  now destruct (address (instruction c) =? a).
Qed.

Lemma bucket_find_mem h b a :
  (forall p, p ∈ b -> (p < length h)%nat) ->
  a ∈ addr_of h <$> b -> exists q, bucket_find h b a = Ok (Some q).
Proof.
  intros Hvalid Hin.
  destruct (bucket_find_total h b a Hvalid) as [[q | ] Hr]; [ eauto | ].
  now apply bucket_find_None_inv in Hr.
Qed.

Lemma bucket_find_single h CFG c a :
  h !! CFG = Some c ->
  bucket_find h [CFG] a
  = Ok (if address (instruction c) =? a then Some CFG else None).
Proof.
  intros Hc. simpl. rewrite (deref_ok _ _ _ Hc). cbn [bind].
  now destruct (address (instruction c) =? a).
Qed.

(** X13. Insert, then look up.  On a well-formed table the insert of a live
    node succeeds; afterwards the lookup of its instruction finds a node
    with that address, which is the inserted node itself when the
    instruction was not found before; and the lookup of an instruction at
    any other address answers as before the insert. *)
Theorem insert_then_lookup h t CFG c :
  h !! CFG = Some c -> buckets_ok h t ->
  exists t',
    hashtable_insert h t CFG = Ok (true, t')
    /\ (exists q cq, hashtable_lookup h t' (instruction c) = Ok (Some q)
          /\ h !! q = Some cq
          /\ address (instruction cq) = address (instruction c))
    /\ (hashtable_lookup h t (instruction c) = Ok None ->
        hashtable_lookup h t' (instruction c) = Ok (Some CFG))
    /\ (forall i, address i <> address (instruction c) ->
          hashtable_lookup h t' i = hashtable_lookup h t i).
Proof.
  intros Hc Hok. unfold hashtable_insert.
  rewrite (deref_ok _ _ _ Hc). cbn [bind].
  set (index := bucket_index t (instruction c)).
  destruct (buckets t !! index) as [b | ] eqn:Hb.
  - assert (Hvalid : forall p, p ∈ b -> (p < length h)%nat).
    { intros p Hp. eapply bucket_ok_valid; [ eapply Hok, Hb | exact Hp ]. }
    rewrite (bucket_mem_ok _ _ _ Hvalid). cbn [bind].
    case_bool_decide as Hin.
    + exists t. split; [ reflexivity | ].
      destruct (bucket_find_mem h b _ Hvalid Hin) as [q Hq].
      assert (Hlook : hashtable_lookup h t (instruction c) = Ok (Some q)).
      { unfold hashtable_lookup. fold index. now rewrite Hb. }
      split; [ | split; [ congruence | reflexivity ] ].
      apply bucket_find_Some_inv in Hq. destruct Hq as (_ & cq & Hcq & Ha).
      now exists q, cq.
    + eexists. split; [ reflexivity | ].
      assert (Hnone : bucket_find h b (address (instruction c)) = Ok None).
      { destruct (bucket_find_total h b (address (instruction c)) Hvalid)
          as [[q | ] Hr]; [ | assumption ].
        apply bucket_find_Some_inv in Hr.
        destruct Hr as (Hq & cq & Hcq & Ha). exfalso. apply Hin.
        rewrite <- Ha, <- (addr_of_lookup _ _ _ Hcq).
        now apply list_elem_of_fmap_2. }
      assert (Hfound : hashtable_lookup h
                {| ht_size := ht_size t; collisions := u64 (collisions t + 1);
                   entries := u64 (entries t + 1);
                   buckets := <[index := b ++ [CFG]]> (buckets t) |}
                (instruction c) = Ok (Some CFG)).
      { unfold hashtable_lookup, bucket_index. cbn [ht_size buckets].
        fold (bucket_index t (instruction c)). fold index.
        rewrite lookup_insert_eq, bucket_find_app, Hnone.
        rewrite (bucket_find_single _ _ _ _ Hc). now rewrite Z.eqb_refl. }
      split; [ now exists CFG, c | ]. split; [ intros _; exact Hfound | ].
      intros i Hne. unfold hashtable_lookup, bucket_index.
      cbn [ht_size buckets]. fold (bucket_index t i).
      destruct (decide (bucket_index t i = index)) as [Heq | Hidx].
      * rewrite Heq, lookup_insert_eq, Hb, bucket_find_app.
        rewrite (bucket_find_single _ _ _ _ Hc).
        destruct (bucket_find h b (address i)) as [[q | ] | ];
          try reflexivity.
        destruct (Z.eqb_spec (address (instruction c)) (address i));
          [ congruence | reflexivity ].
      * now rewrite lookup_insert_ne by congruence.
  - eexists. split; [ reflexivity | ].
    assert (Hfound : hashtable_lookup h
              {| ht_size := ht_size t; collisions := collisions t;
                 entries := u64 (entries t + 1);
                 buckets := <[index := [CFG]]> (buckets t) |}
              (instruction c) = Ok (Some CFG)).
    { unfold hashtable_lookup, bucket_index. cbn [ht_size buckets].
      fold (bucket_index t (instruction c)). fold index.
      rewrite lookup_insert_eq.
      rewrite (bucket_find_single _ _ _ _ Hc). now rewrite Z.eqb_refl. }
    split; [ now exists CFG, c | ]. split; [ intros _; exact Hfound | ].
    intros i Hne. unfold hashtable_lookup, bucket_index.
    cbn [ht_size buckets]. fold (bucket_index t i).
    destruct (decide (bucket_index t i = index)) as [Heq | Hidx].
    + rewrite Heq, lookup_insert_eq, Hb.
      rewrite (bucket_find_single _ _ _ _ Hc).
      destruct (Z.eqb_spec (address (instruction c)) (address i));
        [ congruence | reflexivity ].
    + now rewrite lookup_insert_ne by congruence.
Qed.

Lemma insert_then_lookup_witness :
  exists t',
    hashtable_insert [new_node (mk_instr 0x1000 BASIC 1 [0x90])
                        String.EmptyString]
      (mk_hashtable DEFAULT_HASHTABLE_SIZE 0 0 ∅) 0 = Ok (true, t')
    /\ hashtable_lookup [new_node (mk_instr 0x1000 BASIC 1 [0x90])
                           String.EmptyString] t'
         (mk_instr 0x1000 BASIC 1 [0x90]) = Ok (Some 0%nat).
Proof.
  destruct (insert_then_lookup
              [new_node (mk_instr 0x1000 BASIC 1 [0x90]) String.EmptyString]
              (mk_hashtable DEFAULT_HASHTABLE_SIZE 0 0 ∅) 0
              (new_node (mk_instr 0x1000 BASIC 1 [0x90]) String.EmptyString)
              eq_refl)
    as (t' & Hins & _ & Hnew & _).
  - intros index b Hb. simpl in Hb. now rewrite lookup_empty in Hb.
  - exists t'. split; [ exact Hins | ]. apply Hnew. reflexivity.
Defined.

(** The counters of the index against the number of nodes. *)
Lemma counters_step ins s s' :
  state_ok s ->
  (hashtable_entries (ht s) = u64 (Z.of_nat (length (heap s)))
   /\ hashtable_collisions (ht s)
      = u64 (Z.of_nat (length (heap s)) - Z.of_nat (base.size (buckets (ht s))))
   /\ (base.size (buckets (ht s)) <= length (heap s))%nat) ->
  state_step ins s s' ->
  hashtable_entries (ht s') = u64 (Z.of_nat (length (heap s')))
  /\ hashtable_collisions (ht s')
     = u64 (Z.of_nat (length (heap s')) - Z.of_nat (base.size (buckets (ht s'))))
  /\ (base.size (buckets (ht s')) <= length (heap s'))%nat.
Proof.
  intros Hok (Hent & Hcol & Hsz) Hstep.
  destruct Hstep as
    [ str r Hlook Hnew | src new c0 Hsrc Hnew Hcan Hfresh
    | P c0 HP Htype | | r ]; simpl; rewrite ?add_edge_length; auto.
  unfold cfg_new in Hnew. fold (new_node ins str) in Hnew.
  set (h' := heap s ++ [new_node ins str]) in *.
  assert (Hc : h' !! length (heap s) = Some (new_node ins str))
    by (unfold h'; now rewrite list_lookup_middle).
  assert (Hlen : length h' = S (length (heap s)))
    by (unfold h'; rewrite length_app; simpl; lia).
  unfold hashtable_insert in Hnew. rewrite (deref_ok _ _ _ Hc) in Hnew.
  cbn [bind] in Hnew. change (instruction (new_node ins str)) with ins in Hnew.
  unfold hashtable_lookup in Hlook.
  unfold hashtable_entries, hashtable_collisions in *.
  destruct (buckets (ht s) !! bucket_index (ht s) ins) as [b | ] eqn:Hb.
  - assert (Hvalid : forall p, p ∈ b -> (p < length (heap s))%nat).
    { intros p Hp.
      eapply bucket_ok_valid; [ eapply (ok_buckets _ Hok), Hb | exact Hp ]. }
    rewrite (bucket_mem_ok h' b) in Hnew by (intros p Hp; specialize (Hvalid p Hp); lia).
    cbn [bind] in Hnew.
    rewrite bool_decide_eq_false_2 in Hnew.
    + injection Hnew as <-. simpl. rewrite Hlen, Hent, Hcol.
      rewrite map_size_insert_Some by eauto.
      unfold u64. split; [ | split; [ | lia ] ].
      * rewrite Zplus_mod_idemp_l. f_equal. lia.
      * rewrite Zplus_mod_idemp_l. f_equal. lia.
    + apply bucket_find_None_inv in Hlook.
      replace (addr_of h' <$> b) with (addr_of (heap s) <$> b);
        [ assumption | ].
      apply list_fmap_ext. intros i p Hp. symmetry.
      apply addr_of_ext; [ apply heap_ext_app | ].
      apply Hvalid. eapply list_elem_of_lookup_2, Hp.
  - injection Hnew as <-. simpl. rewrite Hlen, Hent, Hcol.
    rewrite map_size_insert_None by assumption.
    unfold u64. split; [ | split; [ | lia ] ].
    + rewrite Zplus_mod_idemp_l. f_equal. lia.
    + f_equal. lia.
Qed.

(** X14. In every reachable state the index counts the graph: the number
    of entries is the number of nodes, and the number of collisions is the
    number of nodes beyond the first of each bucket in use (both modulo
    2^64, the width of size_t). *)
Theorem index_counters_count_nodes t :
  reachable t ->
  hashtable_entries (ht (st t)) = u64 (Z.of_nat (length (heap (st t))))
  /\ hashtable_collisions (ht (st t))
     = u64 (Z.of_nat (length (heap (st t)))
            - Z.of_nat (base.size (buckets (ht (st t)))))
  /\ (base.size (buckets (ht (st t))) <= length (heap (st t)))%nat.
Proof.
  intros [os Hos].
  refine (proj2 (observe_all_invariant (fun _ => True)
            (fun s =>
               hashtable_entries (ht s) = u64 (Z.of_nat (length (heap s)))
               /\ hashtable_collisions (ht s)
                  = u64 (Z.of_nat (length (heap s))
                         - Z.of_nat (base.size (buckets (ht s))))
               /\ (base.size (buckets (ht s)) <= length (heap s))%nat)
            _ os tracker_start t tracker_ok_start _ _ Hos)).
  - intros ins s s' _ Hok Hinv Hstep. now apply (counters_step ins s).
  - simpl. rewrite map_size_empty. repeat split; reflexivity.
  - trivial.
Qed.

Lemma index_counters_count_nodes_witness :
  hashtable_entries (ht (st (run trace_S2))) = 4
  /\ hashtable_collisions (ht (st (run trace_S2))) = 0.
Proof.
  destruct (index_counters_count_nodes (run trace_S2)
              (ex_intro _ trace_S2 run_S2)) as (Hent & Hcol & _).
  split; [ rewrite Hent | rewrite Hcol ]; vm_compute; reflexivity.
Defined.

Lemma table_step ins s s' :
  (ht_size (ht s) = DEFAULT_HASHTABLE_SIZE
   /\ forall k b, buckets (ht s) !! k = Some b ->
        0 <= k < DEFAULT_HASHTABLE_SIZE /\ b <> []) ->
  state_step ins s s' ->
  ht_size (ht s') = DEFAULT_HASHTABLE_SIZE
  /\ forall k b, buckets (ht s') !! k = Some b ->
       0 <= k < DEFAULT_HASHTABLE_SIZE /\ b <> [].
Proof.
  intros (Hsz & Hkeys) Hstep.
  destruct Hstep as
    [ str r Hlook Hnew | src new c0 Hsrc Hnew Hcan Hfresh
    | P c0 HP Htype | | r ]; simpl; auto.
  unfold cfg_new in Hnew. fold (new_node ins str) in Hnew.
  set (h' := heap s ++ [new_node ins str]) in *.
  assert (Hc : h' !! length (heap s) = Some (new_node ins str))
    by (unfold h'; now rewrite list_lookup_middle).
  unfold hashtable_insert in Hnew. rewrite (deref_ok _ _ _ Hc) in Hnew.
  cbn [bind] in Hnew. change (instruction (new_node ins str)) with ins in Hnew.
  assert (Hidx : 0 <= bucket_index (ht s) ins < DEFAULT_HASHTABLE_SIZE).
  { unfold bucket_index. rewrite Hsz. apply Z.mod_pos_bound. reflexivity. }
  assert (Hput : forall b0 k b,
            b0 <> [] ->
            <[bucket_index (ht s) ins := b0]> (buckets (ht s)) !! k = Some b ->
            0 <= k < DEFAULT_HASHTABLE_SIZE /\ b <> []).
  { intros b0 k b Hb0 Hk.
    destruct (decide (bucket_index (ht s) ins = k)) as [<- | Hne].
    - rewrite lookup_insert_eq in Hk. injection Hk as <-. now split.
    - rewrite lookup_insert_ne in Hk by assumption. now apply Hkeys. }
  destruct (buckets (ht s) !! bucket_index (ht s) ins) as [b | ] eqn:Hb.
  - destruct (bucket_mem h' b (address ins)) as [found | ];
      [ | discriminate ].
    cbn [bind] in Hnew. destruct found; injection Hnew as <-; simpl.
    + now split.
    + split; [ assumption | ]. intros k b'. apply Hput.
      now destruct b.
  - injection Hnew as <-. simpl. split; [ assumption | ].
    intros k b'. now apply Hput.
Qed.

Lemma table_invariant t :
  reachable t ->
  ht_size (ht (st t)) = DEFAULT_HASHTABLE_SIZE
  /\ forall k b, buckets (ht (st t)) !! k = Some b ->
       0 <= k < DEFAULT_HASHTABLE_SIZE /\ b <> [].
Proof.
  intros [os Hos].
  refine (proj2 (observe_all_invariant (fun _ => True)
            (fun s => ht_size (ht s) = DEFAULT_HASHTABLE_SIZE
                      /\ forall k b, buckets (ht s) !! k = Some b ->
                           0 <= k < DEFAULT_HASHTABLE_SIZE /\ b <> [])
            _ os tracker_start t tracker_ok_start _ _ Hos)).
  - intros ins s s' _ _ Hinv Hstep. now apply (table_step ins s).
  - simpl. split; [ reflexivity | ].
    intros k0 b0 Hk. now rewrite lookup_empty in Hk.
  - trivial.
Qed.

(** X24. The index never leaves its bucket array: in every reachable state
    the table has its DEFAULT_HASHTABLE_SIZE buckets, every bucket in use
    sits at an index below that size, and a bucket in use holds at least
    one node. *)
Theorem bucket_indexes_stay_in_the_table t k b :
  reachable t -> buckets (ht (st t)) !! k = Some b ->
  ht_size (ht (st t)) = DEFAULT_HASHTABLE_SIZE
  /\ 0 <= k < DEFAULT_HASHTABLE_SIZE
  /\ b <> [].
Proof.
  intros Hreach Hb. destruct (table_invariant t Hreach) as [Hsz Hkeys].
  split; [ assumption | ]. now apply Hkeys.
Qed.

Lemma bucket_indexes_stay_in_the_table_witness :
  0 <= bucket_index (ht (st (run trace_S1))) (mk_instr 0x1000 BASIC 1 [0x90])
    < DEFAULT_HASHTABLE_SIZE.
Proof.
  refine (proj1 (proj2 (bucket_indexes_stay_in_the_table (run trace_S1)
                          _ [0%nat] (ex_intro _ trace_S1 run_S1) _))).
  vm_compute. reflexivity.
Defined.

(** ** Function tags, again *)

(** X15. No node ever gets a function tag other than 0: cfg_get_name
    answers 0 for every node of every reachable state, whatever calls were
    observed. *)
Theorem every_node_keeps_tag_zero t p c :
  reachable t -> heap (st t) !! p = Some c -> cfg_get_name c = 0.
Proof. apply names_stay_zero. Qed.

Lemma every_node_keeps_tag_zero_witness :
  cfg_get_name (node_at (run trace_S2) 1) = 0.
Proof.
  apply (every_node_keeps_tag_zero (run trace_S2) 1).
  - exists trace_S2. vm_compute. reflexivity.
  - vm_compute. reflexivity.
Defined.

(** ** The linked lists, cell by cell *)

Section CellLists.

Implicit Types (m : Cells.mem) (p q : option ptr)
  (cs : list (ptr * option ptr)) (d : option ptr).

Lemma load_ok m a c : m !! a = Some (Some c) -> Cells.load m a = Ok c.
Proof. unfold Cells.load. now intros ->. Qed.

Lemma chain_app m p cs1 cs2 q :
  chain m p (cs1 ++ cs2) q
  <-> exists r, chain m p cs1 r /\ chain m r cs2 q.
Proof.
  revert p. induction cs1 as [ | [a d] cs1 IH ]; intros p; simpl.
  - split; [ intros H; now exists p | now intros (r & -> & H) ].
  - split.
    + intros (-> & nx & Ha & Hc). apply IH in Hc. destruct Hc as (r & H1 & H2).
      exists r. split; [ | assumption ]. split; [ reflexivity | ].
      now exists nx.
    + intros (r & (-> & nx & Ha & H1) & H2). split; [ reflexivity | ].
      exists nx. split; [ assumption | ]. apply IH. now exists r.
Qed.

Lemma chain_functional m p cs cs' :
  chain m p cs None -> chain m p cs' None -> cs = cs'.
Proof.
  revert p cs'. induction cs as [ | [a d] cs IH ]; intros p cs'; simpl.
  - intros ->. destruct cs' as [ | [a' d'] cs' ]; [ reflexivity | ].
    simpl. now intros [? _].
  - intros (-> & nx & Ha & Hc). destruct cs' as [ | [a' d'] cs' ]; simpl.
    + discriminate.
    + intros (Hp & nx' & Ha' & Hc'). injection Hp as <-.
      rewrite Ha in Ha'. injection Ha' as <- <-.
      f_equal. eapply IH; eassumption.
Qed.

Lemma chain_valid m p cs q a :
  chain m p cs q -> a ∈ cs.*1 -> (a < length m)%nat.
Proof.
  revert p. induction cs as [ | [b d] cs IH ]; intros p; simpl.
  - intros _ Hin. now apply elem_of_nil in Hin.
  - intros (-> & nx & Hb & Hc) Hin. apply elem_of_cons in Hin.
    destruct Hin as [-> | Hin]; [ eapply lookup_lt_Some, Hb | eauto ].
Qed.

Lemma chain_suffix m p cs1 a d cs2 :
  chain m p (cs1 ++ (a, d) :: cs2) None ->
  chain m (Some a) ((a, d) :: cs2) None.
Proof.
  intros H. apply chain_app in H. destruct H as (r & _ & H).
  simpl in H. destruct H as (-> & H). simpl. now split.
Qed.

(** A list that ends in NULL visits no cell twice. *)
Lemma chain_NoDup m p cs : chain m p cs None -> NoDup cs.*1.
Proof.
  revert p. induction cs as [ | [a d] cs IH ]; intros p; simpl.
  - intros _. apply NoDup_nil_2.
  - intros (-> & nx & Ha & Hc). apply NoDup_cons. split; [ | eauto ].
    intros Hin. apply list_elem_of_fmap in Hin.
    destruct Hin as ([a' d'] & Heq & Hin). simpl in Heq. subst a'.
    apply list_elem_of_split in Hin. destruct Hin as (cs1 & cs2 & ->).
    pose proof (chain_suffix _ _ _ _ _ _ Hc) as Hs.
    simpl in Hs. destruct Hs as (_ & nx' & Ha' & Hc').
    rewrite Ha in Ha'. injection Ha' as <- <-.
    pose proof (chain_functional _ _ _ _ Hc Hc') as Heq.
    apply (f_equal length) in Heq. rewrite length_app in Heq. simpl in Heq.
    lia.
Qed.

Lemma chain_frame m m' p cs q :
  chain m p cs q -> (forall a, a ∈ cs.*1 -> m' !! a = m !! a) ->
  chain m' p cs q.
Proof.
  revert p. induction cs as [ | [a d] cs IH ]; intros p; simpl; [ auto | ].
  intros (-> & nx & Ha & Hc) Hsame. split; [ reflexivity | ].
  exists nx. split.
  - rewrite Hsame; [ assumption | left ].
  - apply IH; [ assumption | ]. intros b Hb. apply Hsame. now right.
Qed.

Lemma chain_grow m x p cs q : chain m p cs q -> chain (m ++ x) p cs q.
Proof.
  intros Hc. apply (chain_frame m); [ assumption | ].
  intros a Ha. apply lookup_app_l. eapply chain_valid; eassumption.
Qed.

Lemma list_get_ith_chain m p cs i :
  chain m p cs None ->
  Cells.list_get_ith m p i = Ok (default None (cs.*2 !! i)).
Proof.
  revert p i. induction cs as [ | [a d] cs IH ]; intros p i; simpl.
  - intros ->. now destruct i.
  - intros (-> & nx & Ha & Hc). destruct i as [ | i ]; simpl;
      rewrite (load_ok _ _ _ Ha); cbn [bind]; [ reflexivity | ].
    now apply IH.
Qed.

(** X16. list_get_ith walks the list: on a NULL-terminated list it returns
    the payload of the cell number i, and NULL when the list has no such
    cell; it never reads outside the list. *)
Theorem list_get_ith_walks_the_list m p cs i :
  chain m p cs None ->
  Cells.list_get_ith m p i = Ok (default None (cs.*2 !! i)).
Proof. apply list_get_ith_chain. Qed.

Lemma list_get_ith_walks_the_list_witness :
  Cells.list_get_ith [Some (Cells.mk_cell (Some 7%nat) (Some 1%nat));
                      Some (Cells.mk_cell (Some 9%nat) None)]
    (Some 0%nat) 1 = Ok (Some 9%nat).
Proof.
  apply (list_get_ith_walks_the_list _ _
           [(0%nat, Some 7%nat); (1%nat, Some 9%nat)] 1%nat).
  simpl. split; [ reflexivity | ]. eexists. split; [ reflexivity | ].
  split; [ reflexivity | ]. eexists. split; reflexivity.
Defined.

(** X17. list_get_size counts the cells: on a NULL-terminated list the
    recursion comes to an end and returns the number of cells, modulo 2^32,
    the width of unsigned int. *)
Theorem list_get_size_counts_cells m p cs fuel :
  chain m p cs None -> (length cs < fuel)%nat ->
  Cells.list_get_size fuel m p = Some (Ok (u32 (Z.of_nat (length cs)))).
Proof.
  revert p cs. induction fuel as [ | fuel IH ]; intros p cs Hc Hlt; [ lia | ].
  destruct cs as [ | [a d] cs ]; simpl in Hc.
  - subst p. reflexivity.
  - destruct Hc as (-> & nx & Ha & Hc). simpl.
    rewrite (load_ok _ _ _ Ha). cbn [Cells.next].
    destruct cs as [ | [b e] cs ].
    + simpl in Hc. subst nx. reflexivity.
    + pose proof Hc as Hc'. simpl in Hc'. destruct Hc' as (-> & _).
      rewrite (IH _ _ Hc) by (simpl in *; lia).
      f_equal. f_equal. unfold u32.
      rewrite Zplus_mod_idemp_r. f_equal. simpl length. lia.
Qed.

Lemma list_get_size_counts_cells_witness :
  Cells.list_get_size 3
    [Some (Cells.mk_cell (Some 7%nat) (Some 1%nat));
     Some (Cells.mk_cell (Some 9%nat) None)] (Some 0%nat)
  = Some (Ok 2).
Proof.
  apply (list_get_size_counts_cells _ _
           [(0%nat, Some 7%nat); (1%nat, Some 9%nat)] 3%nat).
  - simpl. split; [ reflexivity | ]. eexists. split; [ reflexivity | ].
    split; [ reflexivity | ]. eexists. split; reflexivity.
  - simpl. lia.
Defined.

Lemma list_insert_after_chain m p cs1 a d0 cs2 d :
  chain m p cs1 (Some a) -> chain m (Some a) ((a, d0) :: cs2) None ->
  exists m',
    Cells.list_insert_after m (Some a) d = Ok (m', Some (length m))
    /\ chain m' p (cs1 ++ (a, d0) :: (length m, d) :: cs2) None
    /\ forall b, b <> a -> (b < length m)%nat -> m' !! b = m !! b.
Proof.
  intros H1 H2.
  assert (Hall : chain m p (cs1 ++ (a, d0) :: cs2) None)
    by (apply chain_app; eauto).
  pose proof (chain_NoDup _ _ _ Hall) as Hnd.
  rewrite fmap_app, fmap_cons in Hnd. simpl in Hnd.
  apply NoDup_app in Hnd. destruct Hnd as (_ & Hdisj & Hnd2).
  apply NoDup_cons in Hnd2. destruct Hnd2 as [Hnot2 _].
  simpl in H2. destruct H2 as (_ & nx & Ha & Hrest).
  assert (Hlt : (a < length m)%nat) by (eapply lookup_lt_Some, Ha).
  unfold Cells.list_insert_after, Cells.malloc, Cells.store.
  rewrite (load_ok _ _ _ Ha). cbn [bind Cells.next Cells.data].
  rewrite (load_ok (m ++ _) a (Cells.mk_cell d0 nx))
    by (now apply lookup_app_l_Some).
  cbn [bind]. eexists. split; [ reflexivity | ].
  assert (Hsame : forall b, b <> a -> (b < length m)%nat ->
            <[a := Some (Cells.mk_cell d0 (Some (length m)))]>
              (m ++ [Some (Cells.mk_cell d nx)]) !! b = m !! b).
  { intros b Hne Hb. rewrite list_lookup_insert_ne by congruence.
    now apply lookup_app_l. }
  split; [ | exact Hsame ].
  apply chain_app. exists (Some a). split.
  - apply (chain_frame m); [ assumption | ].
    intros b Hb. apply Hsame.
    + intros ->. apply (Hdisj a Hb). left.
    + apply (chain_valid m p cs1 (Some a)); assumption.
  - cbn [chain]. split; [ reflexivity | ]. eexists. split.
    { apply list_lookup_insert_eq. rewrite length_app. simpl. lia. }
    split; [ reflexivity | ]. exists nx. split.
    { rewrite list_lookup_insert_ne by lia. now rewrite list_lookup_middle. }
    apply (chain_frame m); [ assumption | ].
    intros b Hb. apply Hsame.
    + intros ->. contradiction.
    + apply (chain_valid m nx cs2 None); assumption.
Qed.

(** X18. list_insert_after splices one cell into a NULL-terminated list:
    the new cell comes right after the given one, the cells before and after
    keep their order and payloads, and no other cell of the store is
    written. *)
Theorem list_insert_after_splices m p cs1 a d0 cs2 d :
  chain m p cs1 (Some a) -> chain m (Some a) ((a, d0) :: cs2) None ->
  exists m',
    Cells.list_insert_after m (Some a) d = Ok (m', Some (length m))
    /\ chain m' p (cs1 ++ (a, d0) :: (length m, d) :: cs2) None
    /\ forall b, b <> a -> (b < length m)%nat -> m' !! b = m !! b.
Proof. apply list_insert_after_chain. Qed.

Lemma list_insert_after_splices_witness :
  exists m',
    Cells.list_insert_after
      [Some (Cells.mk_cell (Some 7%nat) (Some 1%nat));
       Some (Cells.mk_cell (Some 9%nat) None)] (Some 0%nat) (Some 8%nat)
    = Ok (m', Some 2%nat)
    /\ Cells.list_get_ith m' (Some 0%nat) 1 = Ok (Some 8%nat).
Proof.
  destruct (list_insert_after_splices
              [Some (Cells.mk_cell (Some 7%nat) (Some 1%nat));
               Some (Cells.mk_cell (Some 9%nat) None)]
              (Some 0%nat) [] 0%nat (Some 7%nat) [(1%nat, Some 9%nat)]
              (Some 8%nat))
    as (m' & Hins & _ & _).
  - reflexivity.
  - simpl. split; [ reflexivity | ]. eexists. split; [ reflexivity | ].
    split; [ reflexivity | ]. eexists. split; reflexivity.
  - exists m'. split; [ exact Hins | ].
    vm_compute in Hins. injection Hins as <-. reflexivity.
Defined.

(** X19. The roster the builder keeps is the list the driver holds: with
    [first] on the first cell and [tail] on the last one, list_insert_after
    on [tail] appends the new entry and returns the new last cell, and
    list_get_ith from [first] reads the entries in order, NULL beyond the
    last one. *)
Theorem tail_insertion_appends m first tail l (d : ptr) :
  roster_at m first tail l ->
  (forall i, Cells.list_get_ith m first i = Ok (list_get_ith l i))
  /\ exists m' tail',
      Cells.list_insert_after m tail (Some d) = Ok (m', tail')
      /\ roster_at m' first tail' (list_insert_after l d).
Proof.
  intros (cs & a & e & -> & Hcs & Hlast & Hl).
  assert (Hall : chain m first (cs ++ [(a, Some e)]) None)
    by (apply chain_app; eauto).
  split.
  - intros i. rewrite (list_get_ith_chain _ _ _ i Hall).
    rewrite fmap_app. simpl. rewrite Hl. unfold list_get_ith.
    rewrite list_lookup_fmap. now destruct (l !! i).
  - destruct (list_insert_after_chain m first cs a (Some e) [] (Some d)
                Hcs Hlast) as (m' & Hins & Hchain & _).
    exists m', (Some (length m)). split; [ assumption | ].
    assert (Hne : l <> []).
    { intros ->. simpl in Hl. now destruct (cs.*2). }
    replace (list_insert_after l d) with (l ++ [d])
      by (now destruct l).
    exists (cs ++ [(a, Some e)]), (length m), d.
    split; [ reflexivity | ].
    replace (cs ++ (a, Some e) :: (length m, Some d) :: [])
      with ((cs ++ [(a, Some e)]) ++ [(length m, Some d)]) in Hchain
      by (now rewrite <- app_assoc).
    apply chain_app in Hchain. destruct Hchain as (r & Hfront & Hback).
    pose proof Hback as Hr. simpl in Hr. destruct Hr as (-> & _).
    split; [ assumption | ]. split; [ assumption | ].
    rewrite fmap_app. simpl. rewrite Hl. now rewrite fmap_app.
Qed.

Lemma tail_insertion_appends_witness :
  exists m' tail',
    Cells.list_insert_after [Some (Cells.mk_cell (Some 0%nat) None)]
      (Some 0%nat) (Some 1%nat) = Ok (m', tail')
    /\ roster_at m' (Some 0%nat) tail' (list_insert_after [0%nat] 1%nat).
Proof.
  apply (tail_insertion_appends [Some (Cells.mk_cell (Some 0%nat) None)]
           (Some 0%nat) (Some 0%nat) [0%nat] 1%nat).
  exists [], 0%nat, 0%nat. split; [ reflexivity | ].
  split; [ reflexivity | ]. split; [ | reflexivity ].
  simpl. split; [ reflexivity | ]. eexists. split; reflexivity.
Defined.

Lemma represents_cases m s l :
  represents m s l ->
  (s = None /\ l = [])
  \/ exists a e l' cs nx,
       s = Some a /\ l = e :: l'
       /\ m !! a = Some (Some (Cells.mk_cell (Some e) nx))
       /\ chain m nx cs None /\ cs.*2 = Some <$> l' /\ a ∉ cs.*1.
Proof.
  intros (cs & Hc & Hl). destruct cs as [ | [a d0] cs ].
  - left. simpl in Hc. subst s. destruct l; [ now split | discriminate ].
  - right. destruct l as [ | e l' ]; [ discriminate | ].
    rewrite !fmap_cons in Hl. simpl in Hl. injection Hl as -> Hl.
    pose proof (chain_NoDup _ _ _ Hc) as Hnd. rewrite fmap_cons in Hnd.
    apply NoDup_cons in Hnd. destruct Hnd as [Hnot _].
    simpl in Hc. destruct Hc as (-> & nx & Ha & Hc).
    exists a, e, l', cs, nx. repeat split; assumption.
Qed.

Lemma insert_fresh_cell (m : list (option Cells.list_t)) c :
  <[length m := None]> (m ++ [Some c]) = m ++ [None].
Proof.
  rewrite insert_app_r_alt by lia. now rewrite Nat.sub_diag.
Qed.

(** X20. The shadow stack of the builder is the list the driver holds:
    stack_get_top reads the top, stack_push and stack_pop do on the cells
    what the builder does on its stack, and a pop after a push gives back
    the stack pointer it started from, the pushed cell being freed. *)
Theorem shadow_stack_refines m s l (d : ptr) :
  represents m s l ->
  Cells.stack_get_top m s = Ok (stack_get_top l)
  /\ represents (Cells.stack_push m s (Some d)).1
       (Cells.stack_push m s (Some d)).2 (stack_push l d)
  /\ (exists m' s', Cells.stack_pop m s = Ok (m', s')
        /\ represents m' s' (stack_pop l))
  /\ Cells.stack_pop (Cells.stack_push m s (Some d)).1
       (Cells.stack_push m s (Some d)).2 = Ok (m ++ [None], s).
Proof.
  intros Hrep. pose proof Hrep as (cs0 & Hc0 & Hl0).
  destruct (represents_cases _ _ _ Hrep)
    as [[-> ->] | (a & e & l' & cs & nx & -> & -> & Ha & Hc & Hl & Hnot)].
  - split; [ reflexivity | ]. split.
    + exists [(length m, Some d)]. split; [ | reflexivity ].
      simpl. split; [ reflexivity | ]. exists None.
      split; [ now rewrite list_lookup_middle | reflexivity ].
    + split.
      * exists m, None. split; [ reflexivity | ]. now exists [].
      * unfold Cells.stack_push, Cells.list_new, Cells.malloc. simpl.
        unfold Cells.load, Cells.free, Cells.load.
        rewrite list_lookup_middle by reflexivity. cbn [bind Cells.next].
        now rewrite insert_fresh_cell.
  - split; [ simpl; now rewrite (load_ok _ _ _ Ha) | ]. split.
    + exists ((length m, Some d) :: cs0). split.
      * simpl. split; [ reflexivity | ]. exists (Some a).
        split; [ now rewrite list_lookup_middle | ].
        now apply chain_grow.
      * rewrite fmap_cons, Hl0. reflexivity.
    + split.
      * exists (<[a := None]> m), nx. split.
        -- simpl. unfold Cells.free. rewrite (load_ok _ _ _ Ha).
           reflexivity.
        -- exists cs. split; [ | assumption ].
           apply (chain_frame m); [ assumption | ].
           intros b Hb. apply list_lookup_insert_ne. congruence.
      * unfold Cells.stack_push, Cells.list_insert_before, Cells.malloc.
        simpl. unfold Cells.free, Cells.load.
        rewrite list_lookup_middle by reflexivity. cbn [bind Cells.next].
        now rewrite insert_fresh_cell.
Qed.

Lemma shadow_stack_refines_witness :
  Cells.stack_get_top [Some (Cells.mk_cell (Some 3%nat) None)] (Some 0%nat)
  = Ok (stack_get_top [3%nat])
  /\ Cells.stack_pop
       (Cells.stack_push [Some (Cells.mk_cell (Some 3%nat) None)]
          (Some 0%nat) (Some 5%nat)).1
       (Cells.stack_push [Some (Cells.mk_cell (Some 3%nat) None)]
          (Some 0%nat) (Some 5%nat)).2
     = Ok ([Some (Cells.mk_cell (Some 3%nat) None)] ++ [None], Some 0%nat).
Proof.
  destruct (shadow_stack_refines [Some (Cells.mk_cell (Some 3%nat) None)]
              (Some 0%nat) [3%nat] 5%nat) as (Htop & _ & _ & Hpop).
  - exists [(0%nat, Some 3%nat)]. split; [ | reflexivity ].
    simpl. split; [ reflexivity | ]. eexists. split; reflexivity.
  - split; [ exact Htop | exact Hpop ].
Defined.

Lemma list_delete_loop_frees m a d cs fuel :
  chain m (Some a) ((a, d) :: cs) None -> (length cs < fuel)%nat ->
  exists m',
    Cells.list_delete_loop fuel m a = Some (Ok m')
    /\ length m' = length m
    /\ (forall b, b ∈ ((a, d) :: cs).*1 -> m' !! b = Some None)
    /\ (forall b, b ∉ ((a, d) :: cs).*1 -> m' !! b = m !! b).
Proof.
  revert m a d fuel. induction cs as [ | [b e] cs IH ]; intros m a d fuel Hc Hlt.
  - destruct fuel as [ | fuel ]; [ simpl in Hlt; lia | ].
    simpl in Hc. destruct Hc as (_ & nx & Ha & ->). simpl.
    rewrite (load_ok _ _ _ Ha). cbn [Cells.next].
    unfold Cells.free. rewrite (load_ok _ _ _ Ha). cbn [bind].
    eexists. split; [ reflexivity | ].
    split; [ apply length_insert | ]. split.
    + intros b Hb. apply list_elem_of_singleton in Hb. subst b.
      apply list_lookup_insert_eq. eapply lookup_lt_Some, Ha.
    + intros b Hb. apply list_lookup_insert_ne.
      intros ->. apply Hb. left.
  - destruct fuel as [ | fuel ]; [ simpl in Hlt; lia | ].
    pose proof (chain_NoDup _ _ _ Hc) as Hnd.
    rewrite fmap_cons in Hnd. apply NoDup_cons in Hnd.
    destruct Hnd as [Hnot _].
    cbn [chain] in Hc. destruct Hc as (_ & nx & Ha & Hnx & nx' & Hb & Hc).
    subst nx. simpl Cells.list_delete_loop.
    rewrite (load_ok _ _ _ Ha). cbn [Cells.next].
    unfold Cells.free. rewrite (load_ok _ _ _ Ha). cbn [bind].
    destruct (IH (<[a := None]> m) b e fuel) as (m' & Hrun & Hlen & Hfreed & Hkept).
    + apply (chain_frame m).
      * cbn [chain]. split; [ reflexivity | ]. now exists nx'.
      * intros c Hcin. apply list_lookup_insert_ne. intros ->. contradiction.
    + simpl in Hlt. lia.
    + exists m'. split; [ assumption | ].
      split; [ now rewrite Hlen, length_insert | ]. split.
      * intros c Hcin. rewrite fmap_cons in Hcin. apply elem_of_cons in Hcin.
        destruct Hcin as [-> | Hcin]; [ | now apply Hfreed ].
        rewrite Hkept by assumption.
        apply list_lookup_insert_eq. eapply lookup_lt_Some, Ha.
      * intros c Hcin. rewrite fmap_cons in Hcin.
        apply not_elem_of_cons in Hcin. destruct Hcin as [Hne Hcin].
        rewrite Hkept by assumption. now apply list_lookup_insert_ne.
Qed.

(** X21. list_delete frees a NULL-terminated list cell by cell: the loop
    comes to an end, every cell of the list is freed exactly once, no freed
    cell is read, and every other cell of the store is left as it is. *)
Theorem list_delete_frees_every_cell m p cs fuel :
  chain m p cs None -> (length cs <= fuel)%nat ->
  exists m',
    Cells.list_delete fuel m p = Some (Ok m')
    /\ length m' = length m
    /\ (forall b, b ∈ cs.*1 -> m' !! b = Some None)
    /\ (forall b, b ∉ cs.*1 -> m' !! b = m !! b).
Proof.
  intros Hc Hfuel. destruct cs as [ | [a d] cs ].
  - simpl in Hc. subst p. exists m. split; [ reflexivity | ].
    split; [ reflexivity | ]. split; [ | auto ].
    intros b Hb. now apply elem_of_nil in Hb.
  - pose proof Hc as Hp. simpl in Hp. destruct Hp as (-> & _).
    simpl Cells.list_delete. apply (list_delete_loop_frees m a d cs fuel Hc).
    simpl in Hfuel. lia.
Qed.

Lemma list_delete_frees_every_cell_witness :
  exists m',
    Cells.list_delete 2
      [Some (Cells.mk_cell (Some 7%nat) (Some 1%nat));
       Some (Cells.mk_cell (Some 9%nat) None)] (Some 0%nat)
    = Some (Ok m')
    /\ m' !! 1%nat = Some None.
Proof.
  destruct (list_delete_frees_every_cell
              [Some (Cells.mk_cell (Some 7%nat) (Some 1%nat));
               Some (Cells.mk_cell (Some 9%nat) None)] (Some 0%nat)
              [(0%nat, Some 7%nat); (1%nat, Some 9%nat)] 2%nat)
    as (m' & Hrun & _ & Hfreed & _).
  - simpl. split; [ reflexivity | ]. eexists. split; [ reflexivity | ].
    split; [ reflexivity | ]. eexists. split; reflexivity.
  - simpl. lia.
  - exists m'. split; [ exact Hrun | ]. apply Hfreed.
    simpl. right. left.
Defined.

Lemma common_prefix_covers (l1 l2 : list Z) :
  (length l2 <= common_prefix l1 l2)%nat <-> l2 `prefix_of` l1.
Proof.
  revert l1. induction l2 as [ | a2 l2 IH ]; intros l1.
  - split; [ intros _; apply prefix_nil | simpl; lia ].
  - destruct l1 as [ | a1 l1 ].
    + simpl. split; [ lia | ]. intros H. now apply prefix_nil_not in H.
    + simpl. destruct (Z.eqb_spec a1 a2) as [-> | Hne].
      * rewrite <- Nat.succ_le_mono, IH. split.
        -- now apply prefix_cons.
        -- now apply prefix_cons_inv_2.
      * split; [ lia | ]. intros H. apply prefix_cons_inv_1 in H. congruence.
Qed.

Lemma data_address_head instrs m a c cs q a1 :
  chain m (Some a) ((a, c) :: cs) q -> points_at instrs (a, c) a1 ->
  Cells.data_address instrs m (Some a) = Ok a1.
Proof.
  intros (_ & nx & Ha & _) (i & ins & Hd & Hi & <-). simpl in Hd. subst c.
  simpl. rewrite (load_ok _ _ _ Ha). cbn [bind Cells.data]. now rewrite Hi.
Qed.

(** X22. trace_compare walks two traces while their addresses agree and
    returns what is left of the second one: the rest of t2 after the longest
    common prefix of the two address sequences.  It returns NULL exactly
    when t2 is a prefix of t1, so equal traces and a shorter t2 are not told
    apart. *)
Theorem trace_compare_returns_the_rest instrs m t1 t2 cs1 cs2 as1 as2 fuel :
  chain m t1 cs1 None -> chain m t2 cs2 None ->
  cs1 <> [] -> cs2 <> [] ->
  Forall2 (points_at instrs) cs1 as1 -> Forall2 (points_at instrs) cs2 as2 ->
  (length cs1 <= fuel)%nat ->
  exists r,
    Cells.trace_compare fuel instrs m t1 t2 = Some (Ok r)
    /\ chain m r (drop (common_prefix as1 as2) cs2) None
    /\ (r = None <-> as2 `prefix_of` as1).
Proof.
  intros H1 H2 Hne1 Hne2 Ha1 Ha2 Hfuel.
  assert (Hmain : exists r,
            Cells.trace_compare fuel instrs m t1 t2 = Some (Ok r)
            /\ chain m r (drop (common_prefix as1 as2) cs2) None).
  { clear - H1 H2 Hne1 Hne2 Ha1 Ha2 Hfuel.
    revert t1 t2 cs1 cs2 as1 as2 H1 H2 Hne1 Hne2 Ha1 Ha2 Hfuel.
    induction fuel as [ | fuel IH ];
      intros t1 t2 cs1 cs2 as1 as2 H1 H2 Hne1 Hne2 Ha1 Ha2 Hfuel.
    { destruct cs1; [ congruence | simpl in Hfuel; lia ]. }
    destruct cs1 as [ | [b1 c1] cs1 ]; [ congruence | ].
    destruct cs2 as [ | [b2 c2] cs2 ]; [ congruence | ].
    apply Forall2_cons_inv_l in Ha1. destruct Ha1 as (a1 & as1' & Hp1 & Ha1 & ->).
    apply Forall2_cons_inv_l in Ha2. destruct Ha2 as (a2 & as2' & Hp2 & Ha2 & ->).
    pose proof H1 as (-> & nx1 & Hb1 & Hc1).
    pose proof H2 as (-> & nx2 & Hb2 & Hc2).
    cbn [Cells.trace_compare].
    rewrite (data_address_head _ _ _ _ _ _ _ H1 Hp1).
    rewrite (data_address_head _ _ _ _ _ _ _ H2 Hp2).
    simpl common_prefix. destruct (a1 =? a2).
    - simpl. rewrite (load_ok _ _ _ Hb1), (load_ok _ _ _ Hb2).
      cbn [bind Cells.next].
      destruct cs1 as [ | [b1' c1'] cs1 ].
      + simpl in Hc1. subst nx1. exists nx2. split; [ reflexivity | ].
        apply Forall2_nil_inv_l in Ha1. subst as1'. simpl.
        now rewrite drop_0.
      + pose proof Hc1 as (-> & _).
        destruct cs2 as [ | [b2' c2'] cs2 ].
        * simpl in Hc2. subst nx2. exists None. split; [ reflexivity | ].
          now rewrite drop_nil.
        * pose proof Hc2 as (-> & _).
          apply (IH _ _ _ _ _ _ Hc1 Hc2); try assumption; try discriminate.
          simpl in *. lia.
    - exists (Some b2). split; [ reflexivity | ]. exact H2. }
  destruct Hmain as (r & Hrun & Hrest). exists r.
  split; [ assumption | ]. split; [ assumption | ].
  rewrite <- common_prefix_covers.
  rewrite <- (Forall2_length _ _ _ Ha2).
  destruct (drop (common_prefix as1 as2) cs2) as [ | [b c] rest ] eqn:Hd.
  - simpl in Hrest. split; [ intros _ | now intros _ ].
    apply drop_nil_inv in Hd. exact Hd.
  - pose proof Hrest as (-> & _). split; [ discriminate | ].
    intros Hle. rewrite drop_ge in Hd by assumption. discriminate.
Qed.

Lemma trace_compare_returns_the_rest_witness :
  exists r,
    Cells.trace_compare 1
      [mk_instr 0x1000 BASIC 1 [0x90]; mk_instr 0x1001 BASIC 1 [0x90]]
      [Some (Cells.mk_cell (Some 0%nat) None);
       Some (Cells.mk_cell (Some 0%nat) (Some 2%nat));
       Some (Cells.mk_cell (Some 1%nat) None)]
      (Some 0%nat) (Some 1%nat) = Some (Ok r)
    /\ r = Some 2%nat.
Proof.
  destruct (trace_compare_returns_the_rest
              [mk_instr 0x1000 BASIC 1 [0x90]; mk_instr 0x1001 BASIC 1 [0x90]]
              [Some (Cells.mk_cell (Some 0%nat) None);
               Some (Cells.mk_cell (Some 0%nat) (Some 2%nat));
               Some (Cells.mk_cell (Some 1%nat) None)]
              (Some 0%nat) (Some 1%nat)
              [(0%nat, Some 0%nat)]
              [(1%nat, Some 0%nat); (2%nat, Some 1%nat)]
              [0x1000] [0x1000; 0x1001] 1%nat)
    as (r & Hrun & Hrest & _).
  - simpl. split; [ reflexivity | ]. eexists. split; reflexivity.
  - simpl. split; [ reflexivity | ]. eexists. split; [ reflexivity | ].
    split; [ reflexivity | ]. eexists. split; reflexivity.
  - discriminate.
  - discriminate.
  - repeat constructor. now exists 0%nat, (mk_instr 0x1000 BASIC 1 [0x90]).
  - repeat constructor.
    + now exists 0%nat, (mk_instr 0x1000 BASIC 1 [0x90]).
    + now exists 1%nat, (mk_instr 0x1001 BASIC 1 [0x90]).
  - simpl. lia.
  - exists r. split; [ exact Hrun | ].
    simpl in Hrest. now destruct Hrest as (-> & _).
Defined.

End CellLists.

(** ** Every edge was observed *)

Lemma points_to_add_edge_inv h src new c m c' n :
  h !! src = Some c -> node_ok (length h) c -> can_append c ->
  add_edge h src new !! m = Some c' -> points_to n c' ->
  exists c0, h !! m = Some c0 /\ instruction c' = instruction c0
             /\ (points_to n c0 \/ (m = src /\ n = new)).
Proof.
  intros Hsrc Hok Hcan Hm Hpt.
  destruct (add_edge_lookup _ _ _ _ _ _ Hsrc Hm) as (c0 & Hc0 & ->).
  exists c0. split; [ assumption | ].
  assert (Hin : instruction
                  ((if decide (new = m) then edge_dst (name c) else id)
                     ((if decide (src = m) then add_edge_node new else id) c0))
                = instruction c0).
  { destruct (decide (new = m)), (decide (src = m)); simpl;
      rewrite ?grow_node_instruction; reflexivity. }
  split; [ assumption | ].
  assert (Hpt' : points_to n
                   ((if decide (src = m) then add_edge_node new else id) c0))
    by (destruct (decide (new = m)); exact Hpt).
  destruct (decide (src = m)) as [<- | Hne]; [ | now left ].
  assert (c0 = c) by congruence. subst c0.
  destruct (add_edge_node_out_edges (length h) new c Hok Hcan) as [Hadd Hwrap].
  pose proof (ok_nb_out _ _ Hok) as Hrange.
  destruct (decide (nb_out c + 1 < 2 ^ 16)) as [Hlt | Hge].
  - unfold points_to in Hpt'. rewrite (Hadd Hlt) in Hpt'.
    apply elem_of_app in Hpt'. destruct Hpt' as [Hold | Hnew]; [ now left | ].
    apply list_elem_of_singleton in Hnew. injection Hnew as ->. now right.
  - unfold points_to in Hpt'. rewrite Hwrap in Hpt' by lia.
    now apply elem_of_nil in Hpt'.
Qed.

(** The edges after aux_cfg_insert returned the node: the old ones, an edge
    from the predecessor, or an edge from a call site to its return
    address. *)
Lemma aux_outcome_edges s P new s' m c' n :
  state_ok s -> aux_outcome s P new (Some new) s' ->
  heap s' !! m = Some c' -> points_to n c' ->
  exists c0, heap s !! m = Some c0 /\ instruction c' = instruction c0
    /\ (points_to n c0
        \/ (m = P /\ n = new)
        \/ (n = new /\ type (instruction c0) = CALL
            /\ exists cn, heap s !! new = Some cn
                 /\ address (instruction cn)
                    = return_address (instruction c0))).
Proof.
  intros Hok Hout Hm Hpt.
  assert (Hsame : heap s' = heap s ->
            exists c0, heap s !! m = Some c0 /\ instruction c' = instruction c0
              /\ (points_to n c0
                  \/ (m = P /\ n = new)
                  \/ (n = new /\ type (instruction c0) = CALL
                      /\ exists cn, heap s !! new = Some cn
                           /\ address (instruction cn)
                              = return_address (instruction c0)))).
  { intros Heq. rewrite Heq in Hm. exists c'. auto. }
  assert (Hfrom : forall c, heap s !! P = Some c -> can_append c ->
            heap s' = add_edge (heap s) P new ->
            exists c0, heap s !! m = Some c0 /\ instruction c' = instruction c0
              /\ (points_to n c0
                  \/ (m = P /\ n = new)
                  \/ (n = new /\ type (instruction c0) = CALL
                      /\ exists cn, heap s !! new = Some cn
                           /\ address (instruction cn)
                              = return_address (instruction c0)))).
  { intros c Hc Hcan Heq. rewrite Heq in Hm.
    destruct (points_to_add_edge_inv _ _ _ _ _ _ _ Hc
                (ok_nodes _ Hok _ _ Hc) Hcan Hm Hpt)
      as (c0 & Hc0 & Hi & Hcase).
    exists c0. split; [ assumption | ]. split; [ assumption | ].
    destruct Hcase as [Hold | Hnew]; auto. }
  inversion Hout as
    [ c Hc Hfull | c Hc Hty H0 Hfr | c Hc Hty H1 | c Hc Hty Ht
    | c Hc Hty Ht | c Hc Hty Hmc | c top tc Hc Hty Hmc Ht Hd
    | c top tc Hc Hty Hmc Ht Hd ]; subst.
  - apply (Hfrom c Hc); [ | reflexivity ].
    unfold can_append. rewrite H0. destruct (type (instruction c)); auto.
  - apply (Hfrom c Hc); [ | reflexivity ].
    unfold can_append. rewrite Hty. now right.
  - apply (Hfrom c Hc); [ | reflexivity ].
    unfold can_append. now rewrite Hty.
  - now apply Hsame.
  - apply (Hfrom c Hc); [ | reflexivity ].
    unfold can_append. now rewrite Hty.
  - now apply Hsame.
  - simpl in Hm.
    destruct (ok_stack _ Hok top (matching_call_in_stack _ _ _ Hmc))
      as (tc' & Htc' & Hcall).
    assert (tc' = tc) by congruence. subst tc'.
    assert (Hcan : can_append tc) by (unfold can_append; now rewrite Hcall).
    destruct (points_to_add_edge_inv _ _ _ _ _ _ _ Ht
                (ok_nodes _ Hok _ _ Ht) Hcan Hm Hpt)
      as (c0 & Hc0 & Hi & Hcase).
    exists c0. split; [ assumption | ]. split; [ assumption | ].
    destruct Hcase as [Hold | [-> ->]]; [ now left | ].
    right. right. assert (c0 = tc) by congruence. subst c0.
    split; [ reflexivity | ]. split; [ assumption | ].
    apply matching_call_Some in Hmc.
    destruct Hmc as (rest & t0 & n0 & _ & Ht0 & Hn0 & Haddr).
    assert (t0 = tc) by congruence. subst t0.
    now exists n0.
Qed.

Lemma consecutive_mono os o a b :
  consecutive os a b -> consecutive (os ++ [o]) a b.
Proof.
  intros (i & o1 & o2 & H1 & H2 & Ha & Hb). exists i, o1, o2.
  repeat split; try assumption; now apply lookup_app_l_Some.
Qed.

Lemma consecutive_last os olast o :
  last os = Some olast -> consecutive (os ++ [o]) (ip olast) (ip o).
Proof.
  intros Hlast. apply last_Some in Hlast. destruct Hlast as [os' ->].
  exists (length os'), olast, o. split; [ | split; [ | now split ] ].
  - rewrite <- app_assoc. simpl. now apply list_lookup_middle.
  - apply list_lookup_middle. rewrite length_app. simpl. lia.
Qed.

Lemma explained_mono os o c cn :
  explained os c cn -> explained (os ++ [o]) c cn.
Proof. intros [H | H]; [ left; now apply consecutive_mono | now right ]. Qed.

Lemma explained_instruction os c cn c' cn' :
  instruction c' = instruction c -> instruction cn' = instruction cn ->
  explained os c cn -> explained os c' cn'.
Proof. unfold explained. now intros -> ->. Qed.

(** The edges after aux_cfg_insert, against the trace. *)
Lemma edges_after_aux os o (h : list cfg_t) s1 P p new nn s' olast :
  state_ok s1 ->
  (forall m c, heap s1 !! m = Some c -> h !! m = Some c \/ out_edges c = []) ->
  (forall m c, h !! m = Some c -> heap s1 !! m = Some c) ->
  (forall m c n, h !! m = Some c -> points_to n c ->
     exists cn, h !! n = Some cn /\ explained os c cn) ->
  heap s1 !! P = Some p -> address (instruction p) = ip olast ->
  last os = Some olast ->
  heap s1 !! new = Some nn -> address (instruction nn) = ip o ->
  aux_outcome s1 P new (Some new) s' ->
  forall m c' n cn',
    heap s' !! m = Some c' -> points_to n c' -> heap s' !! n = Some cn' ->
    explained (os ++ [o]) c' cn'.
Proof.
  intros Hok Hsplit Hsub Hold Hp Hpaddr Hlast Hnn Hnaddr Hout
    m c' n cn' Hm Hpt Hn.
  destruct (aux_outcome_edges _ _ _ _ _ _ _ Hok Hout Hm Hpt)
    as (c0 & Hc0 & Hi & Hcase).
  destruct (aux_outcome_facts _ _ _ _ _ Hout) as ([_ Hext] & _).
  pose proof (aux_outcome_length _ _ _ _ _ Hout) as Hlen.
  assert (Hback : forall cn1, heap s1 !! n = Some cn1 ->
                    instruction cn' = instruction cn1).
  { intros cn1 Hcn1. destruct (Hext _ _ Hcn1) as (c'' & Hc'' & Hi'').
    congruence. }
  destruct Hcase as [Hedge | [[-> ->] | (-> & Hcall & cn & Hcn & Hra)]].
  - destruct (Hsplit _ _ Hc0) as [Hh | Hnone].
    + destruct (Hold _ _ _ Hh Hedge) as (cn & Hcn & Hex).
      apply explained_mono.
      apply (explained_instruction os c0 cn); auto.
    + unfold points_to in Hedge. rewrite Hnone in Hedge.
      now apply elem_of_nil in Hedge.
  - assert (c0 = p) by congruence. subst c0.
    left. rewrite Hi, (Hback _ Hnn), Hpaddr, Hnaddr.
    now apply consecutive_last.
  - right. rewrite Hi, (Hback _ Hcn). now split.
Qed.

Lemma edges_step os t o t' :
  tracker_ok t ->
  (forall m c n cn, heap (st t) !! m = Some c -> points_to n c ->
     heap (st t) !! n = Some cn -> explained os c cn) ->
  (forall P p, cfg t = Some P -> heap (st t) !! P = Some p ->
     exists olast, last os = Some olast
                   /\ address (instruction p) = ip olast) ->
  observe t o = Ok (Some t') ->
  forall m c n cn, heap (st t') !! m = Some c -> points_to n c ->
    heap (st t') !! n = Some cn -> explained (os ++ [o]) c cn.
Proof.
  intros Htok Hedges Hcur Hobs.
  pose proof (ok_state _ Htok) as Hok.
  assert (Hold : forall m c n, heap (st t) !! m = Some c -> points_to n c ->
            exists cn, heap (st t) !! n = Some cn /\ explained os c cn).
  { intros m c n Hm Hpt.
    unfold points_to in Hpt. apply list_elem_of_lookup_1 in Hpt.
    destruct Hpt as [i Hi]. unfold out_edges in Hi.
    apply lookup_take_Some in Hi. destruct Hi as [Hi Hlt].
    destruct (ok_slots _ _ (ok_nodes _ Hok _ _ Hm) i Hlt) as (q & Hq & Hv).
    assert (q = n) by congruence. subst q.
    destruct (deref_valid _ _ Hv) as [cn Hcn]. exists cn.
    split; [ assumption | ]. eapply Hedges; try eassumption.
    unfold points_to, out_edges. apply elem_of_take. eauto. }
  destruct (observe_observed t o t' Htok Hobs) as
    [ ins ht1 Hstart Hins | P p ins new HP Hp Hins Hlook Hdup
    | P p ins new s' HP Hp Hins Hlook Hdup Hout
    | P p ins ht1 s' HP Hp Hins Hlook Hok1 Hout ]; simpl.
  - intros m c n cn Hm Hpt _. destruct m as [ | m ]; [ | discriminate ].
    simpl in Hm. injection Hm as <-. unfold points_to, out_edges in Hpt.
    simpl in Hpt. now apply elem_of_nil in Hpt.
  - destruct (push_call_frame P p (st t)) as (-> & _ & _).
    intros m c n cn Hm Hpt Hn. apply explained_mono. eauto.
  - destruct (push_call_frame P p (st t)) as (Hheap & _ & _).
    destruct (Hcur P p HP Hp) as (olast & Hlast & Hpaddr).
    pose proof Hlook as Hlook'. apply hashtable_lookup_Some_inv in Hlook'.
    destruct Hlook' as (b & nn & _ & _ & Hnn & Haddr).
    apply (edges_after_aux os o (heap (st t)) (push_call P p (st t))
             P p new nn s' olast); rewrite ?Hheap; auto.
    + now apply push_call_ok.
    + now rewrite Haddr, (instr_of_address _ _ Hins).
  - set (s1 := mk_state (heap (st t) ++ [new_node ins (name_node o)]) ht1
                 (stack (st t)) (tail_entries (st t))) in *.
    destruct (enter_call_frame P p (length (heap (st t))) s1) as (Hheap & _).
    assert (Hp1 : heap s1 !! P = Some p) by now apply lookup_app_l_Some.
    destruct (Hcur P p HP Hp) as (olast & Hlast & Hpaddr).
    apply (edges_after_aux os o (heap (st t))
             (enter_call P p (length (heap (st t))) s1)
             P p (length (heap (st t))) (new_node ins (name_node o))
             s' olast); rewrite ?Hheap; auto.
    + now apply enter_call_ok.
    + intros m c Hm. simpl in Hm. apply lookup_app_Some in Hm.
      destruct Hm as [Hm | [_ Hm]]; [ now left | right ].
      destruct (m - length (heap (st t)))%nat; [ | discriminate ].
      simpl in Hm. injection Hm as <-. reflexivity.
    + intros m c Hm. simpl. now apply lookup_app_l_Some.
    + simpl. now rewrite list_lookup_middle.
    + simpl. now apply instr_of_address.
Qed.

(** X25. No spurious edge: every edge of the graph built from a trace goes
    either from an address to an address that was observed right after it,
    or from a call site to the instruction at its return address (the edge
    a matched RET installs). *)
Theorem every_edge_was_observed os t m c n cn :
  observe_all tracker_start os = Ok (Some t) ->
  heap (st t) !! m = Some c -> points_to n c -> heap (st t) !! n = Some cn ->
  explained os c cn.
Proof.
  intros Hos. revert m c n cn.
  assert (Hinv : tracker_ok t
            /\ (forall m c n cn, heap (st t) !! m = Some c -> points_to n c ->
                  heap (st t) !! n = Some cn -> explained os c cn)
            /\ (forall P p, cfg t = Some P -> heap (st t) !! P = Some p ->
                  exists olast, last os = Some olast
                                /\ address (instruction p) = ip olast)).
  { revert t Hos. induction os as [ | o os IH ] using rev_ind; intros t Hos.
    - simpl in Hos. injection Hos as <-.
      split; [ apply tracker_ok_start | ]. split.
      + intros m c n cn Hm. simpl in Hm. now rewrite lookup_nil in Hm.
      + intros P p HP. discriminate.
    - rewrite observe_all_app in Hos.
      destruct (observe_all tracker_start os) as [ [t1 | ] | ] eqn:H1;
        try discriminate.
      simpl in Hos. destruct (observe t1 o) as [ [t2 | ] | ] eqn:H2;
        try discriminate.
      simpl in Hos. injection Hos as <-.
      destruct (IH t1 eq_refl) as (Hok1 & Hedges & Hcur).
      split; [ | split ].
      + apply reachable_tracker_ok. exists (os ++ [o]).
        rewrite observe_all_app, H1. simpl. now rewrite H2.
      + now apply (edges_step os t1 o t2).
      + intros P p HP Hp. exists o. split; [ apply last_snoc | ].
        destruct (observe_current_address t1 o t2 Hok1 H2)
          as (n & c & Hn & Hc & Haddr).
        congruence. }
  destruct Hinv as (_ & Hedges & _). exact Hedges.
Qed.

Lemma every_edge_was_observed_witness :
  explained trace_S2 (node_at (run trace_S2) 0) (node_at (run trace_S2) 3).
Proof.
  apply (every_edge_was_observed trace_S2 (run trace_S2) 0 _ 3).
  - apply run_S2.
  - vm_compute. reflexivity.
  - vm_compute. right. left.
  - vm_compute. reflexivity.
Defined.

(** ** Successor arrays only grow at the end *)

Lemma add_edge_prefix h src new c0 m c :
  h !! src = Some c0 -> node_ok (length h) c0 -> can_append c0 ->
  h !! m = Some c ->
  exists c', add_edge h src new !! m = Some c'
    /\ (nb_out c + 1 < 2 ^ 16 ->
        out_edges c `prefix_of` out_edges c'
        /\ nb_out c <= nb_out c' <= nb_out c + 1).
Proof.
  intros Hsrc Hok Hcan Hm. eexists.
  split; [ apply (add_edge_lookup_Some _ _ _ _ _ _ Hsrc Hm) | ].
  intros Hroom.
  assert (Hdst : forall nm x, out_edges ((if decide (new = m)
                                          then edge_dst nm else id) x)
                              = out_edges x
                              /\ nb_out ((if decide (new = m)
                                          then edge_dst nm else id) x)
                                 = nb_out x)
    by (intros nm x; now destruct (decide (new = m))).
  destruct (Hdst (name c0)
              ((if decide (src = m) then add_edge_node new else id) c))
    as [-> ->].
  destruct (decide (src = m)) as [<- | Hne]; [ | simpl; split; [ done | lia ] ].
  assert (c = c0) by congruence. subst c.
  destruct (add_edge_node_out_edges (length h) new c0 Hok Hcan) as [Hadd _].
  rewrite (Hadd Hroom). split; [ now apply prefix_app_r | ].
  unfold add_edge_node, edge_src, bump_nb_out, put_successor. simpl.
  rewrite grow_node_nb_out. unfold u16.
  pose proof (ok_nb_out _ _ Hok). rewrite Z.mod_small by lia. lia.
Qed.

Lemma aux_outcome_prefix s P new r s' m c :
  state_ok s -> aux_outcome s P new r s' -> heap s !! m = Some c ->
  exists c', heap s' !! m = Some c'
    /\ (nb_out c + 1 < 2 ^ 16 ->
        out_edges c `prefix_of` out_edges c'
        /\ nb_out c <= nb_out c' <= nb_out c + 1).
Proof.
  intros Hok Hout Hm.
  assert (Hsame : exists c', heap s !! m = Some c'
            /\ (nb_out c + 1 < 2 ^ 16 ->
                out_edges c `prefix_of` out_edges c'
                /\ nb_out c <= nb_out c' <= nb_out c + 1)).
  { exists c. split; [ assumption | ]. intros _. split; [ done | lia ]. }
  inversion Hout as
    [ c0 Hc Hfull | c0 Hc Hty H0 Hfr | c0 Hc Hty H1 | c0 Hc Hty Ht
    | c0 Hc Hty Ht | c0 Hc Hty Hmc | c0 top tc Hc Hty Hmc Ht Hd
    | c0 top tc Hc Hty Hmc Ht Hd ]; subst; simpl; try exact Hsame.
  - apply (add_edge_prefix _ _ _ c0); auto.
    + eapply ok_nodes; eassumption.
    + unfold can_append. rewrite H0. destruct (type (instruction c0)); auto.
  - apply (add_edge_prefix _ _ _ c0); auto.
    + eapply ok_nodes; eassumption.
    + unfold can_append. rewrite Hty. now right.
  - apply (add_edge_prefix _ _ _ c0); auto.
    + eapply ok_nodes; eassumption.
    + unfold can_append. now rewrite Hty.
  - apply (add_edge_prefix _ _ _ c0); auto.
    + eapply ok_nodes; eassumption.
    + unfold can_append. now rewrite Hty.
  - destruct (ok_stack _ Hok top (matching_call_in_stack _ _ _ Hmc))
      as (tc' & Htc' & Hcall).
    assert (tc' = tc) by congruence. subst tc'.
    apply (add_edge_prefix _ _ _ tc); auto.
    + eapply ok_nodes; eassumption.
    + unfold can_append. now rewrite Hcall.
Qed.

Lemma observe_prefix t o t' m c :
  tracker_ok t -> observe t o = Ok (Some t') -> heap (st t) !! m = Some c ->
  exists c', heap (st t') !! m = Some c'
    /\ (nb_out c + 1 < 2 ^ 16 ->
        out_edges c `prefix_of` out_edges c'
        /\ nb_out c <= nb_out c' <= nb_out c + 1).
Proof.
  intros Htok Hobs Hm. pose proof (ok_state _ Htok) as Hok.
  destruct (observe_observed t o t' Htok Hobs) as
    [ ins ht1 Hstart Hins | P p ins new HP Hp Hins Hlook Hdup
    | P p ins new s' HP Hp Hins Hlook Hdup Hout
    | P p ins ht1 s' HP Hp Hins Hlook Hok1 Hout ]; simpl.
  - subst t. simpl in Hm. now rewrite lookup_nil in Hm.
  - destruct (push_call_frame P p (st t)) as (-> & _ & _).
    exists c. split; [ assumption | ]. intros _. split; [ done | lia ].
  - destruct (push_call_frame P p (st t)) as (Hheap & _ & _).
    apply (aux_outcome_prefix _ _ _ _ _ _ _ (push_call_ok _ _ _ Hok Hp) Hout).
    now rewrite Hheap.
  - set (s1 := mk_state (heap (st t) ++ [new_node ins (name_node o)]) ht1
                 (stack (st t)) (tail_entries (st t))) in *.
    destruct (enter_call_frame P p (length (heap (st t))) s1) as (Hheap & _).
    assert (Hp1 : heap s1 !! P = Some p) by now apply lookup_app_l_Some.
    apply (aux_outcome_prefix _ _ _ _ _ _ _
             (enter_call_ok _ _ _ _ Hok1 Hp1) Hout).
    rewrite Hheap. simpl. now apply lookup_app_l_Some.
Qed.

Lemma observe_all_prefix t os t' m c :
  reachable t -> observe_all t os = Ok (Some t') ->
  heap (st t) !! m = Some c ->
  nb_out c + Z.of_nat (length os) < 2 ^ 16 ->
  exists c', heap (st t') !! m = Some c'
    /\ out_edges c `prefix_of` out_edges c'
    /\ nb_out c <= nb_out c' <= nb_out c + Z.of_nat (length os).
Proof.
  intros Hreach. apply reachable_tracker_ok in Hreach.
  revert t c Hreach. induction os as [ | o os IH ]; intros t c Htok Hos Hm Hb.
  - simpl in Hos. injection Hos as <-. exists c.
    split; [ assumption | ]. split; [ done | simpl; lia ].
  - simpl in Hos. destruct (observe t o) as [ [t1 | ] | ] eqn:Hobs;
      try discriminate.
    cbn [bind] in Hos.
    destruct (observe_prefix t o t1 m c Htok Hobs Hm) as (c1 & Hc1 & Hstep).
    simpl length in Hb.
    destruct Hstep as [Hpre1 Hn1]; [ lia | ].
    assert (Htok1 : tracker_ok t1).
    { destruct (observe_steps t o Htok) as (r & Hr & Hnext).
      rewrite Hobs in Hr. injection Hr as <-.
      now destruct (Hnext t1 eq_refl) as (_ & _ & _ & H). }
    destruct (IH t1 c1 Htok1 Hos Hc1) as (c' & Hc' & Hpre & Hn); [ lia | ].
    exists c'. split; [ assumption | ].
    split; [ now transitivity (out_edges c1) | ].
    simpl length. lia.
Qed.

(** X26. Successor arrays only grow at the end.  Along any continuation
    of a run that is too short to wrap the 16-bit out-degree of a node, the
    successors the node has stay where they are, in the same order: what
    cfg_get_successor_i returned below the out-degree it returns for ever;
    each observation adds at most one successor. *)
Theorem successors_only_grow t os t' m c :
  reachable t -> observe_all t os = Ok (Some t') ->
  heap (st t) !! m = Some c ->
  nb_out c + Z.of_nat (length os) < 2 ^ 16 ->
  exists c', heap (st t') !! m = Some c'
    /\ out_edges c `prefix_of` out_edges c'
    /\ nb_out c <= nb_out c' <= nb_out c + Z.of_nat (length os).
Proof. apply observe_all_prefix. Qed.

Lemma successors_only_grow_witness :
  exists c', heap (st (run trace_S2)) !! 0%nat = Some c'
    /\ out_edges (node_at (run trace_call_ret) 0) `prefix_of` out_edges c'
    /\ nb_out (node_at (run trace_call_ret) 0) <= nb_out c'
       <= nb_out (node_at (run trace_call_ret) 0)
          + Z.of_nat (length [obs 0x1005 1 [0x90]]).
Proof.
  apply (successors_only_grow (run trace_call_ret) [obs 0x1005 1 [0x90]]
           (run trace_S2) 0).
  - exists trace_call_ret. apply run_call_ret.
  - vm_compute. reflexivity.
  - vm_compute. reflexivity.
  - vm_compute. reflexivity.
Defined.

(** ** Freeing the graph *)

Lemma cfg_new_buckets s ins str r :
  state_ok s -> hashtable_lookup (heap s) (ht s) ins = Ok None ->
  cfg_new s ins str = Ok r ->
  heap (snd r) = heap s ++ [new_node ins str]
  /\ ht_size (ht (snd r)) = ht_size (ht s)
  /\ buckets (ht (snd r))
     = <[bucket_index (ht s) ins :=
           default [] (buckets (ht s) !! bucket_index (ht s) ins)
             ++ [length (heap s)]]> (buckets (ht s)).
Proof.
  intros Hok Hlook Hnew. unfold cfg_new in Hnew.
  fold (new_node ins str) in Hnew.
  set (h' := heap s ++ [new_node ins str]) in *.
  assert (Hc : h' !! length (heap s) = Some (new_node ins str))
    by (unfold h'; now rewrite list_lookup_middle).
  destruct (hashtable_insert_fresh h' (ht s) (length (heap s))
              (new_node ins str) Hc) as (t' & Hins & Hsz & Hb).
  - intros b Hb. simpl in Hb.
    assert (Hvalid : forall p, p ∈ b -> (p < length (heap s))%nat).
    { intros p Hp.
      eapply bucket_ok_valid; [ eapply (ok_buckets _ Hok), Hb | exact Hp ]. }
    split.
    + intros p Hp. specialize (Hvalid p Hp). unfold h'.
      rewrite length_app. lia.
    + unfold hashtable_lookup in Hlook. rewrite Hb in Hlook.
      apply bucket_find_None_inv in Hlook.
      replace (addr_of h' <$> b) with (addr_of (heap s) <$> b);
        [ assumption | ].
      apply list_fmap_ext. intros i p Hp. symmetry.
      apply addr_of_ext; [ apply heap_ext_app | ].
      apply Hvalid. eapply list_elem_of_lookup_2, Hp.
  - rewrite Hins in Hnew. cbn [bind snd] in Hnew. injection Hnew as <-.
    simpl. split; [ reflexivity | ]. split; assumption.
Qed.

Lemma indexed_step ins s s' :
  state_ok s -> indexed s -> state_step ins s s' -> indexed s'.
Proof.
  intros Hok Hidx Hstep.
  destruct Hstep as
    [ str r Hlook Hnew | src new c0 Hsrc Hnew Hcan Hfresh
    | P c0 HP Htype | | r ]; try exact Hidx.
  - destruct (cfg_new_buckets s ins str r Hok Hlook Hnew)
      as (Hheap & Hsz & Hb).
    intros p c Hp. rewrite Hheap in Hp. unfold bucket_index.
    rewrite Hsz, Hb. fold (bucket_index (ht s) (instruction c)).
    apply lookup_app_Some in Hp. destruct Hp as [Hp | [Hge Hp]].
    + destruct (Hidx p c Hp) as (b & Hbk & Hin).
      destruct (decide (bucket_index (ht s) ins
                        = bucket_index (ht s) (instruction c))) as [He | Hne].
      * rewrite <- He, lookup_insert_eq. eexists. split; [ reflexivity | ].
        rewrite He, Hbk. simpl. apply elem_of_app. now left.
      * rewrite lookup_insert_ne by assumption. eauto.
    + destruct (p - length (heap s))%nat eqn:Hd; [ | discriminate ].
      simpl in Hp. injection Hp as <-. simpl instruction.
      rewrite lookup_insert_eq. eexists. split; [ reflexivity | ].
      apply elem_of_app. right. apply list_elem_of_singleton. lia.
  - intros p c Hp. simpl in Hp.
    destruct (add_edge_lookup _ _ _ _ _ _ Hsrc Hp) as (c1 & Hc1 & ->).
    destruct (Hidx p c1 Hc1) as (b & Hbk & Hin). exists b.
    split; [ | assumption ]. simpl ht.
    replace (instruction
               ((if decide (new = p) then edge_dst (name c0) else id)
                  ((if decide (src = p) then add_edge_node new else id) c1)))
      with (instruction c1); [ assumption | ].
    destruct (decide (new = p)), (decide (src = p)); simpl;
      rewrite ?grow_node_instruction; reflexivity.
Qed.

Lemma indexed_reachable t : reachable t -> indexed (st t).
Proof.
  intros [os Hos].
  refine (proj2 (observe_all_invariant (fun _ => True) indexed
            _ os tracker_start t tracker_ok_start _ _ Hos)).
  - intros ins s s' _ Hok Hinv Hstep. now apply (indexed_step ins s).
  - intros p c Hc. simpl in Hc. now rewrite lookup_nil in Hc.
  - trivial.
Qed.

(** X27. Freeing the graph frees every node exactly once.  In every
    reachable state the nodes hashtable_delete hands to cfg_delete are the
    nodes of the graph, each of them once: no node is freed twice and none
    is left over. *)
Theorem hashtable_delete_frees_each_node_once t :
  reachable t ->
  hashtable_delete (ht (st t)) ≡ₚ seq 0 (length (heap (st t))).
Proof.
  intros Hreach.
  pose proof (reachable_state_ok _ Hreach) as Hok.
  pose proof (indexed_reachable _ Hreach) as Hidx.
  destruct (table_invariant _ Hreach) as [Hsz Hkeys].
  assert (Hentry : forall k p,
            p ∈ default [] (buckets (ht (st t)) !! k) ->
            exists b c, buckets (ht (st t)) !! k = Some b /\ p ∈ b
                        /\ heap (st t) !! p = Some c
                        /\ bucket_index (ht (st t)) (instruction c) = k).
  { intros k p Hp.
    destruct (buckets (ht (st t)) !! k) as [b | ] eqn:Hb;
      [ | now apply elem_of_nil in Hp ].
    simpl in Hp.
    destruct (ok_entries _ _ _ _ (ok_buckets _ Hok _ _ Hb) _ Hp)
      as (c & Hc & Hk).
    now exists b, c. }
  apply NoDup_Permutation.
  - unfold hashtable_delete. apply NoDup_bind.
    + intros k1 k2 p _ _ H1 H2.
      destruct (Hentry _ _ H1) as (_ & c1 & _ & _ & Hc1 & <-).
      destruct (Hentry _ _ H2) as (_ & c2 & _ & _ & Hc2 & <-).
      congruence.
    + intros k _. destruct (buckets (ht (st t)) !! k) as [b | ] eqn:Hb;
        [ | apply NoDup_nil_2 ].
      simpl. eapply NoDup_fmap_1.
      exact (ok_distinct _ _ _ _ (ok_buckets _ Hok _ _ Hb)).
    + apply NoDup_seqZ.
  - apply NoDup_seq.
  - intros p. unfold hashtable_delete.
    rewrite list_elem_of_bind, elem_of_seq. split.
    + intros (k & Hp & _).
      destruct (Hentry _ _ Hp) as (_ & c & _ & _ & Hc & _).
      apply lookup_lt_Some in Hc. lia.
    + intros [_ Hp]. destruct (deref_valid _ _ Hp) as [c Hc].
      destruct (Hidx p c Hc) as (b & Hb & Hin).
      exists (bucket_index (ht (st t)) (instruction c)). split.
      * now rewrite Hb.
      * apply elem_of_seqZ. rewrite Hsz.
        destruct (Hkeys _ _ Hb) as [Hk _]. lia.
Qed.

Lemma hashtable_delete_frees_each_node_once_witness :
  hashtable_delete (ht (st (run trace_S1)))
  ≡ₚ seq 0 (length (heap (st (run trace_S1)))).
Proof.
  apply (hashtable_delete_frees_each_node_once (run trace_S1)).
  exists trace_S1. apply run_S1.
Defined.

(** ** What the hash reads *)

Lemma load64_agree pos1 pos2 :
  (forall i, (i < 8)%nat -> byte_at pos1 i = byte_at pos2 i) ->
  load64 pos1 = load64 pos2.
Proof.
  intros H. unfold load64.
  now rewrite (H 0%nat), (H 1%nat), (H 2%nat), (H 3%nat), (H 4%nat),
    (H 5%nat), (H 6%nat), (H 7%nat) by lia.
Qed.

Lemma byte_at_skipn n buf i : byte_at (skipn n buf) i = byte_at buf (n + i).
Proof. unfold byte_at. apply nth_skipn. Qed.

Lemma fasthash64_words_agree n rest pos1 pos2 h :
  (forall i, (i < 8 * n + rest)%nat -> byte_at pos1 i = byte_at pos2 i) ->
  fst (fasthash64_words n pos1 h) = fst (fasthash64_words n pos2 h)
  /\ forall i, (i < rest)%nat ->
       byte_at (snd (fasthash64_words n pos1 h)) i
       = byte_at (snd (fasthash64_words n pos2 h)) i.
Proof.
  revert pos1 pos2 h. induction n as [ | n IH ]; intros pos1 pos2 h Hagree.
  - simpl. split; [ reflexivity | ]. intros i Hi. apply Hagree. lia.
  - cbn [fasthash64_words].
    rewrite (load64_agree pos1 pos2) by (intros i Hi; apply Hagree; lia).
    apply IH. intros i Hi. rewrite !byte_at_skipn. apply Hagree. lia.
Qed.

Lemma fasthash64_tail_agree r pos1 pos2 :
  0 <= r < 8 ->
  (forall i, (i < Z.to_nat r)%nat -> byte_at pos1 i = byte_at pos2 i) ->
  fasthash64_tail r pos1 = fasthash64_tail r pos2.
Proof.
  intros Hr Hagree. unfold fasthash64_tail.
  repeat match goal with
         | |- context [if ?k <=? r then _ else _] =>
             destruct (Z.leb_spec k r)
         end;
    rewrite ?(Hagree 0%nat), ?(Hagree 1%nat), ?(Hagree 2%nat),
      ?(Hagree 3%nat), ?(Hagree 4%nat), ?(Hagree 5%nat), ?(Hagree 6%nat)
      by lia;
    reflexivity.
Qed.

(** X28. The hash reads the instruction's own bytes only: fasthash64 over
    [len] bytes gives the same value on two buffers that agree on their
    first [len] bytes, whatever follows.  hash_instr calls it with the
    size of the instruction. *)
Theorem hash_reads_len_bytes_only buf1 buf2 len seed :
  0 <= len ->
  (forall i, (i < Z.to_nat len)%nat -> byte_at buf1 i = byte_at buf2 i) ->
  fasthash64 buf1 len seed = fasthash64 buf2 len seed.
Proof.
  intros Hlen Hagree. unfold fasthash64.
  assert (Hr : Z.land len 7 = len mod 8)
    by (change 7 with (Z.ones 3); now rewrite Z.land_ones by lia).
  assert (Hmod : 0 <= len mod 8 < 8) by (apply Z.mod_pos_bound; lia).
  assert (Hdiv : 0 <= len / 8) by (apply Z.div_pos; lia).
  pose proof (Z.div_mod len 8 ltac:(lia)) as Hsplit.
  destruct (fasthash64_words_agree (Z.to_nat (len / 8))
              (Z.to_nat (len mod 8)) buf1 buf2
              (Z.lxor seed (u64 (len * fasthash_m)))) as [Hh Hpos].
  { intros i Hi. apply Hagree. lia. }
  destruct (fasthash64_words (Z.to_nat (len / 8)) buf1 _) as [h1 p1].
  destruct (fasthash64_words (Z.to_nat (len / 8)) buf2 _) as [h2 p2].
  simpl in Hh, Hpos. subst h2. rewrite Hr.
  now rewrite (fasthash64_tail_agree (len mod 8) p1 p2 Hmod Hpos).
Qed.

Lemma hash_reads_len_bytes_only_witness :
  fasthash64 [0x41; 0xFF; 0xD0] 1 0x1000 = fasthash64 [0x41; 0x90; 0x90] 1 0x1000.
Proof.
  apply hash_reads_len_bytes_only; [ lia | ].
  intros i Hi. change (Z.to_nat 1) with 1%nat in Hi.
  destruct i as [ | i ]; [ reflexivity | lia ].
Defined.

(** ** Observed steps stay in the graph *)

(** X29. Observed steps are edges of the final graph: a step observed
    after a BASIC, BRANCH or JUMP node (or a CALL node whose first slot is
    free) that did not end the build is still among the successors of that
    node, by address, at the end of any continuation of the run that is too
    short to wrap the 16-bit out-degree. *)
Theorem observed_steps_stay_edges t P p o os t' :
  reachable t -> cfg t = Some P -> heap (st t) !! P = Some p ->
  type (instruction p) <> RET ->
  (type (instruction p) = CALL ->
   cfg_get_successor_i (heap (st t)) P 0 = Ok None) ->
  observe_all t (o :: os) = Ok (Some t') ->
  nb_out p + Z.of_nat (length (o :: os)) < 2 ^ 16 ->
  exists p', heap (st t') !! P = Some p'
             /\ ip o ∈ successor_addresses (heap (st t')) p'.
Proof.
  intros Hreach HP Hp Hret Hslot Hos Hbound.
  pose proof (reachable_tracker_ok _ Hreach) as Htok.
  simpl in Hos. destruct (observe t o) as [ [t1 | ] | ] eqn:Hobs;
    try discriminate.
  cbn [bind] in Hos. simpl length in Hbound.
  destruct (observe_records t P p o t1 Hreach HP Hp Hret Hslot
              ltac:(lia) Hobs) as (p1 & Hp1 & Hin).
  destruct (observe_prefix t o t1 P p Htok Hobs Hp) as (p1' & Hp1' & Hstep).
  assert (p1' = p1) by congruence. subst p1'.
  destruct Hstep as [_ Hn1]; [ lia | ].
  pose proof (reachable_observe _ _ _ Hreach Hobs) as Hreach1.
  destruct (observe_all_prefix t1 os t' P p1 Hreach1 Hos Hp1)
    as (p' & Hp' & [k Hk] & _); [ lia | ].
  destruct (observe_all_ext t1 os t' Hreach1 Hos) as (Hext & Hlen & _).
  exists p'. split; [ assumption | ].
  unfold successor_addresses in *. apply list_elem_of_fmap in Hin.
  destruct Hin as (x & Hx & Hxin).
  pose proof (ok_nodes _ (reachable_state_ok _ Hreach1) _ _ Hp1) as Hnode.
  destruct (out_edges_valid _ _ _ (ok_slots _ _ Hnode) Hxin)
    as (q & -> & Hq).
  apply (list_elem_of_fmap_2' _ _ (Some q)).
  - rewrite Hk. apply elem_of_app. now left.
  - rewrite Hx. simpl. symmetry. apply addr_of_ext; [ | assumption ].
    split; assumption.
Qed.

Lemma observed_steps_stay_edges_witness :
  exists p', heap (st (run trace_S1)) !! 0%nat = Some p'
    /\ ip (obs 0x1001 1 [0x90])
       ∈ successor_addresses (heap (st (run trace_S1))) p'.
Proof.
  apply (observed_steps_stay_edges (run (take 1 trace_S1)) 0
           (node_at (run (take 1 trace_S1)) 0)
           (obs 0x1001 1 [0x90]) [obs 0x1002 1 [0xC3]] (run trace_S1)).
  - exists (take 1 trace_S1). vm_compute. reflexivity.
  - vm_compute. reflexivity.
  - vm_compute. reflexivity.
  - vm_compute. discriminate.
  - vm_compute. discriminate.
  - vm_compute. reflexivity.
  - vm_compute. reflexivity.
Defined.

(** ** Returns, as the tracing loop inserts them *)

Lemma matching_call_top s new C rest tc n :
  stack s = C :: rest -> heap s !! C = Some tc -> heap s !! new = Some n ->
  matching_call s new
  = if address (instruction n) =? return_address (instruction tc)
    then Some C else None.
Proof.
  intros Hs Hc Hn. unfold matching_call. now rewrite Hs, Hc, Hn.
Qed.

(** What aux_cfg_insert does after a RET node, read off its outcome. *)
Lemma aux_outcome_after_ret s P c new n r s' :
  state_ok s -> heap s !! P = Some c -> type (instruction c) = RET ->
  heap s !! new = Some n -> aux_outcome s P new r s' ->
  r = Some new
  /\ (forall C rest tc,
        stack s = C :: rest -> heap s !! C = Some tc ->
        address (instruction n) = return_address (instruction tc) ->
        stack s' = rest /\ P <> C
        /\ (among_successors (heap s) new tc -> heap s' = heap s)
        /\ (~ among_successors (heap s) new tc ->
            heap s' = add_edge (heap s) C new
            /\ edge_installed (heap s) (add_edge (heap s) C new) C new))
  /\ (stack s = []
      \/ (exists C rest tc,
            stack s = C :: rest /\ heap s !! C = Some tc
            /\ address (instruction n) <> return_address (instruction tc)) ->
      stack s' = stack s
      /\ heap s' = add_edge (heap s) P new
      /\ edge_installed (heap s) (add_edge (heap s) P new) P new).
Proof.
  intros Hok Hc Hret Hn Hout.
  assert (Hmatched : forall C rest tc,
            stack s = C :: rest -> heap s !! C = Some tc ->
            address (instruction n) = return_address (instruction tc) ->
            matching_call s new = Some C
            /\ type (instruction tc) = CALL /\ P <> C).
  { intros C rest tc Hs Htc Haddr.
    rewrite (matching_call_top _ _ _ _ _ _ Hs Htc Hn).
    rewrite (proj2 (Z.eqb_eq _ _) Haddr). split; [ reflexivity | ].
    destruct (ok_stack _ Hok C) as (tc' & Htc' & Hcall);
      [ rewrite Hs; left | ].
    assert (tc' = tc) by congruence. subst tc'.
    split; [ assumption | ]. intros ->. congruence. }
  assert (Hunmatched :
            stack s = []
            \/ (exists C rest tc,
                  stack s = C :: rest /\ heap s !! C = Some tc
                  /\ address (instruction n)
                     <> return_address (instruction tc)) ->
            matching_call s new = None).
  { intros [Hs | (C & rest & tc & Hs & Htc & Hne)].
    - unfold matching_call. now rewrite Hs.
    - rewrite (matching_call_top _ _ _ _ _ _ Hs Htc Hn).
      now rewrite (proj2 (Z.eqb_neq _ _) Hne). }
  inversion Hout as
    [ c' Hc' [[Hty _] | [Hty _]] | c' Hc' Hty H0 Hfr | c' Hc' Hty H1
    | c' Hc' Hty Ht | c' Hc' Hty Ht | c' Hc' Hty Hmc
    | c' top t' Hc' Hty Hmc Ht' Hdup | c' top t' Hc' Hty Hmc Ht' Hdup ];
    subst; assert (c' = c) by congruence; subst c'; try congruence.
  - split; [ reflexivity | ]. split.
    + intros C rest tc Hs Htc Haddr.
      destruct (Hmatched C rest tc Hs Htc Haddr) as (Hm & _). congruence.
    + intros _. simpl. split; [ reflexivity | ]. split; [ reflexivity | ].
      apply (add_edge_installed _ _ _ c); try assumption.
      * exact (ok_nodes _ Hok _ _ Hc).
      * unfold can_append. now rewrite Hret.
  - split; [ reflexivity | ]. split.
    + intros C rest tc Hs Htc Haddr.
      destruct (Hmatched C rest tc Hs Htc Haddr) as (Hm & _ & Hne).
      assert (top = C) by congruence. subst top.
      assert (t' = tc) by congruence. subst t'.
      simpl. rewrite Hs. split; [ reflexivity | ]. split; [ assumption | ].
      split; [ reflexivity | ]. intros Hnot. contradiction.
    + intros Hun. rewrite (Hunmatched Hun) in Hmc. discriminate.
  - split; [ reflexivity | ]. split.
    + intros C rest tc Hs Htc Haddr.
      destruct (Hmatched C rest tc Hs Htc Haddr) as (Hm & Hcall & Hne).
      assert (top = C) by congruence. subst top.
      assert (t' = tc) by congruence. subst t'.
      simpl. rewrite Hs. split; [ reflexivity | ]. split; [ assumption | ].
      split; [ intros Hin; contradiction | ].
      intros _. split; [ reflexivity | ].
      apply (add_edge_installed _ _ _ tc); try assumption.
      * exact (ok_nodes _ Hok _ _ Htc).
      * unfold can_append. now rewrite Hcall.
    + intros Hun. rewrite (Hunmatched Hun) in Hmc. discriminate.
Qed.

(** C1 (amended). A node [N] inserted by an observation after a RET node
    [P], when cfg_insert does not return early (the instruction is not both
    in the index and already, by address, a successor of [P] itself).  The
    insertion succeeds.  When the top [C] of the shadow stack returns to
    the observed address, [C] is popped and the edge goes from [C] to [N],
    unless the address is already among the successors of [C], in which
    case the graph is left as it is; [P] gets no successor either way.
    When the stack is empty or its top does not match, the stack is kept
    and the edge is appended to [P] itself.  The address [C] returns to is
    [address + size] as the machine computes it, the plain sum below
    2^64. *)
Theorem return_edge_goes_to_call_site t P p o :
  reachable t -> cfg t = Some P -> heap (st t) !! P = Some p ->
  type (instruction p) = RET -> insn_size o <> 0 ->
  ~ returns_early t p o ->
  (exists t' N h1,
     observe t o = Ok (Some t') /\ cfg t' = Some N
     /\ entered t o N h1 /\ addr_of h1 N = ip o
     /\ (forall C rest tc,
           stack (st t) = C :: rest -> heap (st t) !! C = Some tc ->
           ip o = return_address (instruction tc) ->
           stack (st t') = rest /\ P <> C
           /\ (ip o ∈ successor_addresses h1 tc -> heap (st t') = h1)
           /\ (ip o ∉ successor_addresses h1 tc ->
               heap (st t') = add_edge h1 C N
               /\ edge_installed h1 (add_edge h1 C N) C N))
     /\ (stack (st t) = []
         \/ (exists C rest tc,
               stack (st t) = C :: rest /\ heap (st t) !! C = Some tc
               /\ ip o <> return_address (instruction tc)) ->
         stack (st t') = stack (st t)
         /\ heap (st t') = add_edge h1 P N
         /\ edge_installed h1 (add_edge h1 P N) P N))
  /\ (forall i, 0 <= address i -> 0 <= size i ->
        address i + size i < 2 ^ 64 ->
        return_address i = address i + size i).
Proof.
  intros Hreach HP Hp Hret Hsize Hlate.
  split; [ | apply return_address_no_overflow ].
  apply reachable_tracker_ok in Hreach.
  pose proof (ok_state _ Hreach) as Hok.
  assert (Hnocall : type (instruction p) <> CALL) by congruence.
  destruct (instr_of o) as [ins | ] eqn:Hins;
    [ | now apply instr_of_None in Hins ].
  assert (Hgen : forall s1 new n r s',
            state_ok s1 -> stack s1 = stack (st t) ->
            (forall q c, heap (st t) !! q = Some c -> heap s1 !! q = Some c) ->
            heap s1 !! new = Some n -> address (instruction n) = ip o ->
            aux_outcome s1 P new r s' ->
            r = Some new /\ addr_of (heap s1) new = ip o
            /\ (forall C rest tc,
                  stack (st t) = C :: rest -> heap (st t) !! C = Some tc ->
                  ip o = return_address (instruction tc) ->
                  stack s' = rest /\ P <> C
                  /\ (ip o ∈ successor_addresses (heap s1) tc ->
                      heap s' = heap s1)
                  /\ (ip o ∉ successor_addresses (heap s1) tc ->
                      heap s' = add_edge (heap s1) C new
                      /\ edge_installed (heap s1)
                           (add_edge (heap s1) C new) C new))
            /\ (stack (st t) = []
                \/ (exists C rest tc,
                      stack (st t) = C :: rest /\ heap (st t) !! C = Some tc
                      /\ ip o <> return_address (instruction tc)) ->
                stack s' = stack (st t)
                /\ heap s' = add_edge (heap s1) P new
                /\ edge_installed (heap s1) (add_edge (heap s1) P new) P new)).
  { intros s1 new n r s' Hok1 Hstack Hsub Hn Haddr Hout.
    destruct (aux_outcome_after_ret s1 P p new n r s' Hok1 (Hsub _ _ Hp)
                Hret Hn Hout) as (Hr & Hmatch & Hun).
    assert (Hamong : forall tc, among_successors (heap s1) new tc
                                <-> ip o ∈ successor_addresses (heap s1) tc).
    { intros tc. unfold among_successors.
      now rewrite (addr_of_lookup _ _ _ Hn), Haddr. }
    split; [ assumption | ].
    split; [ now rewrite (addr_of_lookup _ _ _ Hn) | ]. split.
    - intros C rest tc Hs Htc Hra.
      destruct (Hmatch C rest tc) as (Hpop & Hne & Hdup & Hnew);
        [ congruence | now apply Hsub | congruence | ].
      split; [ assumption | ]. split; [ assumption | ].
      split; intros Hin; [ apply Hdup | apply Hnew ]; now rewrite Hamong.
    - intros Hcase. rewrite <- Hstack. apply Hun.
      destruct Hcase as [Hs | (C & rest & tc & Hs & Htc & Hne)].
      + left. congruence.
      + right. exists C, rest, tc.
        split; [ congruence | ]. split; [ now apply Hsub | congruence ]. }
  destruct (hashtable_lookup_total (heap (st t)) (ht (st t)) ins
              (ok_buckets _ Hok)) as [found Hlook].
  destruct found as [new | ].
  - destruct (observe_known t P p o ins new Hreach HP Hp Hins Hlook)
      as [_ Hrun].
    destruct Hrun as (r & s' & Hout & Hobs).
    { intros Hdup. apply Hlate. split; [ now exists ins, new | ].
      now apply (among_address t o ins new p Hins Hlook). }
    rewrite push_call_other in Hout by assumption.
    pose proof Hlook as Hlook'. apply hashtable_lookup_Some_inv in Hlook'.
    destruct Hlook' as (b & n & _ & _ & Hn & Haddr).
    destruct (Hgen (st t) new n r s' Hok eq_refl (fun _ _ H => H) Hn)
      as (-> & Ha & Hmatch & Hun);
      [ now rewrite Haddr, (instr_of_address _ _ Hins) | assumption | ].
    exists {| st := s'; cfg := Some new |}, new, (heap (st t)).
    split; [ exact Hobs | ]. split; [ reflexivity | ].
    split; [ left; split; [ now exists ins, new | reflexivity ] | ].
    split; [ assumption | ]. split; assumption.
  - destruct (observe_fresh t P p o ins Hreach HP Hp Hins Hlook)
      as (ht1 & r & s' & Hok1 & Hout & Hobs).
    set (s1 := mk_state (heap (st t) ++ [new_node ins (name_node o)]) ht1
                 (stack (st t)) (tail_entries (st t))) in *.
    rewrite enter_call_other in Hout by assumption.
    assert (Hnk : ~ known t o).
    { intros Hk. apply (known_lookup t o ins None Hins Hlook) in Hk.
      now destruct Hk. }
    destruct (Hgen s1 (length (heap (st t))) (new_node ins (name_node o))
                r s' Hok1 eq_refl) as (-> & Ha & Hmatch & Hun).
    + intros q c Hq. simpl. now apply lookup_app_l_Some.
    + simpl. now rewrite list_lookup_middle.
    + simpl. now apply instr_of_address.
    + assumption.
    + exists {| st := s'; cfg := Some (length (heap (st t))) |},
        (length (heap (st t))), (heap s1).
      split; [ exact Hobs | ]. split; [ reflexivity | ].
      split; [ right; split; [ assumption | ]; split; [ reflexivity | ];
               now exists ins | ].
      split; [ assumption | ]. split; assumption.
Qed.

Lemma return_edge_goes_to_call_site_witness :
  exists t',
    observe (run trace_S2_again) (obs 0x1005 1 [0x90]) = Ok (Some t')
    /\ stack (st t') = []
    /\ heap (st t') = heap (st (run trace_S2_again)).
Proof.
  assert (Hlate : ~ returns_early (run trace_S2_again)
                      (node_at (run trace_S2_again) 2) (obs 0x1005 1 [0x90])).
  { intros [_ Hin]. vm_compute in Hin. now apply elem_of_nil in Hin. }
  destruct (proj1 (return_edge_goes_to_call_site (run trace_S2_again) 2
                     (node_at (run trace_S2_again) 2) (obs 0x1005 1 [0x90])
                     (ex_intro _ trace_S2_again run_S2_again)
                     ltac:(vm_compute; reflexivity)
                     ltac:(vm_compute; reflexivity)
                     ltac:(vm_compute; reflexivity)
                     ltac:(vm_compute; discriminate) Hlate))
    as (t' & N & h1 & Hobs & _ & Hent & _ & Hmatch & _).
  exists t'. split; [ exact Hobs | ].
  destruct Hent as [[_ ->] | [Hnk _]].
  - destruct (Hmatch 0%nat [] (node_at (run trace_S2_again) 0))
      as (Hpop & _ & Hdup & _); try (vm_compute; reflexivity).
    split; [ exact Hpop | ]. apply Hdup.
    vm_compute. apply list_elem_of_In. simpl. auto.
  - exfalso. apply Hnk.
    exists (mk_instr 0x1005 BASIC 1 [0x90]), 3%nat.
    split; vm_compute; reflexivity.
Defined.

(** The claim without the restriction fails.  After [trace_second_return]
    the tracker is on the ret at 0x2000, the call at 0x1000 is on top of the
    shadow stack and returns to 0x1005, and 0x1005 is already a successor of
    the ret itself.  Observing 0x1005 leaves the whole state as it is: the
    call site is not popped and gets no edge to 0x1005. *)
Lemma early_return_keeps_the_call_site :
  observe_all tracker_start trace_second_return
  = Ok (Some (run trace_second_return))
  /\ cfg (run trace_second_return) = Some 1%nat
  /\ type (instruction (node_at (run trace_second_return) 1)) = RET
  /\ stack (st (run trace_second_return)) = [4%nat]
  /\ return_address (instruction (node_at (run trace_second_return) 4))
     = ip (obs 0x1005 1 [0x90])
  /\ observe (run trace_second_return) (obs 0x1005 1 [0x90])
     = Ok (Some {| st := st (run trace_second_return); cfg := Some 2%nat |})
  /\ ~ points_to 2 (node_at (run trace_second_return) 4).
Proof.
  repeat split; try (vm_compute; reflexivity).
  vm_compute. intros Hin. apply list_elem_of_In in Hin.
  simpl in Hin. destruct Hin as [Hin | []]. discriminate.
Qed.
